(** * Order assignment engine of the ride-sharing backend

    A shallow embedding of

    - [utils/geoUtils.js] (kept as [unnamed/part_006]): [calculateDistance],
      [calculateEstimatedDuration], [validateCoordinates];
    - [models/Order.js] (the second document of [src/config/redis-railway.js]):
      the order schema with [updateStatus], [lockForDriver], [releaseLock];
    - [services/orderAssignmentService.js] (the second document of
      [RAILWAY-CRASH-FIX.md]): [findNearbyDrivers], [assignOrder],
      [offerOrderToDriver], [handleDriverResponse], [cleanupExpiredLocks],
      [markOrderAsFailed].

    [geolib.getDistance], which [calculateDistance] calls, is not among the
    sources: it is a parameter of the embedding, and the great-circle
    distance of the specification stands for it where a property depends on
    what it computes.

    JavaScript numbers are IEEE 754 binary64 values, which are Rocq's
    primitive floats.  MongoDB collections and the Redis key space are finite
    maps; a service method is a state transformer that either returns a value
    or throws. *)

From Stdlib Require Import ZArith Lia Lra Bool List.
From Stdlib Require Import QArith Qround Qabs.
From Stdlib Require Reals Qreals.
From Stdlib Require Import Uint63 Floats.
From stdpp Require Import gmap strings list sorting.
Import ListNotations.

Set Warnings "-register-all".
Local Open Scope string_scope.
Local Open Scope Z_scope.

(* ===================================================================== *)
(** * A fragment of the JavaScript run time *)
(* ===================================================================== *)

Module Js.

(** The outcome of evaluating an expression: a value or a thrown exception. *)
Inductive Exn : Type :=
| JsError (message : string)      (* [new Error(message)] *)
| TypeError (message : string)    (* raised by the run time or a library *)
| ValidationError (path : string) (* Mongoose: a path failed its validator *)
| RedisError.                     (* the Redis client could not reach the store *)

Inductive Result (A : Type) : Type :=
| Ok (a : A)
| Throw (e : Exn).
Arguments Ok {A} a.
Arguments Throw {A} e.

(** [try { body } catch (error) { handler }] for effect-free code. *)
Definition try_catch {A} (body : Result A) (handler : Exn -> Result A) : Result A :=
  match body with
  | Ok a => Ok a
  | Throw e => handler e
  end.

(** Values.  Only the shapes that the embedded code manipulates: [undefined],
    numbers, functions, and plain objects with their own properties. *)
Inductive Value : Type :=
| Undefined
| Number (x : float)
| Function (name : string)
| Object (props : list (string * Value)).

Fixpoint assoc {A} (k : string) (l : list (string * A)) : option A :=
  match l with
  | [] => None
  | (k', v) :: l' => if String.eqb k k' then Some v else assoc k l'
  end.

(** The methods that every plain object inherits from [Object.prototype]. *)
Definition objectPrototypeMethods : list string :=
  [ "constructor"; "hasOwnProperty"; "isPrototypeOf"; "propertyIsEnumerable";
    "toLocaleString"; "toString"; "valueOf";
    "__defineGetter__"; "__defineSetter__"; "__lookupGetter__"; "__lookupSetter__" ].

(** A property read that reaches [Object.prototype]: one of its methods, the
    prototype itself under the accessor [__proto__] (an object; its own
    properties are left out), or [undefined]. *)
Definition objectPrototype (k : string) : Value :=
  if existsb (String.eqb k) objectPrototypeMethods then Function k
  else if String.eqb k "__proto__" then Object []
  else Undefined.

(** [obj[k]]: own properties first, then the prototype chain of a plain
    object, which is [Object.prototype] alone. *)
Definition get (obj : Value) (k : string) : Value :=
  match obj with
  | Object props =>
      match assoc k props with
      | Some v => v
      | None => objectPrototype k
      end
  | _ => Undefined
  end.

Definition typeof (v : Value) : string :=
  match v with
  | Undefined => "undefined"
  | Number _ => "number"
  | Function _ => "function"
  | Object _ => "object"
  end.

(** [ToBoolean]. *)
Definition truthy (v : Value) : bool :=
  match v with
  | Undefined => false
  | Number x => negb (PrimFloat.is_nan x || PrimFloat.is_zero x)
  | Function _ | Object _ => true
  end.

(** [a || b]. *)
Definition or (a b : Value) : Value := if truthy a then a else b.

(** [ToNumber].  A function or a plain object converts through its string
    form, which is not a numeral. *)
Definition toNumber (v : Value) : float :=
  match v with
  | Number x => x
  | Undefined | Function _ | Object _ => PrimFloat.nan
  end.

Definition two52 : float := 0x1p52%float.
Definition two46 : float := 0x1p46%float.

(** [Math.floor].  Below 2^52 in magnitude, adding and subtracting 2^52
    rounds to an integer; one step down corrects a rounding upwards. *)
Definition Math_floor (x : float) : float :=
  if PrimFloat.is_nan x || PrimFloat.is_infinity x || PrimFloat.is_zero x then x
  else if (two52 <=? PrimFloat.abs x)%float then x
  else
    let r := if (0 <? x)%float then ((x + two52) - two52)%float
             else ((x - two52) + two52)%float in
    if (x <? r)%float then (r - 1)%float else r.

(** [Math.round]: the nearest integer, the larger one on a tie. *)
Definition Math_round (x : float) : float :=
  if PrimFloat.is_nan x || PrimFloat.is_infinity x || PrimFloat.is_zero x then x
  else if ((0 <? x) && (x <? 0.5))%float then 0%float
  else if ((x <? 0) && (-0.5 <=? x))%float then (-0)%float
  else
    let f := Math_floor x in
    if (0.5 <=? x - f)%float then (f + 1)%float else f.

(** The string that [Number.prototype.toFixed(2)] produces, by shape. *)
Inductive Fixed2 : Type :=
| FixedNaN                                  (* "NaN" *)
| FixedAsIs (x : float)                     (* at least 2^46 in magnitude *)
| FixedDigits (negative : bool) (n : Z).    (* [-]n/100, two decimals *)

(** The integer [n] for which [n / 100 - |x|] is closest to zero, the larger
    one when two are equally close, on the exact value of [x]. *)
Definition hundredths (x : float) : Z :=
  match Prim2SF x with
  | S754_finite _ m e =>
      if (0 <=? e)%Z then 100 * Z.pos m * 2 ^ e
      else (200 * Z.pos m + 2 ^ (- e)) / 2 ^ (1 - e)
  | _ => 0
  end.

(** [x.toFixed(2)].  From 2^46 on, neighbouring doubles are further apart
    than 0.01, and the decimal expansion reads back as [x]. *)
Definition toFixed2 (x : float) : Fixed2 :=
  if PrimFloat.is_nan x then FixedNaN
  else if (two46 <=? PrimFloat.abs x)%float then FixedAsIs x
  else FixedDigits (x <? 0)%float (hundredths x).

(** [parseFloat] on such a string: the double nearest to the decimal. *)
Definition parseFloat (s : Fixed2) : float :=
  match s with
  | FixedNaN => PrimFloat.nan
  | FixedAsIs x => x
  | FixedDigits negative n =>
      let q := (PrimFloat.of_uint63 (Uint63.of_Z n) / 100)%float in
      if negative then (- q)%float else q
  end.

(** The Number for an integer: the integer itself below 2^53 in magnitude,
    the nearest double beyond. *)
Definition ofZ (z : Z) : float := SF2Prim (binary_normalize prec emax z 0 false).

(** [ToIntegerOrInfinity] on a finite number: the fraction is dropped. *)
Definition truncate (x : float) : Z :=
  match Prim2SF x with
  | S754_finite negative m e =>
      (if negative then -1 else 1)
      * (if (0 <=? e)%Z then Z.pos m * 2 ^ e else Z.pos m / 2 ^ (- e))
  | _ => 0
  end.

(** The time value of [new Date(t)], in milliseconds since the epoch
    ([TimeClip]); [None] is an invalid Date. *)
Definition timeClip (t : float) : option Z :=
  if PrimFloat.is_finite t && (PrimFloat.abs t <=? 8640000000000000)%float
  then Some (truncate t)
  else None.

End Js.

(* ===================================================================== *)
(** * utils/geoUtils.js *)
(* ===================================================================== *)

Module GeoUtils.
Import Js.

(** A point is an object [{latitude, longitude}]. *)
Definition point (latitude longitude : float) : Value :=
  Object [("latitude", Number latitude); ("longitude", Number longitude)].

Definition isNumber (v : Value) : bool := String.eqb (typeof v) "number".

Definition validateCoordinates (latitude longitude : Value) : bool :=
  isNumber latitude && isNumber longitude &&
  (-90 <=? toNumber latitude)%float && (toNumber latitude <=? 90)%float &&
  (-180 <=? toNumber longitude)%float && (toNumber longitude <=? 180)%float.

Definition validPoint (p : Value) : Prop :=
  validateCoordinates (get p "latitude") (get p "longitude") = true.

Definition averageSpeeds : Value :=
  Object [("bike", Number 25); ("car", Number 30); ("auto", Number 20)].

(** [calculateEstimatedDuration(distance, vehicleType = 'car')];
    [None] is an omitted argument. *)
Definition calculateEstimatedDuration (distance : float) (vehicleType : option string) : float :=
  let vehicleType := default "car" vehicleType in
  let speed := Js.or (get averageSpeeds vehicleType) (get averageSpeeds "car") in
  let duration := (distance / toNumber speed * 60)%float in
  Math_round (duration * 0x1.3333333333333p+0)%float.

(** The speed table as the specification words it. *)
Definition specSpeed (vehicleClass : string) : float :=
  if String.eqb vehicleClass "bike" then 25%float
  else if String.eqb vehicleClass "car" then 30%float
  else if String.eqb vehicleClass "auto" then 20%float
  else 30%float.

Definition specDuration (distance : float) (vehicleClass : string) : float :=
  Math_round (distance / specSpeed vehicleClass * 60 * 0x1.3333333333333p+0)%float.

(** The exact value of a double, as a rational; 0 for what is not finite. *)
Definition valueOf (x : float) : Q :=
  match Prim2SF x with
  | S754_finite negative m e =>
      let magnitude :=
        if (0 <=? e)%Z then inject_Z (Z.pos m * 2 ^ e)
        else (Z.pos m # Z.to_pos (2 ^ (- e)))%Q in
      if negative then (- magnitude)%Q else magnitude
  | _ => 0%Q
  end.

(** Rounding to two decimal places, as the specification words it: the
    number of hundredths nearest to the magnitude, the larger on a tie. *)
Definition specHundredths (q : Q) : Z := Qfloor (Qabs q * 100 + (1 # 2))%Q.

Section Geolib.

(** [geolib.getDistance]: the great-circle distance in metres, or an
    exception.  The library is not part of the repository. *)
Variable getDistance : Value -> Value -> Result Value.

Definition calculateDistance (point1 point2 : Value) : Result float :=
  try_catch
    (match getDistance point1 point2 with
     | Ok distance => Ok (parseFloat (toFixed2 (toNumber distance / 1000)%float))
     | Throw e => Throw e
     end)
    (fun _error => Ok 0%float).

End Geolib.

End GeoUtils.

(* ===================================================================== *)
(** * The great-circle distance of the specification *)
(* ===================================================================== *)

Module GreatCircle.
Import Reals Qreals.
Import Js GeoUtils.

(** The value of a coordinate, a double, as a real number. *)
Definition realOf (x : float) : R := Q2R (valueOf x).

Definition radians (degrees : R) : R := (degrees * PI / 180)%R.

(** Modelled from the spec: the great-circle distance between two points of
    a sphere by the haversine formula, which the specification names for
    [Distance]; it is computed by [geolib], which is not part of the
    sources.  Angles are in radians; the radius, which the specification
    leaves open, gives the unit. *)
Definition haversine (radius latitude1 longitude1 latitude2 longitude2 : R) : R :=
  (2 * radius
   * asin (R_sqrt.sqrt ((sin ((latitude2 - latitude1) / 2))²
                 + cos latitude1 * cos latitude2 * (sin ((longitude2 - longitude1) / 2))²)))%R.

(** The integer nearest to a real number, the larger on a tie. *)
Definition nearestInteger (r : R) : Z := Int_part (r + / 2)%R.

(** Modelled from the spec: [geolib.getDistance], the helper of
    [calculateDistance] that is not part of the sources.  It returns the
    haversine distance of the two points, whose coordinates are degrees, on a
    sphere of [radius] metres, as the number of whole metres nearest to it,
    the unit in which [calculateDistance] takes the result. *)
Definition getDistance (radius : R) (point1 point2 : Value) : Result Value :=
  let angle (p : Value) (k : string) := radians (realOf (toNumber (get p k))) in
  Ok (Number (ofZ (nearestInteger
                     (haversine radius
                        (angle point1 "latitude") (angle point1 "longitude")
                        (angle point2 "latitude") (angle point2 "longitude"))))).

End GreatCircle.

(* ===================================================================== *)
(** * State transformers that may throw *)
(* ===================================================================== *)

Module Eff.
Import Js.

(** An [async] method over a state [S]: it returns or throws, and in both
    cases leaves the state it reached. *)
Definition M (S A : Type) : Type := S -> Result A * S.

Definition ret {S A} (a : A) : M S A := fun s => (Ok a, s).

Definition throw {S A} (e : Exn) : M S A := fun s => (Throw e, s).

Definition bind {S A B} (m : M S A) (k : A -> M S B) : M S B :=
  fun s =>
    match m s with
    | (Ok a, s') => k a s'
    | (Throw e, s') => (Throw e, s')
    end.

(** [try { body } catch (error) { handler }]: the handler starts from the
    state in which the exception was raised. *)
Definition tryCatch {S A} (body : M S A) (handler : Exn -> M S A) : M S A :=
  fun s =>
    match body s with
    | (Ok a, s') => (Ok a, s')
    | (Throw e, s') => handler e s'
    end.

Definition gets {S A} (f : S -> A) : M S A := fun s => (Ok (f s), s).

Definition modify {S} (f : S -> S) : M S unit := fun s => (Ok tt, f s).

(** Run a method of the outer state while a document is held. *)
Definition lift {D S A} (m : M S A) : M (D * S) A :=
  fun ds =>
    match m (snd ds) with
    | (r, s') => (r, (fst ds, s'))
    end.

(** Run code that holds the document [d]; the document is dropped at the end. *)
Definition withDoc {D S A} (d : D) (m : M (D * S) A) : M S A :=
  fun s =>
    match m (d, s) with
    | (r, ds') => (r, snd ds')
    end.

Definition getDoc {D S} : M (D * S) D := fun ds => (Ok (fst ds), ds).

Definition modifyDoc {D S} (f : D -> D) : M (D * S) unit :=
  fun ds => (Ok tt, (f (fst ds), snd ds)).

(** [for (const x of xs) { await body(x) }]. *)
Fixpoint forEach {S A} (xs : list A) (body : A -> M S unit) : M S unit :=
  match xs with
  | [] => ret tt
  | x :: xs' => bind (body x) (fun _ => forEach xs' body)
  end.

End Eff.

Notation "'let*' x ':=' m 'in' k" := (Eff.bind m (fun x => k))
  (at level 10, x name, m at level 100, k at level 200).
Notation "m ';;' k" := (Eff.bind m (fun _ => k))
  (at level 100, k at level 200, right associativity).

(* ===================================================================== *)
(** * models/Order.js *)
(* ===================================================================== *)

Module OrderModel.
Import Js.

(** An entry of [assignmentAttempts]. *)
Record Attempt : Type := mkAttempt {
  driverId : string;
  attemptedAt : Z;
  response : string;
  respondedAt : option Z
}.

Record Timestamps : Type := mkTimestamps {
  orderPlaced : Z;
  accepted : option Z;
  pickupStarted : option Z;
  pickedUp : option Z;
  delivered : option Z;
  cancelled : option Z
}.

(** The fields of an order document that the assignment engine reads or
    writes.  Dates are milliseconds since the epoch; object ids are their
    string form. *)
Record Order : Type := mkOrder {
  orderId : string;
  customer : string;
  driver : option string;
  pickupLocation : Value;
  status : string;
  paymentStatus : string;
  timestamps : Timestamps;
  assignmentAttempts : list Attempt;
  isLocked : bool;
  lockedBy : option string;
  lockExpiration : option Z
}.

(** The [enum] validators of the schema. *)
Definition statusEnum : list string :=
  ["pending"; "accepted"; "pickup_started"; "picked_up"; "in_transit"; "delivered"; "cancelled"].
Definition paymentStatusEnum : list string := ["pending"; "paid"; "refunded"].
Definition responseEnum : list string := ["pending"; "accepted"; "declined"; "timeout"].

Definition oneOf (enum : list string) (s : string) : bool := existsb (String.eqb s) enum.

(** Validation before a save: the first path whose validator rejects. *)
Definition validate (o : Order) : option string :=
  if negb (oneOf statusEnum (status o)) then Some "status"
  else if negb (oneOf paymentStatusEnum (paymentStatus o)) then Some "paymentStatus"
  else if negb (forallb (fun a => oneOf responseEnum (response a)) (assignmentAttempts o))
       then Some "assignmentAttempts.response"
  else None.

Definition setStatus (s : string) (o : Order) : Order :=
  mkOrder (orderId o) (customer o) (driver o) (pickupLocation o) s (paymentStatus o)
          (timestamps o) (assignmentAttempts o) (isLocked o) (lockedBy o) (lockExpiration o).
Definition setDriver (d : option string) (o : Order) : Order :=
  mkOrder (orderId o) (customer o) d (pickupLocation o) (status o) (paymentStatus o)
          (timestamps o) (assignmentAttempts o) (isLocked o) (lockedBy o) (lockExpiration o).
Definition setPaymentStatus (p : string) (o : Order) : Order :=
  mkOrder (orderId o) (customer o) (driver o) (pickupLocation o) (status o) p
          (timestamps o) (assignmentAttempts o) (isLocked o) (lockedBy o) (lockExpiration o).
Definition setTimestamps (t : Timestamps) (o : Order) : Order :=
  mkOrder (orderId o) (customer o) (driver o) (pickupLocation o) (status o) (paymentStatus o)
          t (assignmentAttempts o) (isLocked o) (lockedBy o) (lockExpiration o).
Definition setAssignmentAttempts (l : list Attempt) (o : Order) : Order :=
  mkOrder (orderId o) (customer o) (driver o) (pickupLocation o) (status o) (paymentStatus o)
          (timestamps o) l (isLocked o) (lockedBy o) (lockExpiration o).
Definition setLock (locked : bool) (by_ : option string) (until : option Z) (o : Order) : Order :=
  mkOrder (orderId o) (customer o) (driver o) (pickupLocation o) (status o) (paymentStatus o)
          (timestamps o) (assignmentAttempts o) locked by_ until.

Definition setAccepted (d : option Z) (t : Timestamps) : Timestamps :=
  mkTimestamps (orderPlaced t) d (pickupStarted t) (pickedUp t) (delivered t) (cancelled t).
Definition setPickupStarted (d : option Z) (t : Timestamps) : Timestamps :=
  mkTimestamps (orderPlaced t) (accepted t) d (pickedUp t) (delivered t) (cancelled t).
Definition setPickedUp (d : option Z) (t : Timestamps) : Timestamps :=
  mkTimestamps (orderPlaced t) (accepted t) (pickupStarted t) d (delivered t) (cancelled t).
Definition setDelivered (d : option Z) (t : Timestamps) : Timestamps :=
  mkTimestamps (orderPlaced t) (accepted t) (pickupStarted t) (pickedUp t) d (cancelled t).
Definition setCancelled (d : option Z) (t : Timestamps) : Timestamps :=
  mkTimestamps (orderPlaced t) (accepted t) (pickupStarted t) (pickedUp t) (delivered t) d.

(** [updateStatus(newStatus, driverId = null)] at the instant [now].  A
    status outside the [switch] is stored without a timestamp. *)
Definition updateStatus (newStatus : string) (driverId : option string) (now : Z) (o : Order) : Order :=
  let o := setStatus newStatus o in
  if String.eqb newStatus "accepted" then
    setDriver driverId (setTimestamps (setAccepted (Some now) (timestamps o)) o)
  else if String.eqb newStatus "pickup_started" then
    setTimestamps (setPickupStarted (Some now) (timestamps o)) o
  else if String.eqb newStatus "picked_up" then
    setTimestamps (setPickedUp (Some now) (timestamps o)) o
  else if String.eqb newStatus "delivered" then
    setPaymentStatus "paid" (setTimestamps (setDelivered (Some now) (timestamps o)) o)
  else if String.eqb newStatus "cancelled" then
    setTimestamps (setCancelled (Some now) (timestamps o)) o
  else o.

(** [lockForDriver(driverId, timeoutMinutes)] at the instant [now]:
    [new Date(Date.now() + timeoutMinutes * 60 * 1000)], in doubles.  A date
    that is invalid is kept as no date: [isLockExpired] and the query of the
    sweep take both for a lock that has not expired. *)
Definition lockForDriver (driverId : string) (timeoutMinutes : float) (now : Z) (o : Order)
  : Order :=
  setLock true (Some driverId)
          (Js.timeClip (Js.ofZ now + timeoutMinutes * 60 * 1000)%float) o.

Definition releaseLock (o : Order) : Order := setLock false None None o.

(** [isLockExpired()] at the instant [now]. *)
Definition isLockExpired (now : Z) (o : Order) : bool :=
  isLocked o && match lockExpiration o with Some t => t <? now | None => false end.

End OrderModel.

(* ===================================================================== *)
(** * services/orderAssignmentService.js *)
(* ===================================================================== *)

Module OrderAssignmentService.
Import Js Eff OrderModel.

(** ** The world the service acts on *)

(** A user document, with the fields of [driverDetails] that matter. *)
Record User : Type := mkUser {
  userId : string;
  userType : string;
  isActive : bool;
  isAvailable : bool;
  currentLocation : Value
}.

(** [{...driver.toObject(), distanceToPickup}]; the distance is kept in
    hundredths of a kilometre, the unit of [calculateDistance]'s two decimals. *)
Record Candidate : Type := mkCandidate {
  user : User;
  distanceToPickup : Z
}.

(** [io.to(room).emit(event, {orderId, ...})]. *)
Record Emit : Type := mkEmit {
  room : string;
  event : string;
  payloadOrderId : string
}.

(** The callback handed to [setTimeout]. *)
Inductive Task : Type :=
| RetryAssignment (orderId : string).

Record Timer : Type := mkTimer {
  delay : Z;
  task : Task
}.

Record World : Type := mkWorld {
  orders : gmap string Order;     (* the Order collection, by [orderId] *)
  users : list User;              (* the User collection, in natural order *)
  redis : gmap string string;     (* the live keys of the Redis store *)
  emitted : list Emit;            (* socket events, latest first *)
  timers : list Timer;            (* pending [setTimeout] callbacks, latest first *)
  now : Z;                        (* [Date.now()] *)
  faults : nat -> bool;           (* whether the n-th Redis command finds the store down *)
  ops : nat                       (* Redis commands issued so far *)
}.

Definition setOrders (m : gmap string Order) (w : World) : World :=
  mkWorld m (users w) (redis w) (emitted w) (timers w) (now w) (faults w) (ops w).
Definition setUsers (l : list User) (w : World) : World :=
  mkWorld (orders w) l (redis w) (emitted w) (timers w) (now w) (faults w) (ops w).
Definition setRedis (m : gmap string string) (w : World) : World :=
  mkWorld (orders w) (users w) m (emitted w) (timers w) (now w) (faults w) (ops w).
Definition setEmitted (l : list Emit) (w : World) : World :=
  mkWorld (orders w) (users w) (redis w) l (timers w) (now w) (faults w) (ops w).
Definition setTimers (l : list Timer) (w : World) : World :=
  mkWorld (orders w) (users w) (redis w) (emitted w) l (now w) (faults w) (ops w).
Definition setOps (n : nat) (w : World) : World :=
  mkWorld (orders w) (users w) (redis w) (emitted w) (timers w) (now w) (faults w) n.

(** The object a method resolves to: the fields present depend on the path. *)
Record Reply : Type := mkReply {
  success : bool;
  reason : option string;
  message : option string;
  replyDriverId : option string;
  replyLockTimeout : option Z;
  replyOrderId : option string
}.

Definition failure (why : string) : Reply := mkReply false (Some why) None None None None.

(** ** Redis client *)

Definition redisCommand {A} (f : World -> A * World) : M World A :=
  fun w =>
    let w' := setOps (S (ops w)) w in
    if faults w (ops w) then (Throw RedisError, w')
    else match f w' with (a, w'') => (Ok a, w'') end.

Definition redis_get (key : string) : M World (option string) :=
  redisCommand (fun w => (redis w !! key, w)).

(** [SETEX].  A key expires between calls, not during one: expiry is a step
    of the store that removes the key, and [seconds] plays no part here. *)
Definition redis_setEx (key : string) (seconds : Z) (value : string) : M World unit :=
  redisCommand (fun w => (tt, setRedis (<[key := value]> (redis w)) w)).

Definition redis_del (key : string) : M World unit :=
  redisCommand (fun w => (tt, setRedis (delete key (redis w)) w)).

(** Truthiness of a reply of [GET]: [null] and the empty string are falsy. *)
Definition present (v : option string) : bool :=
  match v with
  | Some s => negb (String.eqb s "")
  | None => false
  end.

(** [v === s] for a reply [v] of [GET]. *)
Definition isString (v : option string) (s : string) : bool :=
  match v with
  | Some s' => String.eqb s' s
  | None => false
  end.

(** ** Mongoose models *)

Definition Order_findOne (orderId : string) : M World (option Order) :=
  gets (fun w => orders w !! orderId).

Definition Order_find (p : Order -> bool) : M World (list Order) :=
  gets (fun w => List.filter p (map snd (map_to_list (orders w)))).

(** [order.save()] for the document held. *)
Definition save : M (Order * World) unit :=
  fun ow =>
    match validate (fst ow) with
    | Some path => (Throw (ValidationError path), ow)
    | None =>
        (Ok tt, (fst ow, setOrders (<[orderId (fst ow) := fst ow]> (orders (snd ow))) (snd ow)))
    end.

(** [User.findById(id)], which is also what [populate('customer')] puts in
    the place of the reference: the document, or [null]. *)
Definition User_findById (id : string) : M World (option User) :=
  gets (fun w => List.find (fun u => String.eqb (userId u) id) (users w)).

Definition User_findByIdAndUpdate (id : string) (update : User -> User) : M World unit :=
  modify (fun w =>
    setUsers (map (fun u => if String.eqb (userId u) id then update u else u) (users w)) w).

Definition setIsAvailable (b : bool) (u : User) : User :=
  mkUser (userId u) (userType u) (isActive u) b (currentLocation u).

Definition clock : M World Z := gets now.

Definition emit (room event orderId : string) : M World unit :=
  modify (fun w => setEmitted (mkEmit room event orderId :: emitted w) w).

Definition setTimeout (t : Task) (ms : Z) : M World unit :=
  modify (fun w => setTimers (mkTimer ms t :: timers w) w).

(** ** Arrays *)

(** [Array.prototype.sort] with the comparator [(a, b) => key(a) - key(b)]:
    ascending, and stable. *)
Fixpoint insertBy {A} (key : A -> Z) (x : A) (l : list A) : list A :=
  match l with
  | [] => [x]
  | y :: l' => if key y <? key x then y :: insertBy key x l' else x :: l
  end.

Definition sortBy {A} (key : A -> Z) (l : list A) : list A :=
  foldr (insertBy key) [] l.

(** [Array.prototype.findIndex]; [None] stands for -1. *)
Fixpoint findIndex {A} (p : A -> bool) (l : list A) : option nat :=
  match l with
  | [] => None
  | x :: l' => if p x then Some 0%nat else option_map S (findIndex p l')
  end.

Definition isPending (a : Attempt) : bool := String.eqb (response a) "pending".

Definition pendingFor (driverId : string) (a : Attempt) : bool :=
  String.eqb (OrderModel.driverId a) driverId && isPending a.

(** [attempt.response = answer; attempt.respondedAt = new Date()]. *)
Definition respond (answer : string) (at_ : Z) (a : Attempt) : Attempt :=
  mkAttempt (OrderModel.driverId a) (attemptedAt a) answer (Some at_).

(** An id inside a template literal; [null] prints as ["null"]. *)
Definition showId (id : option string) : string := default "null" id.

(** The messages of the errors that the service throws. *)
Definition NotFound : Exn := JsError "Order not found".
Definition InvalidState : Exn := JsError "Order is not in pending status".
Definition AlreadyInProgress : Exn := JsError "Order assignment already in progress".
Definition NoDriversAvailable : Exn := JsError "No available drivers found nearby".
Definition NoDriverAcceptedOffer : Exn := JsError "No driver accepted the order".
Definition StaleOrExpiredOffer : Exn := JsError "Invalid or expired lock".
(** [order.customer._id] and [order.customer.name] when [populate] found no
    document for the customer. *)
Definition NoCustomerId : Exn := TypeError "Cannot read properties of null (reading '_id')".
Definition NoCustomerName : Exn := TypeError "Cannot read properties of null (reading 'name')".

(** The Redis store answers every command. *)
Definition storeReachable (w : World) : Prop := forall n, faults w n = false.

(** The two lock keys of an offer of [orderId] to [driverId] agree. *)
Definition lockKeysConsistent (w : World) (orderId driverId : string) : Prop :=
  redis w !! ("driver_lock:" +:+ driverId) = Some orderId /\
  redis w !! ("order_lock:" +:+ orderId) = Some driverId.

(** The attempts that have been answered or have timed out. *)
Definition resolvedAttempts (o : Order) : nat :=
  length (List.filter (fun attempt => negb (isPending attempt)) (assignmentAttempts o)).

Section Service.

(** MongoDB's spherical distance of the [$near] operator, in metres. *)
Variable mongoDistance : Value -> Value -> Z.

(** [geoUtils.calculateDistance], in hundredths of a kilometre. *)
Variable calculateDistance : Value -> Value -> Z.

(** [parseInt(process.env.ORDER_LOCK_TIMEOUT)]; [None] when it is [NaN]. *)
Variable ORDER_LOCK_TIMEOUT : option Z.

(** [User.find({userType: 'driver', isActive: true,
    'driverDetails.isAvailable': true,
    'driverDetails.currentLocation': {$near: ..., $maxDistance}})]:
    the matching documents, nearest first. *)
Definition User_findNear (center : Value) (maxDistance : Z) : M World (list User) :=
  gets (fun w =>
    sortBy (fun u => mongoDistance center (currentLocation u))
      (List.filter
         (fun u => String.eqb (userType u) "driver" && isActive u && isAvailable u
                   && (mongoDistance center (currentLocation u) <=? maxDistance))
         (users w))).

(** [findNearbyDrivers(pickupLocation, radiusKm = 5)]. *)
Definition findNearbyDrivers (pickupLocation : Value) (radiusKm : option Z)
  : M World (list Candidate) :=
  let radiusKm := default 5 radiusKm in
  tryCatch
    (let* drivers := User_findNear pickupLocation (radiusKm * 1000) in
     ret (sortBy distanceToPickup
            (map (fun driver =>
                    mkCandidate driver (calculateDistance pickupLocation (currentLocation driver)))
                 drivers)))
    (fun error => throw error).

(** [parseInt(process.env.ORDER_LOCK_TIMEOUT) || 300]. *)
Definition lockTimeout : Z :=
  match ORDER_LOCK_TIMEOUT with
  | Some t => if t =? 0 then 300 else t
  | None => 300
  end.

(** [offerOrderToDriver(order, driver)]; the order is the document held.
    It comes from [assignOrder] with its customer populated; [assignOrder]
    changes no user, so the customer's document is read where the payload
    uses it. *)
Definition offerOrderToDriver (driver : Candidate) : M (Order * World) Reply :=
  tryCatch
    (let* order := getDoc in
     let driverLockKey := "driver_lock:" +:+ userId (user driver) in
     let orderLockKey := "order_lock:" +:+ orderId order in
     let* driverLock := lift (redis_get driverLockKey) in
     if present driverLock then ret (failure "Driver is busy with another order")
     else
       let* orderLock := lift (redis_get orderLockKey) in
       if present orderLock && negb (isString orderLock (userId (user driver)))
       then ret (failure "Order is locked by another driver")
       else
         lift (redis_setEx driverLockKey lockTimeout (orderId order)) ;;
         lift (redis_setEx orderLockKey lockTimeout (userId (user driver))) ;;
         let* t := lift clock in
         modifyDoc (lockForDriver (userId (user driver)) (ofZ lockTimeout / 60)%float t) ;;
         save ;;
         modifyDoc (fun o =>
           setAssignmentAttempts
             (assignmentAttempts o ++ [mkAttempt (userId (user driver)) t "pending" None])%list o) ;;
         save ;;
         let* customerDoc := lift (User_findById (customer order)) in
         match customerDoc with
         | Some _ =>
             lift (emit ("driver:" +:+ userId (user driver)) "new_order_offer" (orderId order))
         | None => throw NoCustomerName
         end ;;
         ret (mkReply true None (Some "Order offered to driver")
                      (Some (userId (user driver))) (Some lockTimeout) None))
    (fun _error => ret (failure "Failed to offer order to driver")).

(** The loop of [assignOrder] over the candidates; [Some r] when it
    returned [r] from inside the loop. *)
Fixpoint offerLoop (lockKey : string) (drivers : list Candidate)
  : M (Order * World) (option Reply) :=
  match drivers with
  | [] => ret None
  | driver :: rest =>
      let* assignmentResult := offerOrderToDriver driver in
      if success assignmentResult then
        lift (redis_del lockKey) ;; ret (Some assignmentResult)
      else offerLoop lockKey rest
  end.

(** [assignOrder(orderId)]. *)
Definition assignOrder (orderId : string) : M World Reply :=
  tryCatch
    (let* order := Order_findOne orderId in
     match order with
     | None => throw NotFound
     | Some order =>
         if negb (String.eqb (status order) "pending") then throw InvalidState
         else
           let lockKey := "order_assignment:" +:+ orderId in
           let* isLocked := redis_get lockKey in
           if present isLocked then throw AlreadyInProgress
           else
             redis_setEx lockKey 300 "locked" ;;
             tryCatch
               (let* nearbyDrivers := findNearbyDrivers (pickupLocation order) None in
                if (length nearbyDrivers =? 0)%nat then
                  redis_del lockKey ;; throw NoDriversAvailable
                else
                  let* returned := withDoc order (offerLoop lockKey (take 5 nearbyDrivers)) in
                  match returned with
                  | Some assignmentResult => ret assignmentResult
                  | None => redis_del lockKey ;; throw NoDriverAcceptedOffer
                  end)
               (fun error => redis_del lockKey ;; throw error)
     end)
    (fun error => throw error).

(** [markOrderAsFailed(orderId, reason)]. *)
Definition markOrderAsFailed (orderId reason : string) : M World unit :=
  tryCatch
    (let* order := Order_findOne orderId in
     match order with
     | Some order =>
         let* customerDoc := User_findById (customer order) in
         withDoc order
           (let* t := lift clock in
            modifyDoc (updateStatus "failed" None t) ;;
            modifyDoc releaseLock ;;
            save ;;
            let* order := getDoc in
            match customerDoc with
            | Some customerDoc =>
                lift (emit ("customer:" +:+ userId customerDoc) "order_failed"
                           (OrderModel.orderId order))
            | None => throw NoCustomerId
            end)
     | None => ret tt
     end)
    (fun _error => ret tt).

(** [handleDriverResponse(orderId, driverId, response)]. *)
Definition handleDriverResponse (orderId driverId response : string) : M World Reply :=
  tryCatch
    (let* order := Order_findOne orderId in
     match order with
     | None => throw NotFound
     | Some order =>
         let* customerDoc := User_findById (customer order) in
         withDoc order
           (let driverLockKey := "driver_lock:" +:+ driverId in
            let orderLockKey := "order_lock:" +:+ orderId in
            let* driverLock := lift (redis_get driverLockKey) in
            let* orderLock := lift (redis_get orderLockKey) in
            if negb (isString driverLock orderId) || negb (isString orderLock driverId)
            then throw StaleOrExpiredOffer
            else
              let* t := lift clock in
              modifyDoc (fun o =>
                match findIndex (pendingFor driverId) (assignmentAttempts o) with
                | Some attemptIndex =>
                    setAssignmentAttempts
                      (alter (respond (if String.eqb response "accept" then "accepted" else "declined") t)
                             attemptIndex (assignmentAttempts o)) o
                | None => o
                end) ;;
              if String.eqb response "accept" then
                modifyDoc (updateStatus "accepted" (Some driverId) t) ;;
                modifyDoc releaseLock ;;
                save ;;
                lift (User_findByIdAndUpdate driverId (setIsAvailable false)) ;;
                lift (redis_del driverLockKey) ;;
                lift (redis_del orderLockKey) ;;
                let* order := getDoc in
                match customerDoc with
                | Some customerDoc =>
                    lift (emit ("customer:" +:+ userId customerDoc) "order_accepted"
                               (OrderModel.orderId order))
                | None => throw NoCustomerId
                end ;;
                lift (emit ("driver:" +:+ driverId) "order_assignment_confirmed" (OrderModel.orderId order)) ;;
                ret (mkReply true None (Some "Order accepted successfully") None None (Some orderId))
              else
                modifyDoc releaseLock ;;
                save ;;
                lift (redis_del driverLockKey) ;;
                lift (redis_del orderLockKey) ;;
                let* order := getDoc in
                let currentAttempts :=
                  length (List.filter (fun attempt => negb (isPending attempt)) (assignmentAttempts order)) in
                let maxRetries := 10%nat in
                (if (currentAttempts <? maxRetries)%nat then
                   lift (setTimeout (RetryAssignment orderId) 2000)
                 else
                   lift (markOrderAsFailed orderId "Maximum assignment attempts reached")) ;;
                ret (mkReply true None (Some "Order declined, trying next driver") None None None))
     end)
    (fun error => throw error).

(** The callback of the timer set on a decline:
    [assignOrder(orderId).catch(error => markOrderAsFailed(orderId, ...))]. *)
Definition runTask (t : Task) : M World unit :=
  match t with
  | RetryAssignment orderId =>
      tryCatch (assignOrder orderId ;; ret tt)
               (fun _error => markOrderAsFailed orderId "No drivers available")
  end.

(** The body of the loop of [cleanupExpiredLocks] for one order. *)
Definition cleanupExpiredLock (order : Order) : M World unit :=
  withDoc order
    (modifyDoc releaseLock ;;
     let* t := lift clock in
     modifyDoc (fun o =>
       match last (assignmentAttempts o) with
       | Some lastAttempt =>
           if isPending lastAttempt then
             setAssignmentAttempts
               (alter (respond "timeout" t) (length (assignmentAttempts o) - 1)%nat
                      (assignmentAttempts o)) o
           else o
       | None => o
       end) ;;
     save ;;
     let* order := getDoc in
     lift (redis_del ("driver_lock:" +:+ showId (lockedBy order))) ;;
     lift (redis_del ("order_lock:" +:+ orderId order))).

(** [cleanupExpiredLocks()]. *)
Definition cleanupExpiredLocks : M World unit :=
  tryCatch
    (let* t := clock in
     let* expiredOrders := Order_find (isLockExpired t) in
     forEach expiredOrders cleanupExpiredLock)
    (fun _error => ret tt).

End Service.

End OrderAssignmentService.

(* ===================================================================== *)
(** * utils/geoUtils.js: queries over points *)
(* ===================================================================== *)

Module GeoUtilsQueries.
Import Js GeoUtils.

(** An own property is written in place when the key exists and is added
    at the end otherwise. *)
Fixpoint setProp (k : string) (v : Value) (props : list (string * Value))
  : list (string * Value) :=
  match props with
  | [] => [(k, v)]
  | (k', v') :: rest =>
      if String.eqb k' k then (k', v) :: rest else (k', v') :: setProp k v rest
  end.

(** [{ ...point, distance }]; spreading a value that is no object copies
    nothing. *)
Definition withDistance (point : Value) (distance : float) : Value :=
  match point with
  | Object props => Object (setProp "distance" (Number distance) props)
  | Undefined | Number _ | Function _ => Object [("distance", Number distance)]
  end.

Section Geolib.

Variable getDistance : Value -> Value -> Result Value.

(** [isWithinRadius(center, point, radiusKm)]. *)
Definition isWithinRadius (center point : Value) (radiusKm : float) : Result bool :=
  match calculateDistance getDistance center point with
  | Ok distance => Ok (distance <=? radiusKm)%float
  | Throw e => Throw e
  end.

(** The [forEach] of [findClosestPoint], from the values that
    [closestPoint] and [minDistance] hold. *)
Fixpoint scanPoints (referencePoint : Value) (points : list Value)
  (closestPoint : option Value) (minDistance : float) : Result (option Value) :=
  match points with
  | [] => Ok closestPoint
  | point :: rest =>
      match calculateDistance getDistance referencePoint point with
      | Ok distance =>
          if (distance <? minDistance)%float
          then scanPoints referencePoint rest (Some (withDistance point distance)) distance
          else scanPoints referencePoint rest closestPoint minDistance
      | Throw e => Throw e
      end
  end.

(** [findClosestPoint(referencePoint, points)]; [None] as argument is a
    missing array and [None] as result is [null]. *)
Definition findClosestPoint (referencePoint : Value) (points : option (list Value))
  : Result (option Value) :=
  match points with
  | None => Ok None
  | Some [] => Ok None
  | Some points => scanPoints referencePoint points None PrimFloat.infinity
  end.

End Geolib.

End GeoUtilsQueries.

(* ===================================================================== *)
(** * config/redis-railway.js: the reconnection policy *)
(* ===================================================================== *)

Module RedisConfig.

(** The argument of [retry_strategy]: the code of [options.error] when there
    is one, the time spent retrying and the number of the attempt. *)
Record RetryOptions : Type := mkRetryOptions {
  errorCode : option string;
  total_retry_time : Z;
  attempt : Z
}.

Inductive RetryDecision : Type :=
| FailWith (message : string)   (* [return new Error(message)] *)
| StopRetrying                  (* [return undefined] *)
| RetryAfter (milliseconds : Z).

Definition retry_strategy (options : RetryOptions) : RetryDecision :=
  if match errorCode options with
     | Some code => String.eqb code "ECONNREFUSED"
     | None => false
     end
  then FailWith "Redis connection refused"
  else if 1000 * 60 * 60 <? total_retry_time options then FailWith "Retry time exhausted"
  else if 10 <? attempt options then StopRetrying
  else RetryAfter (Z.min (attempt options * 100) 3000).

(** ** The connection *)

(** The variables of [process.env] that [connectRedis] reads. *)
Record Env : Type := mkEnv {
  REDIS_URL : option string;
  NODE_ENV : option string
}.

(** Whether the server lets [connect()], [ping()] and [quit()] resolve. *)
Record Server : Type := mkServer {
  connects : bool;
  pongs : bool;
  quits : bool
}.

(** A client of the library, made for a URL. *)
Record Client : Type := mkClient {
  url : string
}.

(** A call returns, or ends the process with [process.exit(code)]. *)
Inductive Ending (A : Type) : Type :=
| Returns (a : A)
| Exits (code : Z).
Arguments Returns {A} a.
Arguments Exits {A} code.

(** Truthiness of a variable of the environment. *)
Definition isSet (v : option string) : bool :=
  match v with
  | Some s => negb (String.eqb s "")
  | None => false
  end.

Definition production (env : Env) : bool :=
  match NODE_ENV env with
  | Some mode => String.eqb mode "production"
  | None => false
  end.

Section Library.

(** [redis.createClient({url, retry_strategy})], which may throw. *)
Variable createClient : string -> Js.Result Client.

(** [connectRedis()]; the state is the module's variable [redisClient]. *)
Definition connectRedis (env : Env) (server : Server)
  : Eff.M (option Client) (Ending (option Client)) :=
  Eff.tryCatch
    (match REDIS_URL env with
     | Some redisUrl =>
         if isSet (Some redisUrl) then
           match createClient redisUrl with
           | Js.Ok client => Eff.modify (fun _ => Some client)
           | Js.Throw error => Eff.throw error
           end ;;
           (if connects server then Eff.ret tt else Eff.throw Js.RedisError) ;;
           (if pongs server then Eff.ret tt else Eff.throw Js.RedisError) ;;
           let* redisClient := Eff.gets (fun redisClient => redisClient) in
           Eff.ret (Returns redisClient)
         else if production env then
           Eff.throw (Js.JsError "REDIS_URL environment variable is required in production")
         else Eff.ret (Returns None)
     | None =>
         if production env then
           Eff.throw (Js.JsError "REDIS_URL environment variable is required in production")
         else Eff.ret (Returns None)
     end)
    (fun _error => if production env then Eff.ret (Exits 1) else Eff.ret (Returns None)).

End Library.

Definition getRedisClient : Eff.M (option Client) (option Client) :=
  Eff.gets (fun redisClient => redisClient).

Definition disconnectRedis (server : Server) : Eff.M (option Client) unit :=
  let* redisClient := Eff.gets (fun redisClient => redisClient) in
  match redisClient with
  | Some _ =>
      Eff.tryCatch (if quits server then Eff.ret tt else Eff.throw Js.RedisError)
                   (fun _error => Eff.ret tt)
  | None => Eff.ret tt
  end.

End RedisConfig.

(* ===================================================================== *)
(** * Properties of utils/geoUtils.js *)
(* ===================================================================== *)

Module GeoUtilsFacts.
Import Js GeoUtils.

(** ** Estimated duration *)

Example duration_car_10km : calculateEstimatedDuration 10 None = 24%float.
Proof. reflexivity. Qed.

Example duration_bike_10km : calculateEstimatedDuration 10 (Some "bike") = 29%float.
Proof. reflexivity. Qed.

Example duration_auto_10km : calculateEstimatedDuration 10 (Some "auto") = 36%float.
Proof. reflexivity. Qed.

Example duration_truck_10km : calculateEstimatedDuration 10 (Some "truck") = 24%float.
Proof. reflexivity. Qed.

(** A class is looked up among the own properties of [averageSpeeds] and,
    failing that, on [Object.prototype]. *)
Definition inherited (vehicleClass : string) : bool :=
  existsb (String.eqb vehicleClass) objectPrototypeMethods || String.eqb vehicleClass "__proto__".

Lemma get_averageSpeeds_not_inherited vehicleClass :
  inherited vehicleClass = false ->
  Js.or (get averageSpeeds vehicleClass) (get averageSpeeds "car") = Number (specSpeed vehicleClass).
Proof.
  unfold inherited, specSpeed, averageSpeeds, get, objectPrototype. cbn [assoc].
  intros H. apply orb_false_iff in H as [Hm Hp].
  destruct (String.eqb vehicleClass "bike"); [reflexivity|].
  destruct (String.eqb vehicleClass "car"); [reflexivity|].
  destruct (String.eqb vehicleClass "auto"); [reflexivity|].
  rewrite Hm, Hp. reflexivity.
Qed.

(** Away from the names that an object literal inherits, the duration is the
    rounded, buffered quotient of the specification, for every distance. *)
Lemma calculateEstimatedDuration_not_inherited distance vehicleClass :
  inherited vehicleClass = false ->
  calculateEstimatedDuration distance (Some vehicleClass) = specDuration distance vehicleClass.
Proof.
  intros H. cbv beta iota zeta delta [calculateEstimatedDuration specDuration from_option id].
  rewrite (get_averageSpeeds_not_inherited _ H). reflexivity.
Qed.

Lemma calculateEstimatedDuration_default distance :
  calculateEstimatedDuration distance None = specDuration distance "car".
Proof. reflexivity. Qed.

(** C8, at the class ["constructor"].  The specification gives an unknown
    class the speed of a car, 24 minutes for 10 km.  [averageSpeeds] inherits
    a property of that name, a function, which is truthy: the car's speed is
    not substituted, the division is by a value that is not a number, and
    the duration is [NaN]. *)
Theorem calculateEstimatedDuration_inherited_class :
  specSpeed "constructor" = 30%float /\
  specDuration 10 "constructor" = 24%float /\
  get averageSpeeds "constructor" = Function "constructor" /\
  PrimFloat.is_nan (calculateEstimatedDuration 10 (Some "constructor")) = true.
Proof. repeat split. Qed.

(** ** Distance *)

Example round_1005_metres : parseFloat (toFixed2 (1005 / 1000)) = 1%float.
Proof. reflexivity. Qed.

Example round_8675_metres : parseFloat (toFixed2 (8675 / 1000)) = 0x1.15c28f5c28f5cp+3%float.
Proof. reflexivity. Qed.

Example round_343567_metres : toFixed2 (343567 / 1000) = FixedDigits false 34357.
Proof. reflexivity. Qed.

Example round_4_metres : parseFloat (toFixed2 (4 / 1000)) = 0%float.
Proof. reflexivity. Qed.

(** *** Two decimal places *)

Lemma Qabs_opp' q : Qabs (- q) = Qabs q.
Proof. destruct q as [n d]. unfold Qabs, Qopp. cbn. by rewrite Z.abs_opp. Qed.

Lemma hundredths_spec x : hundredths x = specHundredths (valueOf x).
Proof.
  unfold hundredths, specHundredths, valueOf.
  destruct (Prim2SF x) as [s|s| |s m e]; try reflexivity.
  assert (forall q : Q, Qabs (if s then (- q)%Q else q) = Qabs q) as ->.
  { intros q. destruct s; [apply Qabs_opp'|done]. }
  destruct (Z.leb_spec 0 e) as [He|He].
  - unfold Qfloor, Qplus, Qmult, Qabs, inject_Z. cbn [Qnum Qden].
    assert (0 <= Z.pos m * 2 ^ e) by (apply Z.mul_nonneg_nonneg; [lia|by apply Z.pow_nonneg]).
    rewrite Z.abs_eq by done.
    change (Z.pos (1 * 1 * 2)) with 2.
    apply (Z.div_unique _ 2 _ 1); lia.
  - unfold Qfloor, Qplus, Qmult, Qabs. cbn [Qnum Qden].
    assert (0 < 2 ^ (- e)) as Hp by (apply Z.pow_pos_nonneg; lia).
    rewrite !Pos.mul_1_r, Pos2Z.inj_mul, Z2Pos.id by done.
    change (Z.abs (Z.pos m)) with (Z.pos m).
    replace (2 ^ (1 - e)) with (2 ^ (- e) * 2).
    2:{ replace (1 - e) with (Z.succ (- e)) by lia. rewrite Z.pow_succ_r by lia. lia. }
    f_equal. lia.
Qed.

Lemma digits2_pos_size m : digits2_pos m = Pos.size m.
Proof. induction m as [m IH|m IH|]; cbn; by rewrite ?IH. Qed.

(** The mantissa of a double has at most 53 binary digits. *)
Lemma mantissa_bound x s m e : Prim2SF x = S754_finite s m e -> Z.pos m < 2 ^ 53.
Proof.
  intros Hx. pose proof (Prim2SF_valid x) as Hv. rewrite Hx in Hv.
  unfold valid_binary, bounded, canonical_mantissa in Hv.
  apply andb_true_iff in Hv as [Hc _]. apply Z.eqb_eq in Hc.
  rewrite digits2_pos_size in Hc. unfold fexp in Hc.
  assert (Z.pos (Pos.size m) <= 53) as Hd by (unfold prec in Hc; lia).
  pose proof (Pos.size_gt m) as Hgt.
  apply Z.lt_le_trans with (Z.pos (2 ^ Pos.size m)); [lia|].
  rewrite Pos2Z.inj_pow. apply Z.pow_le_mono_r; lia.
Qed.

Lemma below_two46 x s m e :
  Prim2SF x = S754_finite s m e ->
  (PrimFloat.abs x <? two46)%float = true ->
  e < 0 /\ Z.pos m < 2 ^ 46 * 2 ^ (- e).
Proof.
  intros Hx Hlt. pose proof (mantissa_bound x s m e Hx) as Hm.
  rewrite FloatAxioms.ltb_spec, FloatAxioms.abs_spec, Hx in Hlt.
  change (Prim2SF two46) with (S754_finite false 4503599627370496 (-6)) in Hlt.
  unfold SFltb, SFabs, SFcompare in Hlt.
  destruct (Z.compare_spec e (-6)) as [->|He|He]; [| |done].
  - split; [lia|].
    by destruct (PosDef.Pos.compare_cont Eq m 4503599627370496) eqn:E.
  - split; [lia|].
    assert (2 ^ 7 <= 2 ^ (- e)) by (apply Z.pow_le_mono_r; lia).
    change (2 ^ 53) with (2 ^ 46 * 2 ^ 7) in Hm. nia.
Qed.

Lemma hundredths_bound x :
  (PrimFloat.abs x <? two46)%float = true -> 0 <= hundredths x <= 100 * 2 ^ 46.
Proof.
  intros Hlt. unfold hundredths.
  destruct (Prim2SF x) as [s|s| |s m e] eqn:Hx; try (cbn; lia).
  destruct (below_two46 x s m e Hx Hlt) as [He Hm].
  destruct (Z.leb_spec 0 e); [lia|].
  assert (0 < 2 ^ (- e)) as Hp by (apply Z.pow_pos_nonneg; lia).
  replace (2 ^ (1 - e)) with (2 * 2 ^ (- e)).
  2:{ replace (1 - e) with (Z.succ (- e)) by lia. rewrite Z.pow_succ_r by lia. lia. }
  split.
  - apply Z.div_pos; lia.
  - apply Z.lt_succ_r. apply Z.div_lt_upper_bound; [lia|]. nia.
Qed.

Lemma below_two46_is_number x :
  (PrimFloat.abs x <? two46)%float = true -> PrimFloat.is_nan x = false.
Proof.
  intros Hlt. unfold PrimFloat.is_nan. apply negb_false_iff.
  rewrite FloatAxioms.eqb_spec.
  rewrite FloatAxioms.ltb_spec, FloatAxioms.abs_spec in Hlt.
  destruct (Prim2SF x) as [[]|[]| |[] m e]; try reflexivity; try discriminate.
  all: unfold SFeqb, SFcompare; rewrite Z.compare_refl.
  all: change (PosDef.Pos.compare_cont Eq m m) with (m ?= m)%positive.
  all: by rewrite Pos.compare_refl.
Qed.

(** Below 2^46 in magnitude, the digits of [toFixed(2)] are the number of
    hundredths that the specification's rounding of the exact value gives,
    with the sign of the number. *)
Lemma toFixed2_rounds x :
  (PrimFloat.abs x <? two46)%float = true ->
  toFixed2 x = FixedDigits (x <? 0)%float (specHundredths (valueOf x)) /\
  0 <= specHundredths (valueOf x) <= 100 * 2 ^ 46.
Proof.
  intros Hlt. pose proof (below_two46_is_number x Hlt) as Hnan.
  rewrite <- hundredths_spec. split; [|by apply hundredths_bound].
  unfold toFixed2. rewrite Hnan.
  destruct (two46 <=? PrimFloat.abs x)%float eqn:Hle; [|reflexivity].
  rewrite FloatAxioms.leb_spec in Hle. rewrite FloatAxioms.ltb_spec in Hlt.
  revert Hle Hlt. generalize (Prim2SF two46) (Prim2SF (PrimFloat.abs x)).
  unfold SFleb, SFltb, SFcompare.
  intros [[]|[]| |[] c k] [[]|[]| |[] m e]; try discriminate.
  all: change (PosDef.Pos.compare_cont Eq c m) with (c ?= m)%positive;
    change (PosDef.Pos.compare_cont Eq m c) with (m ?= c)%positive;
    destruct (Z.compare_spec e k), (Z.compare_spec k e); try lia; try discriminate;
    cbn [CompOpp];
    destruct (Pos.compare_spec m c), (Pos.compare_spec c m); try lia; discriminate.
Qed.

Section Geolib.

Variable getDistance : Value -> Value -> Result Value.

Lemma calculateDistance_of_metres point1 point2 metres :
  getDistance point1 point2 = Ok metres ->
  calculateDistance getDistance point1 point2
  = Ok (parseFloat (toFixed2 (toNumber metres / 1000))).
Proof. unfold calculateDistance. intros ->. reflexivity. Qed.

Lemma calculateDistance_of_error point1 point2 e :
  getDistance point1 point2 = Throw e ->
  calculateDistance getDistance point1 point2 = Ok 0%float.
Proof. unfold calculateDistance. intros ->. reflexivity. Qed.

(** C10.  [calculateDistance] returns on every input and for every
    behaviour of the library: 0 when the library throws, which is also
    the result for two points that the library finds 0 m apart, and
    otherwise the library's result divided by 1000 and rounded to two
    decimals.  For a quotient below 2^46 in magnitude, as every distance
    on Earth is, the result is the double nearest to [n / 100], where [n]
    is the number of hundredths nearest to the exact value of the quotient,
    the larger on a tie. *)
Theorem calculateDistance_total point1 point2 :
  (exists km, calculateDistance getDistance point1 point2 = Ok km) /\
  (forall e, getDistance point1 point2 = Throw e ->
             calculateDistance getDistance point1 point2 = Ok 0%float) /\
  (forall e point3 point4,
      getDistance point1 point2 = Throw e -> getDistance point3 point4 = Ok (Number 0) ->
      calculateDistance getDistance point1 point2 = calculateDistance getDistance point3 point4) /\
  (forall metres, getDistance point1 point2 = Ok metres ->
                  calculateDistance getDistance point1 point2
                  = Ok (parseFloat (toFixed2 (toNumber metres / 1000)))) /\
  (forall metres,
      getDistance point1 point2 = Ok metres ->
      let quotient := (toNumber metres / 1000)%float in
      let n := specHundredths (valueOf quotient) in
      (PrimFloat.abs quotient <? two46)%float = true ->
      0 <= n <= 100 * 2 ^ 46 /\
      calculateDistance getDistance point1 point2
      = Ok (let nearest := (PrimFloat.of_uint63 (Uint63.of_Z n) / 100)%float in
            if (quotient <? 0)%float then (- nearest)%float else nearest)).
Proof.
  split; [|split; [|split; [|split]]].
  - destruct (getDistance point1 point2) as [metres|e] eqn:E.
    + eexists. by apply calculateDistance_of_metres.
    + eexists. by eapply calculateDistance_of_error.
  - intros e. apply calculateDistance_of_error.
  - intros e p3 p4 E1 E2.
    rewrite (calculateDistance_of_error _ _ _ E1), (calculateDistance_of_metres _ _ _ E2).
    reflexivity.
  - intros metres. apply calculateDistance_of_metres.
  - intros metres E quotient n Hlt. subst n.
    destruct (toFixed2_rounds quotient Hlt) as [Hfixed Hbound].
    split; [exact Hbound|].
    rewrite (calculateDistance_of_metres _ _ _ E). fold quotient. rewrite Hfixed.
    reflexivity.
Qed.

End Geolib.

(** A library that rejects every input, as on malformed coordinate objects. *)
Definition rejectingDistance (a b : Value) : Result Value :=
  Throw (TypeError "Cannot read properties of undefined").

Example calculateDistance_malformed :
  calculateDistance rejectingDistance Undefined (Object []) = Ok 0%float.
Proof. reflexivity. Qed.

Example calculateDistance_not_a_number :
  calculateDistance (fun _ _ => Ok Undefined) Undefined (Object [])
  = Ok PrimFloat.nan.
Proof. reflexivity. Qed.

Definition paris : Value := point 0x1.86da1a9fbe76dp+5 0x1.2d14e3bcd35a8p+1.
Definition lyon : Value := point 0x1.6e1b089a02752p+5 0x1.356d5cfaacd9fp+2.

(** A library that finds every two points 8675 m apart: 8.675 is not a
    double, the quotient lies just above it, and 868 hundredths are the
    nearest. *)
Definition fixedDistance (a b : Value) : Result Value := Ok (Number 8675).

Lemma calculateDistance_total_witness :
  specHundredths (valueOf (8675 / 1000)%float) = 868 /\
  calculateDistance fixedDistance paris lyon = Ok 0x1.15c28f5c28f5cp+3%float /\
  calculateDistance rejectingDistance paris lyon = Ok 0%float.
Proof.
  destruct (calculateDistance_total fixedDistance paris lyon) as (_ & _ & _ & _ & Hround).
  destruct (calculateDistance_total rejectingDistance paris lyon) as (_ & Hthrow & _).
  destruct (Hround (Number 8675) eq_refl eq_refl) as [_ Hkm].
  split; [reflexivity|]. split; [exact Hkm|]. by eapply Hthrow.
Defined.

End GeoUtilsFacts.

(* ===================================================================== *)
(** * Properties of the great-circle distance *)
(* ===================================================================== *)

Module GreatCircleFacts.
Import Reals Qreals.
Import Js GeoUtils GreatCircle.

Lemma haversine_symmetric radius latitude1 longitude1 latitude2 longitude2 :
  haversine radius latitude1 longitude1 latitude2 longitude2
  = haversine radius latitude2 longitude2 latitude1 longitude1.
Proof.
  assert (forall x y : R, (sin ((x - y) / 2))² = (sin ((y - x) / 2))²)%R as Hsin.
  { intros x y. replace ((x - y) / 2)%R with (- ((y - x) / 2))%R by lra.
    rewrite sin_neg. symmetry. apply Rsqr_neg. }
  unfold haversine.
  rewrite (Hsin latitude2 latitude1), (Hsin longitude2 longitude1).
  by rewrite (Rmult_comm (cos latitude1) (cos latitude2)).
Qed.

Lemma haversine_diagonal radius latitude longitude :
  haversine radius latitude longitude latitude longitude = 0%R.
Proof.
  unfold haversine.
  replace ((latitude - latitude) / 2)%R with 0%R by lra.
  replace ((longitude - longitude) / 2)%R with 0%R by lra.
  rewrite sin_0, Rsqr_0, Rmult_0_r, Rplus_0_r, sqrt_0, asin_0. lra.
Qed.

Lemma nearestInteger_0 : nearestInteger 0 = 0%Z.
Proof.
  unfold nearestInteger, Int_part.
  rewrite <- (tech_up (0 + / 2) 1); [reflexivity| |]; cbn; lra.
Qed.

(** The distance of the specification is symmetric, and 0 m from a point
    to itself. *)
Lemma getDistance_symmetric radius a b : getDistance radius a b = getDistance radius b a.
Proof. unfold getDistance. by rewrite haversine_symmetric. Qed.

Lemma getDistance_diagonal radius a : getDistance radius a a = Ok (Number 0).
Proof. unfold getDistance. by rewrite haversine_diagonal, nearestInteger_0. Qed.

(** C9.  With the distance of the specification in the place of the
    library, [calculateDistance] is symmetric on valid coordinates and is 0
    from a point to itself, on a sphere of any radius. *)
Theorem calculateDistance_symmetric radius a b :
  validPoint a -> validPoint b ->
  calculateDistance (getDistance radius) a b = calculateDistance (getDistance radius) b a /\
  calculateDistance (getDistance radius) a a = Ok 0%float.
Proof.
  intros _ _. split.
  - unfold calculateDistance. by rewrite (getDistance_symmetric radius a b).
  - unfold calculateDistance. rewrite getDistance_diagonal. reflexivity.
Qed.

Lemma calculateDistance_symmetric_witness :
  calculateDistance (getDistance 6378137) GeoUtilsFacts.paris GeoUtilsFacts.lyon
  = calculateDistance (getDistance 6378137) GeoUtilsFacts.lyon GeoUtilsFacts.paris /\
  calculateDistance (getDistance 6378137) GeoUtilsFacts.paris GeoUtilsFacts.paris = Ok 0%float.
Proof.
  apply (calculateDistance_symmetric 6378137 GeoUtilsFacts.paris GeoUtilsFacts.lyon);
    reflexivity.
Defined.

End GreatCircleFacts.

(* ===================================================================== *)
(** * Properties of services/orderAssignmentService.js *)
(* ===================================================================== *)

Module OrderAssignmentFacts.
Import Js Eff OrderModel OrderAssignmentService.

(** ** Sequencing *)

Lemma bind_Ok {S A B} (m : M S A) (k : A -> M S B) s a s' :
  m s = (Ok a, s') -> bind m k s = k a s'.
Proof. unfold bind. by intros ->. Qed.

Lemma bind_Throw {S A B} (m : M S A) (k : A -> M S B) s e s' :
  m s = (Throw e, s') -> bind m k s = (Throw e, s').
Proof. unfold bind. by intros ->. Qed.

Lemma tryCatch_bind_Ok {S A B} (m : M S A) (k : A -> M S B) h s a s' :
  m s = (Ok a, s') -> tryCatch (bind m k) h s = tryCatch (k a) h s'.
Proof. unfold tryCatch. intros H. by rewrite (bind_Ok _ _ _ _ _ H). Qed.

(** [catch (error) { throw error; }] changes nothing. *)
Lemma tryCatch_rethrow {S A} (m : M S A) s : tryCatch m (fun error => throw error) s = m s.
Proof. unfold tryCatch, throw. by destruct (m s) as [[a|e] s']. Qed.

(** ** Keys, validators, attempt records *)

Lemma driver_key_not_order_key a b : "driver_lock:" +:+ a <> "order_lock:" +:+ b.
Proof. discriminate. Qed.

Lemma marker_not_driver_key a b : "order_assignment:" +:+ a <> "driver_lock:" +:+ b.
Proof. discriminate. Qed.

Lemma marker_not_order_key a b : "order_assignment:" +:+ a <> "order_lock:" +:+ b.
Proof. discriminate. Qed.

Lemma validate_None o :
  validate o = None <->
  oneOf statusEnum (status o) = true /\
  oneOf paymentStatusEnum (paymentStatus o) = true /\
  forallb (fun a => oneOf responseEnum (response a)) (assignmentAttempts o) = true.
Proof.
  unfold validate.
  destruct (oneOf statusEnum (status o)), (oneOf paymentStatusEnum (paymentStatus o)),
    (forallb _ (assignmentAttempts o)); cbn; intuition congruence.
Qed.

Lemma responses_valid_alter answer t i l :
  oneOf responseEnum answer = true ->
  forallb (fun a => oneOf responseEnum (response a)) l = true ->
  forallb (fun a => oneOf responseEnum (response a)) (alter (respond answer t) i l) = true.
Proof.
  intros Ha. revert i. induction l as [|a l IH]; intros [|i] E; cbn in *; try done.
  - apply andb_true_iff in E as [_ ->]. by rewrite Ha.
  - apply andb_true_iff in E as [-> E]. cbn. auto.
Qed.

(** The status [failed] is not among the values that the schema admits. *)
Lemma failed_not_in_statusEnum : oneOf statusEnum "failed" = false.
Proof. reflexivity. Qed.

Lemma findIndex_Some {A} (p : A -> bool) l i :
  findIndex p l = Some i ->
  exists a, l !! i = Some a /\ p a = true /\
            forall j b, (j < i)%nat -> l !! j = Some b -> p b = false.
Proof.
  revert i. induction l as [|x l IH]; intros i; cbn; [done|].
  destruct (p x) eqn:Hx.
  - intros [= <-]. exists x. split; [done|]. split; [done|]. intros j b Hj. lia.
  - destruct (findIndex p l) as [k|] eqn:Hk; cbn; [|done].
    intros [= <-]. destruct (IH k eq_refl) as (a & Ha & Hpa & Hbefore).
    exists a. split; [done|]. split; [done|].
    intros [|j] b Hj; cbn; [by intros [= <-]|]. apply Hbefore. lia.
Qed.

Lemma findIndex_None {A} (p : A -> bool) l :
  findIndex p l = None <-> forallb (fun a => negb (p a)) l = true.
Proof.
  induction l as [|x l IH]; cbn; [done|].
  destruct (p x); cbn; [done|].
  destruct (findIndex p l); cbn; rewrite <- IH; done.
Qed.

(** The attempt history after the response of [driverId] has been recorded:
    the first pending attempt of that driver gets the answer and the
    instant; without one the history is left as it is. *)
Definition answered (driverId answer : string) (t : Z) (o : Order) : Order :=
  match findIndex (pendingFor driverId) (assignmentAttempts o) with
  | Some attemptIndex =>
      setAssignmentAttempts
        (alter (respond answer t) attemptIndex (assignmentAttempts o)) o
  | None => o
  end.

Definition acceptedOrder (driverId : string) (t : Z) (o : Order) : Order :=
  releaseLock (updateStatus "accepted" (Some driverId) t (answered driverId "accepted" t o)).

Definition declinedOrder (driverId : string) (t : Z) (o : Order) : Order :=
  releaseLock (answered driverId "declined" t o).

Lemma answered_valid driverId answer t o :
  oneOf responseEnum answer = true ->
  forallb (fun a => oneOf responseEnum (response a)) (assignmentAttempts o) = true ->
  forallb (fun a => oneOf responseEnum (response a))
          (assignmentAttempts (answered driverId answer t o)) = true.
Proof.
  intros Ha Hl. unfold answered.
  destruct (findIndex _ _); cbn; [by apply responses_valid_alter|done].
Qed.

Lemma validate_acceptedOrder driverId t o :
  validate o = None -> validate (acceptedOrder driverId t o) = None.
Proof.
  rewrite !validate_None. intros (_ & Hp & Ha).
  pose proof (answered_valid driverId "accepted" t o eq_refl Ha) as Hv.
  unfold acceptedOrder, answered in *.
  destruct (findIndex _ _); cbn in *; auto.
Qed.

Lemma validate_declinedOrder driverId t o :
  validate o = None -> validate (declinedOrder driverId t o) = None.
Proof.
  rewrite !validate_None. intros (Hs & Hp & Ha).
  pose proof (answered_valid driverId "declined" t o eq_refl Ha) as Hv.
  unfold declinedOrder, answered in *.
  destruct (findIndex _ _); cbn in *; auto.
Qed.

Lemma answered_keeps driverId answer t o :
  orderId (answered driverId answer t o) = orderId o /\
  customer (answered driverId answer t o) = customer o /\
  status (answered driverId answer t o) = status o.
Proof. unfold answered. destruct (findIndex _ _); done. Qed.

Lemma acceptedOrder_keeps driverId t o :
  orderId (acceptedOrder driverId t o) = orderId o /\
  customer (acceptedOrder driverId t o) = customer o.
Proof. unfold acceptedOrder. cbn. destruct (answered_keeps driverId "accepted" t o) as (? & ? & ?). done. Qed.

Lemma declinedOrder_keeps driverId t o :
  orderId (declinedOrder driverId t o) = orderId o /\
  customer (declinedOrder driverId t o) = customer o /\
  status (declinedOrder driverId t o) = status o.
Proof. unfold declinedOrder. cbn. apply answered_keeps. Qed.

(** ** [markOrderAsFailed] *)

(** The save of [markOrderAsFailed] is rejected by the validator of
    [status]; the method swallows the error.  Nothing is stored and nothing
    is emitted. *)
Lemma markOrderAsFailed_changes_nothing orderId reason w :
  markOrderAsFailed orderId reason w = (Ok tt, w).
Proof.
  unfold markOrderAsFailed, tryCatch, bind, Order_findOne, User_findById, gets, withDoc, lift,
    save, modifyDoc, getDoc, clock, emit, modify, ret.
  destruct (orders w !! orderId) as [o|]; [|reflexivity].
  cbn. destruct w; reflexivity.
Qed.

(** ** [handleDriverResponse] under consistent lock keys *)

Ltac run := cbn -[lookup insert delete String.append validate acceptedOrder declinedOrder].

(** The document that [populate('customer')] finds for the order. *)
Definition customerOf (w : World) (o : Order) : option User :=
  List.find (fun u => String.eqb (userId u) (customer o)) (users w).

Lemma customerOf_id w o c : customerOf w o = Some c -> userId c = customer o.
Proof.
  unfold customerOf. intros H. apply find_some in H as [_ H]. by apply String.eqb_eq.
Qed.

(** What an accept returns and emits: with the customer's document, the
    reply and the two events; without it, the error of [order.customer._id]
    and no event. *)
Definition acceptOutcome (w : World) (orderId driverId : string) (o : Order)
  : Result Reply * list Emit :=
  match customerOf w o with
  | Some c =>
      (Ok (mkReply true None (Some "Order accepted successfully") None None (Some orderId)),
       mkEmit ("driver:" +:+ driverId) "order_assignment_confirmed" (OrderModel.orderId o)
       :: mkEmit ("customer:" +:+ customer o) "order_accepted" (OrderModel.orderId o)
       :: emitted w)
  | None => (Throw NoCustomerId, emitted w)
  end.

Lemma accept_run w orderId driverId o :
  orders w !! orderId = Some o ->
  validate o = None ->
  storeReachable w ->
  lockKeysConsistent w orderId driverId ->
  handleDriverResponse orderId driverId "accept" w =
    (fst (acceptOutcome w orderId driverId o),
     mkWorld (<[OrderModel.orderId o := acceptedOrder driverId (now w) o]> (orders w))
             (map (fun u => if String.eqb (userId u) driverId then setIsAvailable false u else u)
                  (users w))
             (delete ("order_lock:" +:+ orderId) (delete ("driver_lock:" +:+ driverId) (redis w)))
             (snd (acceptOutcome w orderId driverId o))
             (timers w) (now w) (faults w) (4 + ops w)).
Proof.
  intros Ho Hv Hr [Hd Hk].
  unfold handleDriverResponse, tryCatch, bind, Order_findOne, User_findById, gets, withDoc, lift,
    redis_get, redis_del, redisCommand, save, modifyDoc, getDoc, clock, emit,
    User_findByIdAndUpdate, modify, ret, throw.
  run. rewrite Ho. run.
  rewrite Hr, Hd. run. rewrite Hr, Hk. run.
  rewrite !String.eqb_refl. run.
  change (releaseLock _) with (acceptedOrder driverId (now w) o).
  rewrite validate_acceptedOrder by done. run.
  rewrite !Hr. run. rewrite !Hr. run.
  destruct (acceptedOrder_keeps driverId (now w) o) as [-> _].
  destruct (answered_keeps driverId "accepted" (now w) o) as (Hid & _ & _).
  unfold answered in Hid. rewrite Hid.
  unfold acceptOutcome.
  change (find (fun u => String.eqb (userId u) (customer o)) (users w)) with (customerOf w o).
  destruct (customerOf w o) as [c|] eqn:Hc; run; [|reflexivity].
  rewrite (customerOf_id w o c Hc). reflexivity.
Qed.

Lemma decline_run w orderId driverId response o :
  orders w !! orderId = Some o ->
  validate o = None ->
  storeReachable w ->
  lockKeysConsistent w orderId driverId ->
  String.eqb response "accept" = false ->
  handleDriverResponse orderId driverId response w =
    (Ok (mkReply true None (Some "Order declined, trying next driver") None None None),
     mkWorld (<[OrderModel.orderId o := declinedOrder driverId (now w) o]> (orders w))
             (users w)
             (delete ("order_lock:" +:+ orderId) (delete ("driver_lock:" +:+ driverId) (redis w)))
             (emitted w)
             (if (resolvedAttempts (declinedOrder driverId (now w) o) <? 10)%nat
              then mkTimer 2000 (RetryAssignment orderId) :: timers w
              else timers w)
             (now w) (faults w) (4 + ops w)).
Proof.
  intros Ho Hv Hr [Hd Hk] Hresp.
  unfold handleDriverResponse, tryCatch, bind, Order_findOne, gets, withDoc, lift,
    redis_get, redis_del, redisCommand, save, modifyDoc, getDoc, clock, setTimeout,
    User_findById, modify, ret, throw.
  run. rewrite Ho. run.
  rewrite Hr, Hd. run. rewrite Hr, Hk. run.
  rewrite !String.eqb_refl, Hresp. run.
  change (releaseLock _) with (declinedOrder driverId (now w) o).
  rewrite validate_declinedOrder by done. run.
  rewrite !Hr. run. rewrite !Hr. run.
  destruct (answered_keeps driverId "declined" (now w) o) as (Hid & _ & _).
  unfold answered in Hid. rewrite Hid.
  unfold resolvedAttempts.
  match goal with |- context [(?n <=? 9)%nat] => destruct (n <=? 9)%nat end; run; [reflexivity|].
  rewrite markOrderAsFailed_changes_nothing. reflexivity.
Qed.


(** C1.  An accept under consistent lock keys, for an order that holds a
    pending attempt of the driver: the stored order is accepted and assigned
    to the driver, the attempt carries the answer and the instant, the lock
    fields are cleared; the driver is no longer available; both lock keys
    are gone.  With a User document for the order's customer the call then
    emits its two events and returns success; without one it throws on
    [order.customer._id], after all of the above and before any event. *)
Theorem accept_assigns_order w orderId driverId o attemptIndex :
  orders w !! orderId = Some o ->
  OrderModel.orderId o = orderId ->
  validate o = None ->
  storeReachable w ->
  lockKeysConsistent w orderId driverId ->
  findIndex (pendingFor driverId) (assignmentAttempts o) = Some attemptIndex ->
  let w' := snd (handleDriverResponse orderId driverId "accept" w) in
  (exists o' attempt,
      orders w' !! orderId = Some o' /\
      status o' = "accepted" /\
      driver o' = Some driverId /\
      assignmentAttempts o'
        = alter (respond "accepted" (now w)) attemptIndex (assignmentAttempts o) /\
      assignmentAttempts o' !! attemptIndex = Some attempt /\
      OrderModel.driverId attempt = driverId /\
      response attempt = "accepted" /\
      respondedAt attempt = Some (now w) /\
      isLocked o' = false /\ lockedBy o' = None /\ lockExpiration o' = None) /\
  users w'
    = map (fun u => if String.eqb (userId u) driverId then setIsAvailable false u else u)
          (users w) /\
  (forall u, u ∈ users w' -> userId u = driverId -> isAvailable u = false) /\
  redis w' !! ("driver_lock:" +:+ driverId) = None /\
  redis w' !! ("order_lock:" +:+ orderId) = None /\
  (forall customerDoc,
      customerOf w o = Some customerDoc ->
      fst (handleDriverResponse orderId driverId "accept" w)
      = Ok (mkReply true None (Some "Order accepted successfully") None None (Some orderId)) /\
      emitted w'
      = mkEmit ("driver:" +:+ driverId) "order_assignment_confirmed" orderId
        :: mkEmit ("customer:" +:+ customer o) "order_accepted" orderId
        :: emitted w) /\
  (customerOf w o = None ->
   fst (handleDriverResponse orderId driverId "accept" w) = Throw NoCustomerId /\
   emitted w' = emitted w).
Proof.
  intros Ho Hid Hv Hr Hk Hi w'. subst w'.
  rewrite (accept_run w orderId driverId o Ho Hv Hr Hk).
  cbn [fst snd orders users redis emitted].
  destruct (findIndex_Some _ _ _ Hi) as (a & Ha & Hpa & _).
  apply andb_true_iff in Hpa as [Hda _]. apply String.eqb_eq in Hda.
  split; [|split; [done|split; [|split; [|split; [|split]]]]].
  - exists (acceptedOrder driverId (now w) o), (respond "accepted" (now w) a).
    rewrite Hid, lookup_insert_eq.
    unfold acceptedOrder, answered. rewrite Hi. cbn.
    rewrite list_lookup_alter_eq, Ha. cbn. done.
  - intros u Hu Hd. apply list_elem_of_fmap in Hu as (u0 & -> & _).
    destruct (String.eqb (userId u0) driverId) eqn:E; [done|].
    apply String.eqb_neq in E. done.
  - rewrite lookup_delete_ne by (symmetry; apply driver_key_not_order_key).
    apply lookup_delete_eq.
  - apply lookup_delete_eq.
  - intros c Hc. unfold acceptOutcome. rewrite Hc, Hid. done.
  - intros Hc. unfold acceptOutcome. rewrite Hc. done.
Qed.

(** C6, as amended.  A response under consistent lock keys is processed in
    the same way whether or not the order holds a pending attempt of the
    driver: the order is stored with its lock fields cleared, accepted by
    the driver on an accept and with the status and the driver it had
    otherwise, and both lock keys are deleted.  Without a pending attempt
    the stored history is the old one; with one, its first such record
    carries the answer and the instant.  No error is raised for want of a
    record: a decline returns, and so does an accept when the customer has a
    User document. *)
Theorem response_records_pending_attempt w orderId driverId response o :
  orders w !! orderId = Some o ->
  OrderModel.orderId o = orderId ->
  validate o = None ->
  storeReachable w ->
  lockKeysConsistent w orderId driverId ->
  let accept := String.eqb response "accept" in
  let answer := if accept then "accepted" else "declined" in
  let w' := snd (handleDriverResponse orderId driverId response w) in
  (exists o',
      orders w' !! orderId = Some o' /\
      status o' = (if accept then "accepted" else status o) /\
      driver o' = (if accept then Some driverId else driver o) /\
      isLocked o' = false /\ lockedBy o' = None /\ lockExpiration o' = None /\
      match findIndex (pendingFor driverId) (assignmentAttempts o) with
      | None => assignmentAttempts o' = assignmentAttempts o
      | Some attemptIndex =>
          assignmentAttempts o'
            = alter (respond answer (now w)) attemptIndex (assignmentAttempts o) /\
          exists attempt,
            assignmentAttempts o' !! attemptIndex = Some attempt /\
            OrderModel.driverId attempt = driverId /\
            OrderModel.response attempt = answer /\
            respondedAt attempt = Some (now w)
      end) /\
  redis w' !! ("driver_lock:" +:+ driverId) = None /\
  redis w' !! ("order_lock:" +:+ orderId) = None /\
  (accept = false ->
   fst (handleDriverResponse orderId driverId response w)
   = Ok (mkReply true None (Some "Order declined, trying next driver") None None None)) /\
  (accept = true ->
   forall customerDoc,
     customerOf w o = Some customerDoc ->
     fst (handleDriverResponse orderId driverId response w)
     = Ok (mkReply true None (Some "Order accepted successfully") None None (Some orderId))) /\
  (accept = true ->
   customerOf w o = None ->
   fst (handleDriverResponse orderId driverId response w) = Throw NoCustomerId).
Proof.
  intros Ho Hid Hv Hr Hk accept answer w'. subst accept answer w'.
  assert (forall ans i,
             findIndex (pendingFor driverId) (assignmentAttempts o) = Some i ->
             exists attempt,
               alter (respond ans (now w)) i (assignmentAttempts o) !! i = Some attempt /\
               OrderModel.driverId attempt = driverId /\
               OrderModel.response attempt = ans /\
               respondedAt attempt = Some (now w)) as Hrec.
  { intros ans i Hi. destruct (findIndex_Some _ _ _ Hi) as (a & Ha & Hpa & _).
    apply andb_true_iff in Hpa as [Hda _]. apply String.eqb_eq in Hda.
    exists (respond ans (now w) a). rewrite list_lookup_alter_eq, Ha. done. }
  assert (forall m : gmap string string,
             delete ("order_lock:" +:+ orderId) (delete ("driver_lock:" +:+ driverId) m)
             !! ("driver_lock:" +:+ driverId) = None) as Hgone.
  { intros m. rewrite lookup_delete_ne by (symmetry; apply driver_key_not_order_key).
    apply lookup_delete_eq. }
  destruct (String.eqb response "accept") eqn:E.
  - apply String.eqb_eq in E. subst response.
    rewrite (accept_run w orderId driverId o Ho Hv Hr Hk). cbn [fst snd orders redis].
    split; [|split; [apply Hgone|split; [apply lookup_delete_eq|]]].
    + exists (acceptedOrder driverId (now w) o).
      rewrite Hid, lookup_insert_eq. split; [done|].
      unfold acceptedOrder, answered.
      destruct (findIndex _ _) as [i|] eqn:Hi; cbn; repeat (split; [done|]); [|done].
      by apply Hrec.
    + split; [done|]. unfold acceptOutcome.
      split; [intros _ c Hc; by rewrite Hc|intros _ Hc; by rewrite Hc].
  - rewrite (decline_run w orderId driverId response o Ho Hv Hr Hk E). cbn [fst snd orders redis].
    split; [|split; [apply Hgone|split; [apply lookup_delete_eq|]]].
    + exists (declinedOrder driverId (now w) o).
      rewrite Hid, lookup_insert_eq. split; [done|].
      unfold declinedOrder, answered.
      destruct (findIndex _ _) as [i|] eqn:Hi; cbn; repeat (split; [done|]); [|done].
      by apply Hrec.
    + done.
Qed.

(** X21.  The decline branch: below ten resolved attempts a retry of the
    assignment is set for 2 s later; from ten on nothing is scheduled, and
    the stored status is the one the order had. *)
Lemma decline_retries_below_limit w orderId driverId o :
  orders w !! orderId = Some o ->
  OrderModel.orderId o = orderId ->
  validate o = None ->
  storeReachable w ->
  lockKeysConsistent w orderId driverId ->
  let w' := snd (handleDriverResponse orderId driverId "decline" w) in
  let o' := declinedOrder driverId (now w) o in
  orders w' !! orderId = Some o' /\
  isLocked o' = false /\ lockedBy o' = None /\ lockExpiration o' = None /\
  status o' = status o /\
  redis w' !! ("driver_lock:" +:+ driverId) = None /\
  redis w' !! ("order_lock:" +:+ orderId) = None /\
  emitted w' = emitted w /\
  timers w' = if (resolvedAttempts o' <? 10)%nat
              then mkTimer 2000 (RetryAssignment orderId) :: timers w
              else timers w.
Proof.
  intros Ho Hid Hv Hr Hk w' o'. subst w' o'.
  rewrite (decline_run w orderId driverId "decline" o Ho Hv Hr Hk eq_refl).
  cbn [fst snd orders redis emitted timers].
  rewrite Hid, lookup_insert_eq.
  destruct (declinedOrder_keeps driverId (now w) o) as (_ & _ & Hs).
  repeat (split; [done|]).
  split; [|split; [|done]].
  - rewrite lookup_delete_ne by (symmetry; apply driver_key_not_order_key).
    apply lookup_delete_eq.
  - apply lookup_delete_eq.
Qed.

(** ** Concrete worlds *)

Definition noTimestamps : Timestamps := mkTimestamps 0 None None None None None.

Definition origin : Value := GeoUtils.point 0 0.

(** The order O1 of customer C1, offered to driver D1 at instant 1000 after
    the attempts of [history]. *)
Definition offeredOrder (history : list Attempt) : Order :=
  mkOrder "O1" "C1" None origin "pending" "pending" noTimestamps
          (history ++ [mkAttempt "D1" 1000 "pending" None])%list
          true (Some "D1") (Some 301000).

Definition offerKeys : gmap string string :=
  <["driver_lock:D1" := "O1"]> (<["order_lock:O1" := "D1"]> ∅).

Definition driverD1 : User := mkUser "D1" "driver" true true (GeoUtils.point 1 0).

Definition offeredWorld (order : Order) (at_ : Z) : World :=
  mkWorld (<["O1" := order]> ∅) [driverD1] offerKeys [] [] at_ (fun _ => false) 0.

Definition declinedBy (driver : string) : Attempt :=
  mkAttempt driver 0 "declined" (Some 0).

Definition nineDeclines : list Attempt :=
  map declinedBy ["D2"; "D3"; "D4"; "D5"; "D6"; "D7"; "D8"; "D9"; "D10"].

(** An order whose lock keys were set but whose attempt record was not
    written. *)
Definition lockedOrderWithoutAttempt : Order :=
  mkOrder "O1" "C1" None origin "pending" "pending" noTimestamps []
          true (Some "D1") (Some 301000).

(** The customer of O1, and the world of [offeredWorld] with the customer's
    User document. *)
Definition customerC1 : User := mkUser "C1" "customer" true false origin.

Definition servedWorld (order : Order) (at_ : Z) : World :=
  setUsers [driverD1; customerC1] (offeredWorld order at_).

Lemma accept_assigns_order_witness :
  fst (handleDriverResponse "O1" "D1" "accept" (servedWorld (offeredOrder []) 2000))
  = Ok (mkReply true None (Some "Order accepted successfully") None None (Some "O1")) /\
  (exists o',
      orders (snd (handleDriverResponse "O1" "D1" "accept" (servedWorld (offeredOrder []) 2000)))
      !! "O1" = Some o' /\
      status o' = "accepted" /\ driver o' = Some "D1" /\
      assignmentAttempts o' = [mkAttempt "D1" 1000 "accepted" (Some 2000)] /\
      isLocked o' = false) /\
  users (snd (handleDriverResponse "O1" "D1" "accept" (servedWorld (offeredOrder []) 2000)))
  = [setIsAvailable false driverD1; customerC1] /\
  redis (snd (handleDriverResponse "O1" "D1" "accept" (servedWorld (offeredOrder []) 2000)))
  !! "driver_lock:D1" = None /\
  redis (snd (handleDriverResponse "O1" "D1" "accept" (servedWorld (offeredOrder []) 2000)))
  !! "order_lock:O1" = None /\
  fst (handleDriverResponse "O1" "D1" "accept" (offeredWorld (offeredOrder []) 2000))
  = Throw NoCustomerId /\
  status <$> orders (snd (handleDriverResponse "O1" "D1" "accept"
                            (offeredWorld (offeredOrder []) 2000))) !! "O1"
  = Some "accepted".
Proof.
  destruct (accept_assigns_order (servedWorld (offeredOrder []) 2000) "O1" "D1"
              (offeredOrder []) 0%nat)
    as ((o' & attempt & Ho' & Hs & Hd & Ha & _ & _ & _ & _ & Hl & _) & Hu & _ & Hdk & Hok & Hret & _);
    [reflexivity|reflexivity|reflexivity|intros n; reflexivity|split; reflexivity|reflexivity|].
  destruct (accept_assigns_order (offeredWorld (offeredOrder []) 2000) "O1" "D1"
              (offeredOrder []) 0%nat)
    as ((o2 & _ & Ho2 & Hs2 & _) & _ & _ & _ & _ & _ & Hthrow);
    [reflexivity|reflexivity|reflexivity|intros n; reflexivity|split; reflexivity|reflexivity|].
  split; [exact (proj1 (Hret customerC1 eq_refl))|].
  split; [exists o'; repeat split; assumption|].
  split; [exact Hu|]. split; [exact Hdk|]. split; [exact Hok|].
  split; [exact (proj1 (Hthrow eq_refl))|].
  rewrite Ho2. cbn. by rewrite Hs2.
Defined.

Lemma response_records_pending_attempt_witness :
  fst (handleDriverResponse "O1" "D1" "decline" (offeredWorld (offeredOrder []) 2000))
  = Ok (mkReply true None (Some "Order declined, trying next driver") None None None) /\
  exists o',
    orders (snd (handleDriverResponse "O1" "D1" "decline" (offeredWorld (offeredOrder []) 2000)))
    !! "O1" = Some o' /\
    status o' = "pending" /\ isLocked o' = false /\
    assignmentAttempts o' = [mkAttempt "D1" 1000 "declined" (Some 2000)].
Proof.
  destruct (response_records_pending_attempt
              (offeredWorld (offeredOrder []) 2000) "O1" "D1" "decline" (offeredOrder []))
    as ((o' & Ho' & Hs & _ & Hl & _ & _ & Ha & _) & _ & _ & Hret & _);
    [reflexivity|reflexivity|reflexivity|intros n; reflexivity|split; reflexivity|].
  split; [exact (Hret eq_refl)|].
  exists o'. repeat split; assumption.
Defined.

(** C6, as stated, fails: the lock keys are consistent, the order holds no
    pending attempt of D1, and the accept of D1 succeeds and is stored. *)
Lemma accept_without_pending_attempt :
  lockKeysConsistent (servedWorld lockedOrderWithoutAttempt 2000) "O1" "D1" /\
  findIndex (pendingFor "D1") (assignmentAttempts lockedOrderWithoutAttempt) = None /\
  fst (handleDriverResponse "O1" "D1" "accept" (servedWorld lockedOrderWithoutAttempt 2000))
    = Ok (mkReply true None (Some "Order accepted successfully") None None (Some "O1")) /\
  status <$> orders (snd (handleDriverResponse "O1" "D1" "accept"
                            (servedWorld lockedOrderWithoutAttempt 2000))) !! "O1"
    = Some "accepted" /\
  isLocked <$> orders (snd (handleDriverResponse "O1" "D1" "accept"
                              (servedWorld lockedOrderWithoutAttempt 2000))) !! "O1"
    = Some false /\
  status lockedOrderWithoutAttempt = "pending" /\
  isLocked lockedOrderWithoutAttempt = true.
Proof. repeat split; vm_compute; reflexivity. Qed.

(** C3, at the tenth decline.  Nine attempts of O1 are resolved and D1
    declines the tenth.  No retry is scheduled; the stored order is still
    pending, not failed, and the customer receives no event. *)
Theorem tenth_decline_leaves_order_pending :
  let w := offeredWorld (offeredOrder nineDeclines) 2000 in
  let w' := snd (handleDriverResponse "O1" "D1" "decline" w) in
  lockKeysConsistent w "O1" "D1" /\
  fst (handleDriverResponse "O1" "D1" "decline" w)
    = Ok (mkReply true None (Some "Order declined, trying next driver") None None None) /\
  resolvedAttempts <$> orders w' !! "O1" = Some 10%nat /\
  status <$> orders w' !! "O1" = Some "pending" /\
  timers w' = [] /\
  emitted w' = [].
Proof. repeat split; vm_compute; reflexivity. Qed.


(** C4, on an expired offer.  O1 was offered to D1 until instant 301000 and
    the sweep runs at 400000.  It marks the attempt as timed out, clears the
    lock fields and deletes the order's lock key; it schedules no retry,
    although one attempt only is resolved, and the driver's lock key stays.
    A decline in the same world schedules the retry and deletes both keys. *)
Theorem sweep_does_not_retry :
  let w := offeredWorld (offeredOrder []) 400000 in
  let swept := snd (cleanupExpiredLocks w) in
  let declined := snd (handleDriverResponse "O1" "D1" "decline" w) in
  isLockExpired (now w) (offeredOrder []) = true /\
  assignmentAttempts <$> orders swept !! "O1"
    = Some [mkAttempt "D1" 1000 "timeout" (Some 400000)] /\
  isLocked <$> orders swept !! "O1" = Some false /\
  status <$> orders swept !! "O1" = Some "pending" /\
  resolvedAttempts <$> orders swept !! "O1" = Some 1%nat /\
  redis swept !! "order_lock:O1" = None /\
  redis swept !! "driver_lock:D1" = Some "O1" /\
  timers swept = [] /\
  timers declined = [mkTimer 2000 (RetryAssignment "O1")] /\
  redis declined !! "order_lock:O1" = None /\
  redis declined !! "driver_lock:D1" = None.
Proof. repeat split; vm_compute; reflexivity. Qed.

(** No run of the sweep sets a timer or emits an event, whatever the orders
    it finds. *)
Lemma cleanupExpiredLock_quiet order w :
  timers (snd (cleanupExpiredLock order w)) = timers w /\
  emitted (snd (cleanupExpiredLock order w)) = emitted w.
Proof.
  unfold cleanupExpiredLock, withDoc, bind, lift, save, modifyDoc, getDoc, clock, gets,
    redis_del, redisCommand.
  cbn -[lookup insert delete String.append validate].
  repeat case_match; simplify_eq; cbn; done.
Qed.

Lemma forEach_quiet orders_ w :
  timers (snd (forEach orders_ cleanupExpiredLock w)) = timers w /\
  emitted (snd (forEach orders_ cleanupExpiredLock w)) = emitted w.
Proof.
  revert w. induction orders_ as [|order rest IH]; intros w; [done|].
  cbn [forEach]. unfold bind.
  destruct (cleanupExpiredLock order w) as [[[]|e] w1] eqn:E.
  - destruct (IH w1) as [-> ->].
    pose proof (cleanupExpiredLock_quiet order w) as H. rewrite E in H. exact H.
  - pose proof (cleanupExpiredLock_quiet order w) as H. rewrite E in H. exact H.
Qed.

Lemma cleanupExpiredLocks_quiet w :
  fst (cleanupExpiredLocks w) = Ok tt /\
  timers (snd (cleanupExpiredLocks w)) = timers w /\
  emitted (snd (cleanupExpiredLocks w)) = emitted w.
Proof.
  unfold cleanupExpiredLocks, tryCatch, bind, clock, Order_find, gets, ret.
  pose proof (forEach_quiet
                (List.filter (isLockExpired (now w)) (map snd (map_to_list (orders w)))) w) as H.
  destruct (forEach _ cleanupExpiredLock w) as [[[]|e] w1]; done.
Qed.

(** ** Sorting *)

Definition ascending {A} (key : A -> Z) : list A -> Prop :=
  StronglySorted (fun a b => key a <= key b).

Lemma insertBy_perm {A} (key : A -> Z) x l : insertBy key x l ≡ₚ x :: l.
Proof.
  induction l as [|y l IH]; cbn; [done|].
  destruct (key y <? key x); [|done].
  rewrite IH. apply perm_swap.
Qed.

Lemma sortBy_perm {A} (key : A -> Z) l : sortBy key l ≡ₚ l.
Proof.
  induction l as [|x l IH]; cbn; [done|].
  fold (sortBy key l). rewrite insertBy_perm. by rewrite IH.
Qed.

Lemma insertBy_ascending {A} (key : A -> Z) x l :
  ascending key l -> ascending key (insertBy key x l).
Proof.
  unfold ascending. induction 1 as [|y l Hl IH Hy]; cbn.
  - repeat constructor.
  - destruct (key y <? key x) eqn:E.
    + apply Z.ltb_lt in E. constructor; [done|].
      rewrite insertBy_perm. constructor; [lia|done].
    + apply Z.ltb_ge in E. constructor; [by constructor|].
      constructor; [done|]. eapply Forall_impl; [done|]. cbn. intros; lia.
Qed.

Lemma sortBy_ascending {A} (key : A -> Z) l : ascending key (sortBy key l).
Proof.
  induction l as [|x l IH]; cbn; [constructor|].
  by apply insertBy_ascending.
Qed.

Lemma ascending_lookup {A} (key : A -> Z) l i j a b :
  ascending key l -> (i < j)%nat -> l !! i = Some a -> l !! j = Some b -> key a <= key b.
Proof.
  unfold ascending. intros Hl. revert i j.
  induction Hl as [|x l Hl IH Hx]; intros i j Hij Hi Hj; [done|].
  destruct j as [|j]; [lia|]. cbn in Hj.
  destruct i as [|i]; cbn in Hi.
  - injection Hi as <-. rewrite Forall_forall in Hx. apply Hx.
    by eapply list_elem_of_lookup_2.
  - eapply (IH i j); [lia|done|done].
Qed.

Lemma ascending_take {A} (key : A -> Z) n l : ascending key l -> ascending key (take n l).
Proof.
  unfold ascending. intros Hl. revert n.
  induction Hl as [|x l Hl IH Hx]; intros [|n]; cbn; try constructor; [done|].
  rewrite Forall_forall in *. intros y Hy. apply Hx.
  apply elem_of_take in Hy as (i & Hi & _). by eapply list_elem_of_lookup_2.
Qed.


(** ** [assignOrder] *)

Section Assign.

Variable mongoDistance : Value -> Value -> Z.
Variable calculateDistance : Value -> Value -> Z.
Variable ORDER_LOCK_TIMEOUT : option Z.

Local Abbreviation offer := (offerOrderToDriver ORDER_LOCK_TIMEOUT).
Local Abbreviation loop := (offerLoop ORDER_LOCK_TIMEOUT).
Local Abbreviation nearby := (findNearbyDrivers mongoDistance calculateDistance).
Local Abbreviation assign := (assignOrder mongoDistance calculateDistance ORDER_LOCK_TIMEOUT).

(** The filter of the query of [findNearbyDrivers]. *)
Definition eligible (pickup : Value) (maxDistance : Z) (u : User) : bool :=
  String.eqb (userType u) "driver" && isActive u && isAvailable u
  && (mongoDistance pickup (currentLocation u) <=? maxDistance).

(** The drivers that [findNearbyDrivers] resolves to. *)
Definition found (pickup : Value) (radiusKm : Z) (w : World) : list Candidate :=
  sortBy distanceToPickup
    (map (fun driver => mkCandidate driver (calculateDistance pickup (currentLocation driver)))
       (sortBy (fun u => mongoDistance pickup (currentLocation u))
          (List.filter (eligible pickup (radiusKm * 1000)) (users w)))).

Lemma findNearbyDrivers_run pickup radiusKm w :
  nearby pickup radiusKm w = (Ok (found pickup (default 5 radiusKm) w), w).
Proof. reflexivity. Qed.

Lemma found_ascending pickup radiusKm w :
  ascending distanceToPickup (found pickup radiusKm w).
Proof. apply sortBy_ascending. Qed.

Lemma found_member pickup radiusKm w c :
  c ∈ found pickup radiusKm w ->
  user c ∈ users w /\
  userType (user c) = "driver" /\ isActive (user c) = true /\ isAvailable (user c) = true /\
  mongoDistance pickup (currentLocation (user c)) <= radiusKm * 1000 /\
  distanceToPickup c = calculateDistance pickup (currentLocation (user c)).
Proof.
  unfold found. rewrite sortBy_perm. intros Hc.
  apply list_elem_of_fmap in Hc as (u & -> & Hu). cbn.
  rewrite sortBy_perm in Hu. apply list_elem_of_In, filter_In in Hu as [Hu He].
  unfold eligible in He. rewrite !andb_true_iff in He.
  destruct He as [[[Ht Ha] Hv] Hd].
  apply String.eqb_eq in Ht. apply Z.leb_le in Hd.
  split; [by apply list_elem_of_In|]. done.
Qed.

(** Every eligible driver is found. *)
Lemma found_complete pickup radiusKm w u :
  u ∈ users w -> eligible pickup (radiusKm * 1000) u = true ->
  mkCandidate u (calculateDistance pickup (currentLocation u)) ∈ found pickup radiusKm w.
Proof.
  intros Hu He. unfold found. rewrite sortBy_perm.
  apply list_elem_of_fmap. exists u. split; [done|].
  rewrite sortBy_perm. apply list_elem_of_In, filter_In. split; [|done].
  by apply list_elem_of_In.
Qed.

(** *** One offer *)

Lemma offer_returns driver ow : exists reply ow', offer driver ow = (Ok reply, ow').
Proof.
  unfold offerOrderToDriver, tryCatch.
  match goal with |- context [match ?b with _ => _ end] => destruct b as [[r|e] ow'] end;
    eauto.
Qed.

(** A command that finds the store down inside [offerOrderToDriver] is
    reported as an offer that failed. *)
Lemma offer_store_down driver ow :
  faults (snd ow) (ops (snd ow)) = true ->
  offer driver ow
  = (Ok (failure "Failed to offer order to driver"),
     (fst ow, setOps (S (ops (snd ow))) (snd ow))).
Proof.
  intros Hf. destruct ow as [o w]. cbn in Hf.
  unfold offerOrderToDriver, tryCatch, bind, getDoc, lift, redis_get, redisCommand, ret.
  cbn -[lookup String.append]. rewrite Hf. reflexivity.
Qed.


(** *** The loop over the candidates *)

(** The offers to the drivers of a list, made one after the other, all
    failed; the relation links the states before and after. *)
Inductive declinedInTurn : list Candidate -> Order * World -> Order * World -> Prop :=
| declined_nil ow : declinedInTurn [] ow ow
| declined_cons driver rest ow reply ow1 ow2 :
    offer driver ow = (Ok reply, ow1) ->
    success reply = false ->
    declinedInTurn rest ow1 ow2 ->
    declinedInTurn (driver :: rest) ow ow2.

Lemma loop_all_declined lockKey drivers ow ow' :
  declinedInTurn drivers ow ow' -> loop lockKey drivers ow = (Ok None, ow').
Proof.
  induction 1 as [ow|driver rest ow reply ow1 ow2 Ho Hs _ IH]; [reflexivity|].
  cbn [offerLoop]. unfold bind at 1. rewrite Ho, Hs. exact IH.
Qed.

Lemma loop_first_success lockKey before driver after ow ow1 reply ow2 :
  declinedInTurn before ow ow1 ->
  offer driver ow1 = (Ok reply, ow2) ->
  success reply = true ->
  loop lockKey (before ++ driver :: after)%list ow
  = (lift (redis_del lockKey) ;; ret (Some reply)) ow2.
Proof.
  intros Hb Ho Hs.
  induction Hb as [ow|d rest ow r ow1 ow1' Hd Hr _ IH].
  - cbn [app offerLoop]. unfold bind at 1. rewrite Ho, Hs. reflexivity.
  - cbn [app offerLoop]. unfold bind at 1. rewrite Hd, Hr. by apply IH.
Qed.

(** The loop either exhausts the list or stops at a first success. *)
Lemma loop_cases drivers ow :
  (exists ow', declinedInTurn drivers ow ow') \/
  (exists before driver after ow1 reply ow2,
      drivers = (before ++ driver :: after)%list /\
      declinedInTurn before ow ow1 /\
      offer driver ow1 = (Ok reply, ow2) /\
      success reply = true).
Proof.
  revert ow. induction drivers as [|driver rest IH]; intros ow.
  - left. eexists. constructor.
  - destruct (offer_returns driver ow) as (reply & ow1 & Ho).
    destruct (success reply) eqn:Hs.
    + right. exists [], driver, rest, ow, reply, ow1.
      repeat split; [constructor|done|done].
    + destruct (IH ow1) as [(ow' & Hd)|(before & d & after & ow2 & r & ow3 & -> & Hd & Hd' & Hr)].
      * left. exists ow'. by econstructor.
      * right. exists (driver :: before), d, after, ow2, r, ow3.
        repeat split; [by econstructor|done|done].
Qed.


(** *** From the marker to the loop *)

(** The world once [assignOrder] has set its marker key. *)
Definition markerSet (orderId : string) (w : World) : World :=
  setRedis (<["order_assignment:" +:+ orderId := "locked"]> (redis w)) (setOps (2 + ops w) w).

(** What [assignOrder] makes of the outcome of its loop. *)
Definition settle (lockKey : string) (outcome : Result (option Reply) * World)
  : Result Reply * World :=
  match outcome with
  | (Ok (Some assignmentResult), w) => (Ok assignmentResult, w)
  | (Ok None, w) =>
      tryCatch (redis_del lockKey ;; throw NoDriverAcceptedOffer)
               (fun error => redis_del lockKey ;; throw error) w
  | (Throw error, w) => (redis_del lockKey ;; throw error) w
  end.

Lemma assign_marker_present w orderId o :
  orders w !! orderId = Some o ->
  status o = "pending" ->
  faults w (ops w) = false ->
  present (redis w !! ("order_assignment:" +:+ orderId)) = true ->
  assign orderId w = (Throw AlreadyInProgress, setOps (S (ops w)) w).
Proof.
  intros Ho Hs Hf Hp.
  unfold assignOrder, tryCatch, bind, Order_findOne, gets, redis_get, redisCommand, throw.
  cbn -[lookup String.append]. rewrite Ho, Hs. cbn -[lookup String.append].
  rewrite Hf. cbn -[lookup String.append]. rewrite Hp. reflexivity.
Qed.



Lemma assign_no_candidates w orderId o :
  orders w !! orderId = Some o ->
  status o = "pending" ->
  faults w (ops w) = false ->
  present (redis w !! ("order_assignment:" +:+ orderId)) = false ->
  faults w (S (ops w)) = false ->
  found (pickupLocation o) 5 w = [] ->
  assign orderId w
  = tryCatch (redis_del ("order_assignment:" +:+ orderId) ;; throw NoDriversAvailable)
             (fun error => redis_del ("order_assignment:" +:+ orderId) ;; throw error)
             (markerSet orderId w).
Proof.
  intros Ho Hs Hf Hp Hf' Hn.
  unfold assignOrder. rewrite tryCatch_rethrow.
  unfold bind at 1, Order_findOne, gets.
  rewrite Ho, Hs. cbn [String.eqb Ascii.eqb Bool.eqb negb].
  unfold bind at 1, redis_get at 1, redisCommand at 1. rewrite Hf.
  cbn [redis setOps]. rewrite Hp.
  unfold bind at 1, redis_setEx at 1, redisCommand at 1. cbn [faults ops setOps]. rewrite Hf'.
  change (setRedis _ _) with (markerSet orderId w).
  rewrite (tryCatch_bind_Ok _ _ _ _ _ _ (findNearbyDrivers_run _ _ _)).
  cbn [default from_option id].
  change (found (pickupLocation o) 5 (markerSet orderId w)) with (found (pickupLocation o) 5 w).
  rewrite Hn. reflexivity.
Qed.


Lemma assign_candidates w orderId o :
  orders w !! orderId = Some o ->
  status o = "pending" ->
  faults w (ops w) = false ->
  present (redis w !! ("order_assignment:" +:+ orderId)) = false ->
  faults w (S (ops w)) = false ->
  found (pickupLocation o) 5 w <> [] ->
  assign orderId w
  = settle ("order_assignment:" +:+ orderId)
      (withDoc o (loop ("order_assignment:" +:+ orderId) (take 5 (found (pickupLocation o) 5 w)))
               (markerSet orderId w)).
Proof.
  intros Ho Hs Hf Hp Hf' Hn.
  unfold assignOrder. rewrite tryCatch_rethrow.
  unfold bind at 1, Order_findOne, gets.
  rewrite Ho, Hs. cbn [String.eqb Ascii.eqb Bool.eqb negb].
  unfold bind at 1, redis_get at 1, redisCommand at 1. rewrite Hf.
  cbn [redis setOps]. rewrite Hp.
  unfold bind at 1, redis_setEx at 1, redisCommand at 1. cbn [faults ops setOps]. rewrite Hf'.
  change (setRedis _ _) with (markerSet orderId w).
  rewrite (tryCatch_bind_Ok _ _ _ _ _ _ (findNearbyDrivers_run _ _ _)).
  cbn [default from_option id].
  change (found (pickupLocation o) 5 (markerSet orderId w)) with (found (pickupLocation o) 5 w).
  destruct (found (pickupLocation o) 5 w) as [|c l] eqn:E; [done|].
  cbn [length Nat.eqb].
  unfold settle.
  destruct (withDoc o _ (markerSet orderId w)) as [[[reply|]|e] w'] eqn:Hloop.
  - unfold tryCatch, bind. rewrite Hloop. reflexivity.
  - rewrite (tryCatch_bind_Ok _ _ _ _ _ _ Hloop). reflexivity.
  - unfold tryCatch, bind. rewrite Hloop. reflexivity.
Qed.

(** The marker key is deleted by one more command. *)
Definition markerCleared (orderId : string) (w : World) : World :=
  setRedis (delete ("order_assignment:" +:+ orderId) (redis w)) (setOps (S (ops w)) w).

Lemma assign_first_success w orderId o before driver after ow1 reply ow2 :
  orders w !! orderId = Some o ->
  status o = "pending" ->
  faults w (ops w) = false ->
  present (redis w !! ("order_assignment:" +:+ orderId)) = false ->
  faults w (S (ops w)) = false ->
  take 5 (found (pickupLocation o) 5 w) = (before ++ driver :: after)%list ->
  declinedInTurn before (o, markerSet orderId w) ow1 ->
  offer driver ow1 = (Ok reply, ow2) ->
  success reply = true ->
  faults (snd ow2) (ops (snd ow2)) = false ->
  assign orderId w = (Ok reply, markerCleared orderId (snd ow2)).
Proof.
  intros Ho Hs Hf Hp Hf' Hc Hb Hd Hr Hf2.
  rewrite (assign_candidates w orderId o) by (try done; intros E; rewrite E in Hc; by destruct before).
  rewrite Hc. unfold withDoc.
  rewrite (loop_first_success _ _ _ _ _ _ _ _ Hb Hd Hr).
  unfold bind, lift, redis_del, redisCommand, ret. rewrite Hf2. reflexivity.
Qed.

Lemma assign_all_declined w orderId o ow' :
  orders w !! orderId = Some o ->
  status o = "pending" ->
  faults w (ops w) = false ->
  present (redis w !! ("order_assignment:" +:+ orderId)) = false ->
  faults w (S (ops w)) = false ->
  found (pickupLocation o) 5 w <> [] ->
  declinedInTurn (take 5 (found (pickupLocation o) 5 w)) (o, markerSet orderId w) ow' ->
  faults (snd ow') (ops (snd ow')) = false ->
  faults (snd ow') (S (ops (snd ow'))) = false ->
  assign orderId w
  = (Throw NoDriverAcceptedOffer, markerCleared orderId (markerCleared orderId (snd ow'))).
Proof.
  intros Ho Hs Hf Hp Hf' Hn Hd Hf1 Hf2.
  rewrite (assign_candidates w orderId o) by done. unfold withDoc.
  rewrite (loop_all_declined _ _ _ _ Hd). cbn [settle snd].
  unfold tryCatch, bind, redis_del, redisCommand, throw.
  rewrite Hf1. cbn [faults ops setOps setRedis]. rewrite Hf2. reflexivity.
Qed.

(** *** An offer is outstanding *)

Lemma offer_while_order_locked driver o w holder :
  storeReachable w ->
  redis w !! ("order_lock:" +:+ orderId o) = Some holder ->
  holder <> "" ->
  present (redis w !! ("driver_lock:" +:+ holder)) = true ->
  exists reply n, offer driver (o, w) = (Ok reply, (o, setOps n w)) /\ success reply = false.
Proof.
  intros Hr Hk Hh Hd.
  unfold offerOrderToDriver, tryCatch, bind, getDoc, lift, redis_get, redisCommand, ret.
  cbn -[lookup String.append present isString]. rewrite Hr.
  destruct (present (redis w !! ("driver_lock:" +:+ userId (user driver)))) eqn:Hbusy.
  - eexists _, _. split; reflexivity.
  - cbn -[lookup String.append present isString]. rewrite Hr, Hk.
    assert (present (Some holder) = true) as ->.
    { cbn. apply negb_true_iff, String.eqb_neq. done. }
    assert (isString (Some holder) (userId (user driver)) = false) as ->.
    { cbn. apply String.eqb_neq. intros ->. congruence. }
    eexists _, _. split; reflexivity.
Qed.

Lemma loop_while_order_locked lockKey drivers o w holder :
  storeReachable w ->
  redis w !! ("order_lock:" +:+ orderId o) = Some holder ->
  holder <> "" ->
  present (redis w !! ("driver_lock:" +:+ holder)) = true ->
  exists n, loop lockKey drivers (o, w) = (Ok None, (o, setOps n w)).
Proof.
  revert w. induction drivers as [|driver rest IH]; intros w Hr Hk Hh Hd.
  - exists (ops w). cbn. by destruct w.
  - destruct (offer_while_order_locked driver o w holder Hr Hk Hh Hd) as (reply & n & Ho & Hs).
    cbn [offerLoop]. rewrite (bind_Ok _ _ _ _ _ Ho), Hs.
    destruct (IH (setOps n w)) as (m & Hm); [done..|].
    exists m. exact Hm.
Qed.


Lemma give_up_run lockKey e w :
  storeReachable w ->
  tryCatch (redis_del lockKey ;; throw e) (fun error => redis_del lockKey ;; throw error) w
  = (@Throw Reply e,
     setRedis (delete lockKey (delete lockKey (redis w))) (setOps (2 + ops w) w)).
Proof.
  intros Hr. unfold tryCatch, bind, redis_del, redisCommand, throw.
  rewrite Hr. cbn -[lookup insert delete String.append]. rewrite Hr. reflexivity.
Qed.

Lemma assign_while_offer_outstanding w orderId o holder :
  orders w !! orderId = Some o ->
  OrderModel.orderId o = orderId ->
  status o = "pending" ->
  storeReachable w ->
  present (redis w !! ("order_assignment:" +:+ orderId)) = false ->
  redis w !! ("order_lock:" +:+ orderId) = Some holder ->
  holder <> "" ->
  present (redis w !! ("driver_lock:" +:+ holder)) = true ->
  exists e n,
    assign orderId w
    = (Throw e,
       setRedis (delete ("order_assignment:" +:+ orderId)
                   (delete ("order_assignment:" +:+ orderId)
                      (<["order_assignment:" +:+ orderId := "locked"]> (redis w))))
                (setOps n w)) /\
    (e = NoDriversAvailable \/ e = NoDriverAcceptedOffer).
Proof.
  intros Ho Hid Hs Hr Hp Hk Hh Hd.
  destruct (found (pickupLocation o) 5 w) as [|c l] eqn:E.
  - rewrite (assign_no_candidates w orderId o) by done.
    exists NoDriversAvailable, (4 + ops w)%nat. split; [|by left].
    rewrite give_up_run by exact Hr. reflexivity.
  - assert (Hr' : storeReachable (markerSet orderId w)) by exact Hr.
    destruct (loop_while_order_locked ("order_assignment:" +:+ orderId)
                (take 5 (found (pickupLocation o) 5 w)) o (markerSet orderId w) holder)
      as (n & Hloop); [done| | done | |].
    + unfold markerSet. cbn [redis setRedis]. rewrite Hid.
      rewrite lookup_insert_ne by apply marker_not_order_key. done.
    + unfold markerSet. cbn [redis setRedis].
      rewrite lookup_insert_ne by apply marker_not_driver_key. done.
    + rewrite (assign_candidates w orderId o) by (try done; congruence).
      unfold withDoc. rewrite Hloop. cbn [settle snd].
      exists NoDriverAcceptedOffer, (2 + n)%nat. split; [|by right].
      rewrite give_up_run by exact Hr. reflexivity.
Qed.

(** C2, as amended.  [assignOrder] reports an assignment in progress when
    its own marker key is set.  While an offer is outstanding and the marker
    is not set, it fails for want of a driver instead: nothing is stored,
    nothing is emitted and the outstanding lock stays. *)
Theorem assign_in_progress_is_the_marker w orderId o :
  orders w !! orderId = Some o ->
  OrderModel.orderId o = orderId ->
  status o = "pending" ->
  storeReachable w ->
  (present (redis w !! ("order_assignment:" +:+ orderId)) = true ->
   fst (assign orderId w) = Throw AlreadyInProgress) /\
  (forall holder,
      present (redis w !! ("order_assignment:" +:+ orderId)) = false ->
      redis w !! ("order_lock:" +:+ orderId) = Some holder ->
      holder <> "" ->
      present (redis w !! ("driver_lock:" +:+ holder)) = true ->
      (fst (assign orderId w) = Throw NoDriversAvailable \/
       fst (assign orderId w) = Throw NoDriverAcceptedOffer) /\
      orders (snd (assign orderId w)) = orders w /\
      emitted (snd (assign orderId w)) = emitted w /\
      redis (snd (assign orderId w)) !! ("order_lock:" +:+ orderId) = Some holder).
Proof.
  intros Ho Hid Hs Hr. split.
  - intros Hp. by rewrite (assign_marker_present w orderId o).
  - intros holder Hp Hk Hh Hd.
    destruct (assign_while_offer_outstanding w orderId o holder) as (e & n & -> & He); try done.
    cbn [fst snd orders emitted redis setRedis setOps].
    split; [destruct He as [-> | ->]; [by left|by right]|].
    split; [done|]. split; [done|].
    rewrite !lookup_delete_ne, lookup_insert_ne by apply marker_not_order_key. done.
Qed.


(** C7.  [assignOrder] queries the eligible drivers within 5 km, keeps the
    five nearest in ascending order of their distance to the pickup, and
    offers the order to them one after the other, in that order, until an
    offer is placed. *)
Theorem assign_offers_nearest_first w orderId o :
  orders w !! orderId = Some o ->
  status o = "pending" ->
  faults w (ops w) = false ->
  present (redis w !! ("order_assignment:" +:+ orderId)) = false ->
  faults w (S (ops w)) = false ->
  let all := found (pickupLocation o) 5 w in
  let candidates := take 5 all in
  let start := (o, markerSet orderId w) in
  nearby (pickupLocation o) None (markerSet orderId w) = (Ok all, markerSet orderId w) /\
  (forall c, c ∈ all <->
     exists u, c = mkCandidate u (calculateDistance (pickupLocation o) (currentLocation u)) /\
               u ∈ users w /\ userType u = "driver" /\ isActive u = true /\
               isAvailable u = true /\
               mongoDistance (pickupLocation o) (currentLocation u) <= 5 * 1000) /\
  ascending distanceToPickup all /\
  (length candidates <= 5)%nat /\
  ascending distanceToPickup candidates /\
  (forall c c', c ∈ candidates -> c' ∈ drop 5 all -> distanceToPickup c <= distanceToPickup c') /\
  (forall before driver after ow1 reply ow2,
      candidates = (before ++ driver :: after)%list ->
      declinedInTurn before start ow1 ->
      offer driver ow1 = (Ok reply, ow2) ->
      success reply = true ->
      faults (snd ow2) (ops (snd ow2)) = false ->
      assign orderId w = (Ok reply, markerCleared orderId (snd ow2))) /\
  (forall ow',
      candidates <> [] ->
      declinedInTurn candidates start ow' ->
      faults (snd ow') (ops (snd ow')) = false ->
      faults (snd ow') (S (ops (snd ow'))) = false ->
      assign orderId w
      = (Throw NoDriverAcceptedOffer, markerCleared orderId (markerCleared orderId (snd ow')))) /\
  ((exists ow', declinedInTurn candidates start ow') \/
   (exists before driver after ow1 reply ow2,
       candidates = (before ++ driver :: after)%list /\
       declinedInTurn before start ow1 /\
       offer driver ow1 = (Ok reply, ow2) /\
       success reply = true)).
Proof.
  intros Ho Hs Hf Hp Hf' all candidates start. subst all candidates start.
  split; [exact (findNearbyDrivers_run (pickupLocation o) None (markerSet orderId w))|].
  split.
  { intros c. split.
    - intros Hc. destruct (found_member _ _ _ _ Hc) as (Hu & Ht & Ha & Hv & Hd & Hk).
      exists (user c). split; [|done]. destruct c as [u k]. cbn in *. by rewrite Hk.
    - intros (u & -> & Hu & Ht & Ha & Hv & Hd). apply found_complete; [done|].
      unfold eligible. rewrite Ht, Ha, Hv. cbn. by apply Z.leb_le. }
  split; [apply found_ascending|].
  split; [rewrite length_take; lia|].
  split; [apply ascending_take, found_ascending|].
  split.
  { intros c c' Hc Hc'.
    apply elem_of_take in Hc as (i & Hi & Hi5).
    apply list_elem_of_lookup in Hc' as (j & Hj). rewrite lookup_drop in Hj.
    eapply (ascending_lookup _ _ i (5 + j)); [apply found_ascending|lia|done|done]. }
  split.
  { intros before driver after ow1 reply ow2 Hc Hb Hd Hr Hf2.
    by eapply assign_first_success. }
  split.
  { intros ow' Hn Hd Hf1 Hf2. apply (assign_all_declined w orderId o); try done.
    intros E. apply Hn. by rewrite E. }
  apply loop_cases.
Qed.

End Assign.


(** ** Concrete dispatches *)

(** Points on the meridian at whole degrees of latitude, read as kilometres
    along a line. *)
Definition degrees (p : Value) : Z :=
  match Prim2SF (toNumber (get p "latitude")) with
  | S754_finite negative m e =>
      (if negative then -1 else 1) * (if 0 <=? e then Z.pos m * 2 ^ e else Z.pos m / 2 ^ (- e))
  | _ => 0
  end.

Definition lineMetres (a b : Value) : Z := 1000 * Z.abs (degrees a - degrees b).

Definition lineHundredths (a b : Value) : Z := 100 * Z.abs (degrees a - degrees b).

Definition driverAt (id : string) (latitude : float) (available : bool) : User :=
  mkUser id "driver" true available (GeoUtils.point latitude 0).

(** D4 is out of range and D5 is not available. *)
Definition fleet : list User :=
  [driverAt "D1" 3 true; driverAt "D2" 1 true; driverAt "D3" 4 true;
   driverAt "D4" 9 true; driverAt "D5" 2 false].

Definition pendingOrder : Order :=
  mkOrder "O1" "C1" None origin "pending" "pending" noTimestamps [] false None None.

Definition dispatchWorld (order : Order) (keys : gmap string string) (down : nat -> bool)
  : World :=
  mkWorld (<["O1" := order]> ∅) fleet keys [] [] 1000 down 0.

Definition alwaysUp : nat -> bool := fun _ => false.

(** [dispatchWorld], with the User document of the customer C1. *)
Definition servedDispatch (order : Order) (keys : gmap string string) (down : nat -> bool)
  : World :=
  setUsers (fleet ++ [customerC1])%list (dispatchWorld order keys down).

Definition offerTo (driver : string) : Reply :=
  mkReply true None (Some "Order offered to driver") (Some driver) (Some 300) None.

Example dispatch_nearest :
  fst (assignOrder lineMetres lineHundredths None "O1" (servedDispatch pendingOrder ∅ alwaysUp))
  = Ok (offerTo "D2").
Proof. vm_compute. reflexivity. Qed.

(** Without a User document for the customer the payload of the offer
    cannot be built: the offer to D2 fails after it has set both lock keys
    and saved the lock, D1 and D3 find the order locked, and no event is
    sent. *)
Example dispatch_without_customer :
  let w' := snd (assignOrder lineMetres lineHundredths None "O1"
                   (dispatchWorld pendingOrder ∅ alwaysUp)) in
  fst (assignOrder lineMetres lineHundredths None "O1" (dispatchWorld pendingOrder ∅ alwaysUp))
  = Throw NoDriverAcceptedOffer /\
  redis w' !! "driver_lock:D2" = Some "O1" /\
  redis w' !! "order_lock:O1" = Some "D2" /\
  isLocked <$> orders w' !! "O1" = Some true /\
  emitted w' = [].
Proof. repeat split; vm_compute; reflexivity. Qed.

(** No driver within 5 km: the call fails and the order stays pending. *)
Example dispatch_without_drivers :
  let w := mkWorld (<["O1" := pendingOrder]> ∅) [driverAt "D4" 9 true] ∅ [] [] 1000 alwaysUp 0 in
  fst (assignOrder lineMetres lineHundredths None "O1" w) = Throw NoDriversAvailable /\
  orders (snd (assignOrder lineMetres lineHundredths None "O1" w)) !! "O1" = Some pendingOrder.
Proof. split; vm_compute; reflexivity. Qed.

Example dispatch_candidates :
  map (fun c => (userId (user c), distanceToPickup c))
      (found lineMetres lineHundredths origin 5 (dispatchWorld pendingOrder ∅ alwaysUp))
  = [("D2", 100); ("D1", 300); ("D3", 400)].
Proof. vm_compute. reflexivity. Qed.

(** C2, as stated, fails: O1 is on offer to D1, the key [order_lock:O1] is
    set, and a second [assignOrder] ends for want of a driver, not as an
    assignment in progress. *)
Lemma assign_during_offer_not_in_progress :
  redis (dispatchWorld (offeredOrder []) offerKeys alwaysUp) !! "order_lock:O1" = Some "D1" /\
  fst (assignOrder lineMetres lineHundredths None "O1"
         (dispatchWorld (offeredOrder []) offerKeys alwaysUp))
  = Throw NoDriverAcceptedOffer /\
  NoDriverAcceptedOffer <> AlreadyInProgress.
Proof. split; [reflexivity|]. split; [vm_compute; reflexivity|discriminate]. Qed.

Lemma assign_in_progress_is_the_marker_witness :
  fst (assignOrder lineMetres lineHundredths None "O1"
         (dispatchWorld pendingOrder (<["order_assignment:O1" := "locked"]> ∅) alwaysUp))
  = Throw AlreadyInProgress /\
  (fst (assignOrder lineMetres lineHundredths None "O1"
          (dispatchWorld (offeredOrder []) offerKeys alwaysUp)) = Throw NoDriversAvailable \/
   fst (assignOrder lineMetres lineHundredths None "O1"
          (dispatchWorld (offeredOrder []) offerKeys alwaysUp)) = Throw NoDriverAcceptedOffer).
Proof.
  split.
  - apply (assign_in_progress_is_the_marker lineMetres lineHundredths None
             (dispatchWorld pendingOrder (<["order_assignment:O1" := "locked"]> ∅) alwaysUp)
             "O1" pendingOrder);
      first [ reflexivity | intros n; reflexivity ].
  - refine (proj1 (proj2 (assign_in_progress_is_the_marker lineMetres lineHundredths None
                             (dispatchWorld (offeredOrder []) offerKeys alwaysUp)
                             "O1" (offeredOrder []) eq_refl eq_refl eq_refl (fun n => eq_refl))
                          "D1" _ _ _ _));
      first [ reflexivity | discriminate ].
Defined.



(** The nearest driver D2 is busy with another order. *)
Definition busyWorld : World :=
  servedDispatch pendingOrder (<["driver_lock:D2" := "O9"]> ∅) alwaysUp.

Definition candidateD1 : Candidate := mkCandidate (driverAt "D1" 3 true) 300.
Definition candidateD2 : Candidate := mkCandidate (driverAt "D2" 1 true) 100.
Definition candidateD3 : Candidate := mkCandidate (driverAt "D3" 4 true) 400.



(** The states after the offer to D2, which fails, and after the offer to D1. *)
Definition afterD2 : Order * World :=
  Eval vm_compute in
    snd (offerOrderToDriver None candidateD2 (pendingOrder, markerSet "O1" busyWorld)).

Definition afterD1 : Order * World :=
  Eval vm_compute in snd (offerOrderToDriver None candidateD1 afterD2).

Lemma assign_offers_nearest_first_witness :
  take 5 (found lineMetres lineHundredths origin 5 busyWorld)
  = [candidateD2; candidateD1; candidateD3] /\
  fst (assignOrder lineMetres lineHundredths None "O1" busyWorld) = Ok (offerTo "D1").
Proof.
  split; [vm_compute; reflexivity|].
  destruct (assign_offers_nearest_first lineMetres lineHundredths None busyWorld "O1"
              pendingOrder eq_refl eq_refl eq_refl eq_refl eq_refl)
    as (_ & _ & _ & _ & _ & _ & Hfirst & _).
  rewrite (Hfirst [candidateD2] candidateD1 [candidateD3] afterD2 (offerTo "D1") afterD1).
  - reflexivity.
  - vm_compute; reflexivity.
  - econstructor; [vm_compute; reflexivity | reflexivity | constructor].
  - vm_compute; reflexivity.
  - reflexivity.
  - vm_compute; reflexivity.
Defined.

End OrderAssignmentFacts.

(* ===================================================================== *)
(** * Properties of the queries over points and of the reconnection policy *)
(* ===================================================================== *)

Module GeoUtilsQueriesFacts.
Import Js GeoUtils GeoUtilsQueries.

(** ** The order of binary64 numbers *)

Lemma SFcompare_refl p : p <> S754_nan -> SFcompare p p = Some Eq.
Proof.
  destruct p as [s|s| |s m e]; cbn; try done; intros _.
  - by destruct s.
  - destruct s; rewrite Z.compare_refl;
      change (PosDef.Pos.compare_cont Eq m m) with (Pos.compare m m);
      rewrite Pos.compare_refl; done.
Qed.

Lemma SFltb_trans a b c : SFltb a b = true -> SFltb b c = true -> SFltb a c = true.
Proof.
  unfold SFltb.
  destruct a as [sa|sa| |sa ma ea], b as [sb|sb| |sb mb eb], c as [sc|sc| |sc mc ec];
    cbn; try done;
    try (destruct sa; try done); try (destruct sb; try done); try (destruct sc; try done).
  all: repeat match goal with
       | |- context [PosDef.Pos.compare_cont Eq ?p ?q] =>
           change (PosDef.Pos.compare_cont Eq p q) with (Pos.compare p q)
       end.
  all: destruct (Z.compare_spec ea eb), (Z.compare_spec eb ec), (Z.compare_spec ea ec);
    try done; try lia; subst.
  all: destruct (Pos.compare_spec ma mb), (Pos.compare_spec mb mc), (Pos.compare_spec ma mc);
    cbn; try done; try lia.
Qed.

Lemma ltb_trans x y z :
  (x <? y)%float = true -> (y <? z)%float = true -> (x <? z)%float = true.
Proof. rewrite !FloatAxioms.ltb_spec. apply SFltb_trans. Qed.

Lemma ltb_irrefl x : (x <? x)%float = false.
Proof.
  rewrite FloatAxioms.ltb_spec. unfold SFltb.
  destruct (Prim2SF x) as [s|s| |s m e] eqn:E; try done.
  - by destruct s.
  - rewrite SFcompare_refl; done.
Qed.

Lemma leb_numbers x y :
  (x <=? y)%float = true -> PrimFloat.is_nan x = false /\ PrimFloat.is_nan y = false.
Proof.
  rewrite FloatAxioms.leb_spec. unfold PrimFloat.is_nan.
  rewrite !FloatAxioms.eqb_spec. unfold SFleb, SFeqb.
  intros H.
  assert (Prim2SF x <> S754_nan /\ Prim2SF y <> S754_nan) as [Hx Hy].
  { destruct (Prim2SF x), (Prim2SF y); cbn in H; done. }
  rewrite !SFcompare_refl by done. done.
Qed.

(** A number between two finite numbers is finite. *)
Lemma bounded_finite lo hi x :
  PrimFloat.is_finite lo = true -> PrimFloat.is_finite hi = true ->
  (lo <=? x)%float = true -> (x <=? hi)%float = true -> PrimFloat.is_finite x = true.
Proof.
  unfold PrimFloat.is_finite, PrimFloat.is_infinity, PrimFloat.is_nan.
  rewrite !FloatAxioms.leb_spec, !FloatAxioms.eqb_spec, !FloatAxioms.abs_spec.
  change (Prim2SF infinity) with (S754_infinity false).
  unfold SFleb, SFeqb.
  destruct (Prim2SF lo) as [| [|] | |sl ml el], (Prim2SF hi) as [| [|] | |sh mh eh],
    (Prim2SF x) as [| [|] | | [|] m e];
    cbn; try done.
  all: intros _ _ _ _; rewrite Z.compare_refl;
    change (PosDef.Pos.compare_cont Eq m m) with (Pos.compare m m);
    rewrite Pos.compare_refl; done.
Qed.

(** ** [validateCoordinates] *)

(** X1.  Coordinates that [validateCoordinates] accepts are two numbers,
    both finite (so neither [NaN] nor an infinity), the latitude within
    [-90, 90] and the longitude within [-180, 180]. *)
Theorem validateCoordinates_finite latitude longitude :
  validateCoordinates latitude longitude = true ->
  exists x y,
    latitude = Number x /\ longitude = Number y /\
    PrimFloat.is_finite x = true /\ PrimFloat.is_finite y = true /\
    (-90 <=? x)%float = true /\ (x <=? 90)%float = true /\
    (-180 <=? y)%float = true /\ (y <=? 180)%float = true.
Proof.
  unfold validateCoordinates, isNumber. rewrite !andb_true_iff.
  intros [[[[[Hx Hy] H1] H2] H3] H4].
  destruct latitude as [|x|f|props]; try discriminate Hx.
  destruct longitude as [|y|f|props]; try discriminate Hy.
  cbn [toNumber] in *. exists x, y. repeat split; try done.
  - by apply (bounded_finite (-90) 90).
  - by apply (bounded_finite (-180) 180).
Qed.

Lemma validateCoordinates_finite_witness :
  exists x y,
    Number 0x1.86da1a9fbe76dp+5 = Number x /\ Number 0x1.2d14e3bcd35a8p+1 = Number y /\
    PrimFloat.is_finite x = true /\ PrimFloat.is_finite y = true /\
    (-90 <=? x)%float = true /\ (x <=? 90)%float = true /\
    (-180 <=? y)%float = true /\ (y <=? 180)%float = true.
Proof.
  apply (validateCoordinates_finite (Number 0x1.86da1a9fbe76dp+5) (Number 0x1.2d14e3bcd35a8p+1)).
  reflexivity.
Defined.

(** ** [isWithinRadius] and [findClosestPoint] *)

Section Geolib.

Variable getDistance : Value -> Value -> Result Value.

(** The kilometres that [calculateDistance] returns. *)
Definition kmOf (a b : Value) : float :=
  match getDistance a b with
  | Ok metres => parseFloat (toFixed2 (toNumber metres / 1000))
  | Throw _ => 0%float
  end.

Lemma calculateDistance_kmOf a b : calculateDistance getDistance a b = Ok (kmOf a b).
Proof. unfold calculateDistance, kmOf. by destruct (getDistance a b). Qed.

(** X2.  A point for which the library throws counts as within every
    radius that is not negative: [isWithinRadius] returns [true], as the
    distance is taken to be 0. *)
Theorem isWithinRadius_when_library_throws center point radiusKm e :
  getDistance center point = Throw e ->
  (0 <=? radiusKm)%float = true ->
  isWithinRadius getDistance center point radiusKm = Ok true.
Proof.
  intros He Hr. unfold isWithinRadius. rewrite calculateDistance_kmOf.
  unfold kmOf. by rewrite He, Hr.
Qed.

(** The values of [closestPoint] and [minDistance] after the points [seen]. *)
Definition scanned (referencePoint : Value) (seen : list Value)
  (closestPoint : option Value) (minDistance : float) : Prop :=
  (forall q, q ∈ seen -> (kmOf referencePoint q <? minDistance)%float = false) /\
  match closestPoint with
  | None => minDistance = PrimFloat.infinity
  | Some c =>
      exists p, p ∈ seen /\ c = withDistance p minDistance /\
                kmOf referencePoint p = minDistance /\
                (minDistance <? PrimFloat.infinity)%float = true
  end.

Lemma scanPoints_scanned referencePoint rest :
  forall seen closestPoint minDistance,
    scanned referencePoint seen closestPoint minDistance ->
    exists closest least,
      scanPoints getDistance referencePoint rest closestPoint minDistance = Ok closest /\
      scanned referencePoint (seen ++ rest)%list closest least.
Proof.
  induction rest as [|point rest IH]; intros seen closestPoint minDistance Hs.
  - exists closestPoint, minDistance. rewrite app_nil_r. done.
  - cbn [scanPoints]. rewrite calculateDistance_kmOf.
    replace (seen ++ point :: rest)%list with ((seen ++ [point]) ++ rest)%list
      by (rewrite <- app_assoc; reflexivity).
    destruct Hs as [Hseen Hclosest].
    destruct (kmOf referencePoint point <? minDistance)%float eqn:Hlt.
    + apply IH. split.
      * intros q Hq. apply elem_of_app in Hq as [Hq|Hq].
        -- destruct (kmOf referencePoint q <? kmOf referencePoint point)%float eqn:E; [|done].
           rewrite <- (Hseen q Hq). symmetry. by eapply ltb_trans.
        -- apply list_elem_of_singleton in Hq as ->. apply ltb_irrefl.
      * exists point. split; [apply elem_of_app; right; by apply list_elem_of_singleton|].
        split; [done|]. split; [done|].
        destruct closestPoint as [c|].
        -- destruct Hclosest as (p & _ & _ & _ & Hinf). by eapply ltb_trans.
        -- by rewrite <- Hclosest.
    + apply IH. split.
      * intros q Hq. apply elem_of_app in Hq as [Hq|Hq]; [by apply Hseen|].
        by apply list_elem_of_singleton in Hq as ->.
      * destruct closestPoint as [c|]; [|done].
        destruct Hclosest as (p & Hp & Hrest). exists p.
        split; [apply elem_of_app; by left|done].
Qed.

(** X3.  [findClosestPoint] never throws.  A result that is not [null] is
    one of the points, extended with its distance, and no point of the array
    is strictly closer; [null] is returned for a missing or empty array and
    when no point has a distance below [Infinity]. *)
Theorem findClosestPoint_nearest referencePoint points :
  exists closest,
    findClosestPoint getDistance referencePoint points = Ok closest /\
    match closest with
    | Some c =>
        exists ps p,
          points = Some ps /\ p ∈ ps /\
          c = withDistance p (kmOf referencePoint p) /\
          (forall q, q ∈ ps ->
                     (kmOf referencePoint q <? kmOf referencePoint p)%float = false)
    | None =>
        forall ps q, points = Some ps -> q ∈ ps ->
                     (kmOf referencePoint q <? PrimFloat.infinity)%float = false
    end.
Proof.
  destruct points as [ps|]; [|by exists None].
  destruct (scanPoints_scanned referencePoint ps [] None PrimFloat.infinity)
    as (closest & least & Hrun & Hseen & Hclosest).
  { split; [intros q Hq; by apply elem_of_nil in Hq|done]. }
  exists closest. split.
  - destruct ps; [|exact Hrun]. cbn in Hrun. by injection Hrun as <-.
  - cbn [app] in *. destruct closest as [c|].
    + destruct Hclosest as (p & Hp & -> & Hkm & _).
      exists ps, p. rewrite Hkm. done.
    + intros ps' q [= <-] Hq. rewrite <- Hclosest. by apply Hseen.
Qed.

End Geolib.

Lemma isWithinRadius_when_library_throws_witness :
  isWithinRadius GeoUtilsFacts.rejectingDistance Undefined (Object []) 5 = Ok true.
Proof.
  apply (isWithinRadius_when_library_throws GeoUtilsFacts.rejectingDistance Undefined (Object [])
           5 (TypeError "Cannot read properties of undefined"));
    reflexivity.
Defined.

End GeoUtilsQueriesFacts.

Module RedisConfigFacts.
Import RedisConfig.

(** X4.  Whenever [retry_strategy] asks for another attempt, the delay is
    100 ms per attempt made and at most 1000 ms: attempts beyond the tenth
    stop the retries, so the cap of 3000 ms is never the delay chosen. *)
Theorem retry_strategy_delay options milliseconds :
  retry_strategy options = RetryAfter milliseconds ->
  milliseconds = attempt options * 100 /\ milliseconds <= 1000 /\
  attempt options <= 10 /\ total_retry_time options <= 3600000 /\
  errorCode options <> Some "ECONNREFUSED".
Proof.
  unfold retry_strategy.
  destruct (errorCode options) as [code|] eqn:Hc.
  - destruct (String.eqb code "ECONNREFUSED") eqn:E; [done|].
    apply String.eqb_neq in E.
    destruct (Z.ltb_spec (1000 * 60 * 60) (total_retry_time options)); [done|].
    destruct (Z.ltb_spec 10 (attempt options)); [done|].
    intros [= <-]. repeat split; try lia. congruence.
  - destruct (Z.ltb_spec (1000 * 60 * 60) (total_retry_time options)); [done|].
    destruct (Z.ltb_spec 10 (attempt options)); [done|].
    intros [= <-]. repeat split; try lia. done.
Qed.

Lemma retry_strategy_delay_witness :
  700 = 7 * 100 /\ 700 <= 1000 /\ 7 <= 10 /\ 5000 <= 3600000 /\
  Some "ETIMEDOUT" <> Some "ECONNREFUSED".
Proof.
  apply (retry_strategy_delay (mkRetryOptions (Some "ETIMEDOUT") 5000 7) 700).
  reflexivity.
Defined.

Section Library.

Variable createClient : string -> Js.Result Client.

(** X22.  [connectRedis] never throws.  In production it returns a client
    to which the server answered, or ends the process with code 1; it returns
    [null] outside production alone.  A client that is returned was made for
    the [REDIS_URL] of the environment, which is not empty, and is the one that
    [getRedisClient] gives.  A client that was made stays in the module's
    variable when the connection fails and after [disconnectRedis], which
    never throws; without a client made the variable is left as it was. *)
Theorem connectRedis_endings env server before :
  let after := snd (connectRedis createClient env server before) in
  (exists ending, fst (connectRedis createClient env server before) = Js.Ok ending) /\
  (forall code,
      fst (connectRedis createClient env server before) = Js.Ok (Exits code) ->
      production env = true /\ code = 1) /\
  (fst (connectRedis createClient env server before) = Js.Ok (Returns None) ->
   production env = false) /\
  (forall client,
      fst (connectRedis createClient env server before) = Js.Ok (Returns (Some client)) ->
      (exists redisUrl,
          REDIS_URL env = Some redisUrl /\ redisUrl <> "" /\
          createClient redisUrl = Js.Ok client) /\
      connects server = true /\ pongs server = true /\
      getRedisClient after = (Js.Ok (Some client), after)) /\
  (forall redisUrl client,
      REDIS_URL env = Some redisUrl -> redisUrl <> "" ->
      createClient redisUrl = Js.Ok client ->
      after = Some client /\ disconnectRedis server after = (Js.Ok tt, after)) /\
  (forall redisUrl error,
      REDIS_URL env = Some redisUrl -> createClient redisUrl = Js.Throw error ->
      after = before) /\
  (isSet (REDIS_URL env) = false -> after = before).
Proof.
  intros after. subst after.
  unfold connectRedis, getRedisClient, disconnectRedis, Eff.tryCatch, Eff.bind, Eff.modify,
    Eff.gets, Eff.ret, Eff.throw.
  destruct (REDIS_URL env) as [redisUrl|]; cbn -[String.eqb].
  - destruct (String.eqb redisUrl "") eqn:Hurl; cbn -[String.eqb].
    + apply String.eqb_eq in Hurl as ->.
      destruct (production env); cbn; repeat split;
        try (eexists; reflexivity); intros; by simplify_eq.
    + apply String.eqb_neq in Hurl.
      destruct (createClient redisUrl) as [made|error] eqn:Hmade,
        (connects server), (pongs server), (production env), (quits server);
        cbn; repeat split; try (eexists; reflexivity); intros; simplify_eq; try done.
      all: first [by eexists | congruence].
  - destruct (production env); cbn; repeat split;
      try (eexists; reflexivity); intros; by simplify_eq.
Qed.

End Library.

End RedisConfigFacts.

(* ===================================================================== *)
(** * Properties of models/Order.js *)
(* ===================================================================== *)

Module OrderModelFacts.
Import Js OrderModel.

(** The instant of expiry is computed in doubles.  The default of 300 s,
    taken at a clock of the year 2023, expires 300 s later to the
    millisecond; 123 s taken at the clock 1000 expire at 123999, a
    millisecond short, as 123 / 60 * 60 * 1000 is just below 123000. *)
Example expiry_of_default_timeout o :
  lockExpiration (lockForDriver "D1" (ofZ 300 / 60)%float 1700000000000 o)
  = Some 1700000300000.
Proof. reflexivity. Qed.

Example expiry_one_millisecond_short o :
  lockExpiration (lockForDriver "D1" (ofZ 123 / 60)%float 1000 o) = Some 123999.
Proof. reflexivity. Qed.

(** X5.  The life of a lock.  [lockForDriver] never fails and has no guard:
    it sets the lock for the driver over whatever lock the order carried,
    and leaves the identifier, the status, the driver and the history alone.
    With a date of expiry [e], the lock is expired at the instants after [e]
    and not at [e] itself; a lock that is expired stays expired at every
    later instant; a lock whose date is invalid never expires.
    [releaseLock] undoes a lock whatever its timeout, and a released order
    is not expired at any instant. *)
Theorem lock_life_cycle driver minutes taken o t t' :
  let locked := lockForDriver driver minutes taken o in
  isLocked locked = true /\
  lockedBy locked = Some driver /\
  orderId locked = orderId o /\ status locked = status o /\
  OrderModel.driver locked = OrderModel.driver o /\
  assignmentAttempts locked = assignmentAttempts o /\
  (forall other minutes' taken',
      lockForDriver driver minutes taken (lockForDriver other minutes' taken' o) = locked) /\
  (forall e, lockExpiration locked = Some e ->
             isLockExpired t locked = (e <? t) /\ isLockExpired e locked = false) /\
  (lockExpiration locked = None -> isLockExpired t locked = false) /\
  (t <= t' -> isLockExpired t locked = true -> isLockExpired t' locked = true) /\
  releaseLock locked = releaseLock o /\
  isLockExpired t (releaseLock locked) = false /\
  lockedBy (releaseLock locked) = None /\ lockExpiration (releaseLock locked) = None.
Proof.
  intros locked. subst locked. unfold lockForDriver, isLockExpired.
  cbn [isLocked lockedBy lockExpiration orderId status OrderModel.driver assignmentAttempts
       setLock releaseLock andb].
  split_and!; try done.
  - intros e ->. split; [done|apply Z.ltb_irrefl].
  - by intros ->.
  - intros Ht. destruct (timeClip _) as [e|]; [|done].
    intros He. apply Z.ltb_lt in He. apply Z.ltb_lt. lia.
Qed.

Lemma oneOf_updateStatus_payment newStatus driverId now o :
  oneOf paymentStatusEnum (paymentStatus o) = true ->
  oneOf paymentStatusEnum (paymentStatus (updateStatus newStatus driverId now o)) = true.
Proof.
  unfold updateStatus. repeat case_match; cbn; done.
Qed.

Lemma updateStatus_keeps newStatus driverId now o :
  status (updateStatus newStatus driverId now o) = newStatus /\
  orderId (updateStatus newStatus driverId now o) = orderId o /\
  assignmentAttempts (updateStatus newStatus driverId now o) = assignmentAttempts o /\
  isLocked (updateStatus newStatus driverId now o) = isLocked o /\
  lockedBy (updateStatus newStatus driverId now o) = lockedBy o /\
  lockExpiration (updateStatus newStatus driverId now o) = lockExpiration o.
Proof.
  unfold updateStatus. repeat case_match; cbn; done.
Qed.

(** X6.  For an order that passes validation, the order after
    [updateStatus(newStatus, ...)] passes it exactly when [newStatus] is one of
    the seven values of the schema; the attempt history, the lock fields and
    the identifier are never touched, and the driver is set by the status
    [accepted] alone. *)
Theorem updateStatus_valid_iff newStatus driverId now o :
  validate o = None ->
  (validate (updateStatus newStatus driverId now o) = None <->
   oneOf statusEnum newStatus = true) /\
  assignmentAttempts (updateStatus newStatus driverId now o) = assignmentAttempts o /\
  isLocked (updateStatus newStatus driverId now o) = isLocked o /\
  lockedBy (updateStatus newStatus driverId now o) = lockedBy o /\
  lockExpiration (updateStatus newStatus driverId now o) = lockExpiration o /\
  orderId (updateStatus newStatus driverId now o) = orderId o /\
  driver (updateStatus newStatus driverId now o)
    = if String.eqb newStatus "accepted" then driverId else driver o.
Proof.
  intros Hv. apply OrderAssignmentFacts.validate_None in Hv as (_ & Hp & Ha).
  destruct (updateStatus_keeps newStatus driverId now o) as (Hs & Hid & Hatt & Hl & Hb & He).
  split; [|repeat split; try done].
  - rewrite OrderAssignmentFacts.validate_None, Hs, Hatt.
    split; [by intros (? & _)|]. intros H. split; [done|]. split; [|done].
    by apply oneOf_updateStatus_payment.
  - unfold updateStatus. repeat case_match; cbn; done.
Qed.

Definition sampleOrder : Order :=
  mkOrder "O1" "C1" None (GeoUtils.point 0 0) "pending" "pending"
          (mkTimestamps 0 None None None None None) [] false None None.

Lemma updateStatus_valid_iff_witness :
  validate (updateStatus "failed" None 5 sampleOrder) <> None /\
  validate (updateStatus "delivered" None 5 sampleOrder) = None.
Proof.
  destruct (updateStatus_valid_iff "failed" None 5 sampleOrder eq_refl) as [Hfailed _].
  destruct (updateStatus_valid_iff "delivered" None 5 sampleOrder eq_refl) as [Hdelivered _].
  split.
  - intros H. apply Hfailed in H. discriminate H.
  - by apply Hdelivered.
Defined.

End OrderModelFacts.

(* ===================================================================== *)
(** * Invariants of the order collection *)
(* ===================================================================== *)

Module StoredOrdersFacts.
Import Js Eff OrderModel OrderAssignmentService.

(** Every step of a computation keeps a property of the state. *)
Definition keeps {S A} (P : S -> Prop) (m : M S A) : Prop :=
  forall s, P s -> P (snd (m s)).

(** A property of the world, while a document is held. *)
Definition held (P : World -> Prop) : Order * World -> Prop := fun ow => P (snd ow).

Lemma keeps_ret {S A} (P : S -> Prop) (a : A) : keeps P (ret a).
Proof. by intros s. Qed.

Lemma keeps_throw {S A} (P : S -> Prop) e : keeps P (@throw S A e).
Proof. by intros s. Qed.

Lemma keeps_gets {S A} (P : S -> Prop) (f : S -> A) : keeps P (gets f).
Proof. by intros s. Qed.

Lemma keeps_bind {S A B} (P : S -> Prop) (m : M S A) (k : A -> M S B) :
  keeps P m -> (forall a, keeps P (k a)) -> keeps P (bind m k).
Proof.
  intros Hm Hk s Hs. unfold bind. specialize (Hm s Hs).
  destruct (m s) as [[a|e] s']; cbn in *; [by apply Hk|done].
Qed.

Lemma keeps_tryCatch {S A} (P : S -> Prop) (m : M S A) h :
  keeps P m -> (forall e, keeps P (h e)) -> keeps P (tryCatch m h).
Proof.
  intros Hm Hh s Hs. unfold tryCatch. specialize (Hm s Hs).
  destruct (m s) as [[a|e] s']; cbn in *; [done|by apply Hh].
Qed.

Lemma keeps_forEach {S A} (P : S -> Prop) (xs : list A) body :
  (forall x, keeps P (body x)) -> keeps P (forEach xs body).
Proof.
  intros Hb. induction xs as [|x xs IH]; cbn [forEach]; [apply keeps_ret|].
  apply keeps_bind; [apply Hb|done].
Qed.

Lemma keeps_lift {A} (P : World -> Prop) (m : M World A) :
  keeps P m -> keeps (held P) (@lift Order World A m).
Proof.
  intros Hm [o w] Hw. unfold lift, held in *. cbn in *. specialize (Hm w Hw).
  by destruct (m w).
Qed.

Lemma keeps_withDoc {A} (P : World -> Prop) (d : Order) (m : M (Order * World) A) :
  keeps (held P) m -> keeps P (withDoc d m).
Proof.
  intros Hm w Hw. unfold withDoc. specialize (Hm (d, w) Hw).
  by destruct (m (d, w)).
Qed.

Lemma keeps_getDoc (P : World -> Prop) : keeps (held P) (@getDoc Order World).
Proof. by intros ow. Qed.

Lemma keeps_modifyDoc (P : World -> Prop) f : keeps (held P) (@modifyDoc Order World f).
Proof. by intros ow. Qed.

(** Every stored order sits under its own identifier and passes the
    validators of the schema. *)
Definition storedOk (w : World) : Prop :=
  forall k o, orders w !! k = Some o -> orderId o = k /\ validate o = None.

Lemma keeps_same_orders {A} (m : M World A) :
  (forall w, orders (snd (m w)) = orders w) -> keeps storedOk m.
Proof. intros H w Hw k o. rewrite H. apply Hw. Qed.

Lemma redisCommand_same_orders {A} (f : World -> A * World) :
  (forall w, orders (snd (f w)) = orders w) ->
  forall w, orders (snd (redisCommand f w)) = orders w.
Proof.
  intros H w. unfold redisCommand. destruct (faults w (ops w)); [done|].
  specialize (H (setOps (S (ops w)) w)). by destruct (f (setOps (S (ops w)) w)).
Qed.

Lemma keeps_redis_get key : keeps storedOk (redis_get key).
Proof. apply keeps_same_orders, redisCommand_same_orders. done. Qed.

Lemma keeps_redis_setEx key seconds value : keeps storedOk (redis_setEx key seconds value).
Proof. apply keeps_same_orders, redisCommand_same_orders. done. Qed.

Lemma keeps_redis_del key : keeps storedOk (redis_del key).
Proof. apply keeps_same_orders, redisCommand_same_orders. done. Qed.

Lemma keeps_emit room event orderId : keeps storedOk (emit room event orderId).
Proof. by apply keeps_same_orders. Qed.

Lemma keeps_setTimeout t ms : keeps storedOk (setTimeout t ms).
Proof. by apply keeps_same_orders. Qed.

Lemma keeps_clock : keeps storedOk clock.
Proof. apply keeps_gets. Qed.

Lemma keeps_User_findByIdAndUpdate id update :
  keeps storedOk (User_findByIdAndUpdate id update).
Proof. by apply keeps_same_orders. Qed.

Lemma keeps_Order_findOne orderId : keeps storedOk (Order_findOne orderId).
Proof. apply keeps_gets. Qed.

Lemma keeps_Order_find p : keeps storedOk (Order_find p).
Proof. apply keeps_gets. Qed.

(** [save] stores the document under its identifier, and only when it passes
    validation. *)
Lemma keeps_save : keeps (held storedOk) save.
Proof.
  intros [o w] Hw. unfold save, held in *. cbn [fst snd] in *.
  destruct (validate o) eqn:Hv; [done|]. cbn.
  intros k o' Hk. cbn [orders setOrders] in Hk.
  apply lookup_insert_Some in Hk as [[<- <-]|[_ Hk]]; [done|by apply Hw].
Qed.

Ltac keeps_step :=
  first
    [ apply keeps_ret | apply keeps_throw | apply keeps_gets
    | apply keeps_getDoc | apply keeps_modifyDoc | apply keeps_save
    | apply keeps_redis_get | apply keeps_redis_setEx | apply keeps_redis_del
    | apply keeps_emit | apply keeps_setTimeout | apply keeps_clock
    | apply keeps_User_findByIdAndUpdate | apply keeps_Order_findOne | apply keeps_Order_find
    | apply keeps_lift | apply keeps_withDoc
    | apply keeps_bind; [|intros ?] | apply keeps_tryCatch; [|intros ?]
    | match goal with
      | |- keeps _ (if ?b then _ else _) => destruct b
      | |- keeps _ (match ?x with _ => _ end) => destruct x
      end ].

Lemma keeps_markOrderAsFailed orderId reason : keeps storedOk (markOrderAsFailed orderId reason).
Proof. unfold markOrderAsFailed. repeat keeps_step. Qed.

Lemma keeps_handleDriverResponse orderId driverId response :
  keeps storedOk (handleDriverResponse orderId driverId response).
Proof.
  unfold handleDriverResponse. cbv zeta.
  repeat first [apply keeps_markOrderAsFailed | keeps_step].
Qed.

Lemma keeps_cleanupExpiredLocks : keeps storedOk cleanupExpiredLocks.
Proof.
  unfold cleanupExpiredLocks.
  repeat first [apply keeps_forEach; intros ?; unfold cleanupExpiredLock | keeps_step].
Qed.

Section Service.

Variable mongoDistance : Value -> Value -> Z.
Variable calculateDistance : Value -> Value -> Z.
Variable ORDER_LOCK_TIMEOUT : option Z.

Lemma keeps_offerOrderToDriver driver :
  keeps (held storedOk) (offerOrderToDriver ORDER_LOCK_TIMEOUT driver).
Proof. unfold offerOrderToDriver. cbv zeta. repeat keeps_step. Qed.

Lemma keeps_offerLoop lockKey drivers :
  keeps (held storedOk) (offerLoop ORDER_LOCK_TIMEOUT lockKey drivers).
Proof.
  induction drivers as [|driver rest IH]; cbn [offerLoop]; [apply keeps_ret|].
  apply keeps_bind; [apply keeps_offerOrderToDriver|].
  intros reply. destruct (success reply); [repeat keeps_step|exact IH].
Qed.

Lemma keeps_assignOrder orderId :
  keeps storedOk (assignOrder mongoDistance calculateDistance ORDER_LOCK_TIMEOUT orderId).
Proof.
  unfold assignOrder, findNearbyDrivers, User_findNear. cbv zeta.
  repeat first [apply keeps_offerLoop | keeps_step].
Qed.

Lemma keeps_runTask t :
  keeps storedOk (runTask mongoDistance calculateDistance ORDER_LOCK_TIMEOUT t).
Proof.
  destruct t as [orderId]. cbn [runTask].
  repeat first [apply keeps_assignOrder | apply keeps_markOrderAsFailed | keeps_step].
Qed.

(** X7.  Starting from a collection in which every order is stored under its
    own identifier and passes the schema's validators, every method of the
    service leaves such a collection, whatever Redis does: orders are written
    by [save] alone, which validates.  In particular no stored order ever
    has a status outside the schema's seven, such as [failed]. *)
Theorem service_stores_valid_orders w :
  storedOk w ->
  (forall orderId,
      storedOk (snd (assignOrder mongoDistance calculateDistance ORDER_LOCK_TIMEOUT orderId w))) /\
  (forall orderId driverId response,
      storedOk (snd (handleDriverResponse orderId driverId response w))) /\
  storedOk (snd (cleanupExpiredLocks w)) /\
  (forall orderId reason, storedOk (snd (markOrderAsFailed orderId reason w))) /\
  (forall t, storedOk (snd (runTask mongoDistance calculateDistance ORDER_LOCK_TIMEOUT t w))) /\
  (forall k o, orders w !! k = Some o -> status o <> "failed").
Proof.
  intros Hw. refine (conj _ (conj _ (conj _ (conj _ (conj _ _))))).
  - intros orderId. by apply keeps_assignOrder.
  - intros orderId driverId response. by apply keeps_handleDriverResponse.
  - by apply keeps_cleanupExpiredLocks.
  - intros orderId reason. by apply keeps_markOrderAsFailed.
  - intros t. by apply keeps_runTask.
  - intros k o Hk Hs. destruct (Hw k o Hk) as [_ Hv].
    apply OrderAssignmentFacts.validate_None in Hv as (Hv & _). by rewrite Hs in Hv.
Qed.

End Service.

(** ** Who changes the availability of drivers *)

(** A property of the User collection alone. *)
Definition onUsers (Q : list User -> Prop) : World -> Prop := fun w => Q (users w).

Lemma keeps_same_users {A} Q (m : M World A) :
  (forall w, users (snd (m w)) = users w) -> keeps (onUsers Q) m.
Proof. intros H w Hw. unfold onUsers. by rewrite H. Qed.

Lemma redisCommand_same_users {A} (f : World -> A * World) :
  (forall w, users (snd (f w)) = users w) ->
  forall w, users (snd (redisCommand f w)) = users w.
Proof.
  intros H w. unfold redisCommand. destruct (faults w (ops w)); [done|].
  specialize (H (setOps (S (ops w)) w)). by destruct (f (setOps (S (ops w)) w)).
Qed.

Lemma users_redis_get Q key : keeps (onUsers Q) (redis_get key).
Proof. apply keeps_same_users, redisCommand_same_users. done. Qed.

Lemma users_redis_setEx Q key seconds value : keeps (onUsers Q) (redis_setEx key seconds value).
Proof. apply keeps_same_users, redisCommand_same_users. done. Qed.

Lemma users_redis_del Q key : keeps (onUsers Q) (redis_del key).
Proof. apply keeps_same_users, redisCommand_same_users. done. Qed.

Lemma users_emit Q room event orderId : keeps (onUsers Q) (emit room event orderId).
Proof. by apply keeps_same_users. Qed.

Lemma users_setTimeout Q t ms : keeps (onUsers Q) (setTimeout t ms).
Proof. by apply keeps_same_users. Qed.

Lemma users_save Q : keeps (held (onUsers Q)) save.
Proof.
  intros [o w] Hw. unfold save, held, onUsers in *. cbn [fst snd] in *.
  by destruct (validate o).
Qed.

(** The update of an accept, applied to a collection. *)
Definition madeUnavailable (driverId : string) (l : list User) : list User :=
  map (fun u => if String.eqb (userId u) driverId then setIsAvailable false u else u) l.

Lemma madeUnavailable_twice driverId l :
  madeUnavailable driverId (madeUnavailable driverId l) = madeUnavailable driverId l.
Proof.
  unfold madeUnavailable. rewrite map_map. apply map_ext. intros u.
  destruct (String.eqb (userId u) driverId) eqn:E; cbn; by rewrite E.
Qed.

(** The collection is the one given, possibly after the update of an accept. *)
Definition atMostAccepted (driverId : string) (before : list User) : World -> Prop :=
  onUsers (fun l => l = before \/ l = madeUnavailable driverId before).

Lemma accepted_findByIdAndUpdate driverId before :
  keeps (atMostAccepted driverId before)
        (User_findByIdAndUpdate driverId (setIsAvailable false)).
Proof.
  intros w [Hw|Hw]; unfold User_findByIdAndUpdate, modify, atMostAccepted, onUsers;
    cbn; fold (madeUnavailable driverId (users w)); rewrite Hw; right;
    [done|apply madeUnavailable_twice].
Qed.

Ltac users_step :=
  first
    [ apply keeps_ret | apply keeps_throw | apply keeps_gets
    | apply keeps_getDoc | apply keeps_modifyDoc | apply users_save
    | apply users_redis_get | apply users_redis_setEx | apply users_redis_del
    | apply users_emit | apply users_setTimeout
    | apply keeps_lift | apply keeps_withDoc
    | apply keeps_bind; [|intros ?] | apply keeps_tryCatch; [|intros ?]
    | match goal with
      | |- keeps _ (if ?b then _ else _) => destruct b
      | |- keeps _ (match ?x with _ => _ end) => destruct x
      end ].

Lemma users_markOrderAsFailed Q orderId reason :
  keeps (onUsers Q) (markOrderAsFailed orderId reason).
Proof. unfold markOrderAsFailed, Order_findOne, clock. repeat users_step. Qed.

Lemma users_cleanupExpiredLocks Q : keeps (onUsers Q) cleanupExpiredLocks.
Proof.
  unfold cleanupExpiredLocks, Order_find, clock.
  repeat first [apply keeps_forEach; intros ?; unfold cleanupExpiredLock, clock | users_step].
Qed.

Lemma users_decline Q orderId driverId response :
  String.eqb response "accept" = false ->
  keeps (onUsers Q) (handleDriverResponse orderId driverId response).
Proof.
  intros Hr. unfold handleDriverResponse, Order_findOne, clock. cbv zeta. rewrite !Hr.
  repeat first [apply users_markOrderAsFailed | users_step].
Qed.

Lemma users_response driverId before orderId response :
  keeps (atMostAccepted driverId before) (handleDriverResponse orderId driverId response).
Proof.
  unfold handleDriverResponse, Order_findOne, clock, atMostAccepted. cbv zeta.
  repeat first [apply users_markOrderAsFailed
               | apply (accepted_findByIdAndUpdate driverId before)
               | users_step].
Qed.

Section AvailabilityOfDrivers.

Variable mongoDistance : Value -> Value -> Z.
Variable calculateDistance : Value -> Value -> Z.
Variable ORDER_LOCK_TIMEOUT : option Z.

Lemma users_offerLoop Q lockKey drivers :
  keeps (held (onUsers Q)) (offerLoop ORDER_LOCK_TIMEOUT lockKey drivers).
Proof.
  induction drivers as [|driver rest IH]; cbn [offerLoop]; [apply keeps_ret|].
  apply keeps_bind.
  - unfold offerOrderToDriver, clock. cbv zeta. repeat users_step.
  - intros reply. destruct (success reply); [repeat users_step|exact IH].
Qed.

Lemma users_assignOrder Q orderId :
  keeps (onUsers Q) (assignOrder mongoDistance calculateDistance ORDER_LOCK_TIMEOUT orderId).
Proof.
  unfold assignOrder, findNearbyDrivers, User_findNear, Order_findOne. cbv zeta.
  repeat first [apply users_offerLoop | users_step].
Qed.

(** X8.  The User collection, and with it the availability of drivers, is
    changed by an accept alone: [assignOrder], the retry callback,
    [cleanupExpiredLocks], [markOrderAsFailed] and every response other than
    an accept leave it as it is, and an accept leaves it as it is or sets
    [isAvailable] to false for the users with the accepting driver's
    identifier. *)
Theorem only_accept_changes_availability w :
  (forall orderId,
      users (snd (assignOrder mongoDistance calculateDistance ORDER_LOCK_TIMEOUT orderId w))
      = users w) /\
  (forall t,
      users (snd (runTask mongoDistance calculateDistance ORDER_LOCK_TIMEOUT t w)) = users w) /\
  users (snd (cleanupExpiredLocks w)) = users w /\
  (forall orderId reason, users (snd (markOrderAsFailed orderId reason w)) = users w) /\
  (forall orderId driverId response,
      String.eqb response "accept" = false ->
      users (snd (handleDriverResponse orderId driverId response w)) = users w) /\
  (forall orderId driverId,
      users (snd (handleDriverResponse orderId driverId "accept" w)) = users w \/
      users (snd (handleDriverResponse orderId driverId "accept" w))
      = madeUnavailable driverId (users w)).
Proof.
  refine (conj _ (conj _ (conj _ (conj _ (conj _ _))))).
  - intros orderId. by apply (users_assignOrder (fun l => l = users w)).
  - intros [orderId]. cbn [runTask].
    apply (keeps_tryCatch (onUsers (fun l => l = users w))); [|intros e| done].
    + apply keeps_bind; [apply users_assignOrder|intros ?; apply keeps_ret].
    + apply users_markOrderAsFailed.
  - by apply (users_cleanupExpiredLocks (fun l => l = users w)).
  - intros orderId reason. by apply (users_markOrderAsFailed (fun l => l = users w)).
  - intros orderId driverId response Hr.
    by apply (users_decline (fun l => l = users w)).
  - intros orderId driverId. apply (users_response driverId (users w)). by left.
Qed.

End AvailabilityOfDrivers.

End StoredOrdersFacts.

(* ===================================================================== *)
(** * Offers, responses and sweeps, one after the other *)
(* ===================================================================== *)

Module DispatchFacts.
Import Js Eff OrderModel OrderAssignmentService OrderAssignmentFacts StoredOrdersFacts.

(** ** Counting the resolved attempts *)

Definition resolvedIn (l : list Attempt) : nat :=
  length (List.filter (fun attempt => negb (isPending attempt)) l).

Lemma resolvedIn_alter driverId answer t l i :
  String.eqb answer "pending" = false ->
  findIndex (pendingFor driverId) l = Some i ->
  resolvedIn (alter (respond answer t) i l) = S (resolvedIn l).
Proof.
  intros Ha. revert i. induction l as [|a l IH]; intros i; cbn; [done|].
  destruct (pendingFor driverId a) eqn:Hp.
  - intros [= <-]. unfold pendingFor in Hp. apply andb_true_iff in Hp as [_ Hp].
    cbn. unfold resolvedIn. cbn. unfold isPending at 1. cbn [response respond].
    rewrite Ha, Hp. reflexivity.
  - destruct (findIndex (pendingFor driverId) l) as [k|]; cbn; [|done].
    intros [= <-]. cbn. unfold resolvedIn in *. cbn.
    destruct (negb (isPending a)); cbn; by rewrite (IH k).
Qed.

Lemma resolvedIn_offer driverId t l :
  resolvedIn (l ++ [mkAttempt driverId t "pending" None]) = resolvedIn l.
Proof. unfold resolvedIn. rewrite List.filter_app, List.length_app. cbn. lia. Qed.

Lemma findIndex_offer driverId t l :
  exists i, findIndex (pendingFor driverId) (l ++ [mkAttempt driverId t "pending" None])
            = Some i.
Proof.
  destruct (findIndex _ _) as [i|] eqn:E; [by exists i|].
  apply findIndex_None in E. rewrite forallb_app in E.
  apply andb_true_iff in E as [_ E]. cbn in E.
  unfold pendingFor in E. cbn in E. by rewrite String.eqb_refl in E.
Qed.

Lemma resolved_answered driverId answer t o i :
  String.eqb answer "pending" = false ->
  findIndex (pendingFor driverId) (assignmentAttempts o) = Some i ->
  resolvedAttempts (answered driverId answer t o) = S (resolvedAttempts o).
Proof.
  intros Ha Hi. unfold resolvedAttempts, answered. rewrite Hi.
  by apply (resolvedIn_alter driverId).
Qed.

(** ** [offerOrderToDriver] *)

Section Offer.

Variable ORDER_LOCK_TIMEOUT : option Z.

Local Abbreviation offer := (offerOrderToDriver ORDER_LOCK_TIMEOUT).
Local Abbreviation seconds := (lockTimeout ORDER_LOCK_TIMEOUT).

(** The document after the first and after the second save of an offer to
    [driverId] at the instant [t]. *)
Definition lockedOrder (driverId : string) (t : Z) (o : Order) : Order :=
  lockForDriver driverId (ofZ seconds / 60)%float t o.

Definition offeredTo (driverId : string) (t : Z) (o : Order) : Order :=
  setAssignmentAttempts
    (assignmentAttempts o ++ [mkAttempt driverId t "pending" None])%list
    (lockedOrder driverId t o).

(** Neither of the two checks of [offerOrderToDriver] refuses. *)
Definition offerable (w : World) (o : Order) (driverId : string) : Prop :=
  present (redis w !! ("driver_lock:" +:+ driverId)) = false /\
  present (redis w !! ("order_lock:" +:+ orderId o))
  && negb (isString (redis w !! ("order_lock:" +:+ orderId o)) driverId) = false.

Lemma validate_lockedOrder driverId t o :
  validate o = None -> validate (lockedOrder driverId t o) = None.
Proof. rewrite !validate_None. done. Qed.

Lemma validate_offeredTo driverId t o :
  validate o = None -> validate (offeredTo driverId t o) = None.
Proof.
  rewrite !validate_None. intros (Hs & Hp & Ha). repeat split; [done..|].
  unfold offeredTo. cbn [assignmentAttempts setAssignmentAttempts].
  rewrite forallb_app, Ha. reflexivity.
Qed.

Ltac step := cbn -[lookup insert delete String.append validate present isString
                   lockedOrder offeredTo lockForDriver lockTimeout].

(** What an offer that got its locks returns and emits: with the customer's
    document, success and the event; without it, the payload cannot be built
    and the offer is reported as failed. *)
Definition offerOutcome (w : World) (driver : Candidate) (o : Order) : Reply * list Emit :=
  match customerOf w o with
  | Some _ =>
      (mkReply true None (Some "Order offered to driver")
               (Some (userId (user driver))) (Some seconds) None,
       mkEmit ("driver:" +:+ userId (user driver)) "new_order_offer" (orderId o) :: emitted w)
  | None => (failure "Failed to offer order to driver", emitted w)
  end.

Lemma offer_run driver o w :
  storeReachable w ->
  validate o = None ->
  offerable w o (userId (user driver)) ->
  offer driver (o, w)
  = (Ok (fst (offerOutcome w driver o)),
     (offeredTo (userId (user driver)) (now w) o,
      mkWorld (<[orderId o := offeredTo (userId (user driver)) (now w) o]> (orders w))
              (users w)
              (<["order_lock:" +:+ orderId o := userId (user driver)]>
                 (<["driver_lock:" +:+ userId (user driver) := orderId o]> (redis w)))
              (snd (offerOutcome w driver o))
              (timers w) (now w) (faults w) (4 + ops w))).
Proof.
  intros Hr Hv [Hd Hk].
  unfold offerOrderToDriver, tryCatch, bind, getDoc, lift, redis_get, redis_setEx,
    redisCommand, clock, User_findById, gets, modifyDoc, save, emit, modify, ret, throw.
  step. rewrite Hr, Hd. step. rewrite Hr, Hk. step. rewrite Hr. step. rewrite Hr. step.
  change (lockForDriver _ _ _ _) with (lockedOrder (userId (user driver)) (now w) o).
  rewrite validate_lockedOrder by done. step.
  change (setAssignmentAttempts _ _) with (offeredTo (userId (user driver)) (now w) o).
  rewrite validate_offeredTo by done. step.
  rewrite insert_insert_eq. unfold offerOutcome.
  change (find (fun u => String.eqb (userId u) (customer o)) (users w)) with (customerOf w o).
  destruct (customerOf w o); reflexivity.
Qed.

(** X9.  An offer to a driver who holds no lock, of a valid order that no
    other driver holds, with Redis reachable: the two lock keys name each
    other; the order is stored locked by the driver, with the date of expiry
    that [lockForDriver] computes in doubles from [lockTimeout / 60]
    minutes, and with a pending attempt of the driver at the end of its
    history; users and timers are as before.  With a User document for the
    order's customer the offer is then sent to the driver's room and
    reported as placed.  Without one the payload cannot be built: the offer
    is reported as failed and nothing is sent, although the locks are
    placed. *)
Theorem offer_places_lock driver o w :
  storeReachable w ->
  validate o = None ->
  offerable w o (userId (user driver)) ->
  let driverId := userId (user driver) in
  let w' := snd (snd (offer driver (o, w))) in
  lockKeysConsistent w' (orderId o) driverId /\
  (exists o',
      orders w' !! orderId o = Some o' /\
      isLocked o' = true /\ lockedBy o' = Some driverId /\
      lockExpiration o' = timeClip (ofZ (now w) + ofZ seconds / 60 * 60 * 1000)%float /\
      assignmentAttempts o'
      = (assignmentAttempts o ++ [mkAttempt driverId (now w) "pending" None])%list /\
      status o' = status o /\ OrderModel.driver o' = OrderModel.driver o) /\
  users w' = users w /\ timers w' = timers w /\
  (forall customerDoc,
      customerOf w o = Some customerDoc ->
      fst (offer driver (o, w))
      = Ok (mkReply true None (Some "Order offered to driver")
                    (Some driverId) (Some seconds) None) /\
      emitted w'
      = mkEmit ("driver:" +:+ driverId) "new_order_offer" (orderId o) :: emitted w) /\
  (customerOf w o = None ->
   fst (offer driver (o, w)) = Ok (failure "Failed to offer order to driver") /\
   emitted w' = emitted w).
Proof.
  intros Hr Hv Hf driverId w'. subst driverId w'. rewrite offer_run by done.
  cbn [fst snd orders redis emitted users timers].
  split; [|split; [|split; [done|split; [done|split]]]].
  - unfold lockKeysConsistent. cbn [redis]. split; [|apply lookup_insert_eq].
    rewrite lookup_insert_ne by (intros E; symmetry in E; by apply driver_key_not_order_key in E).
    apply lookup_insert_eq.
  - eexists. split; [apply lookup_insert_eq|]. done.
  - intros c Hc. unfold offerOutcome. by rewrite Hc.
  - intros Hc. unfold offerOutcome. by rewrite Hc.
Qed.

(** X10.  The store goes down between the two [SETEX] of an offer: the
    offer is reported as failed, nothing is saved or emitted, and the driver's
    key stays set without the order's key. *)
Theorem offer_interrupted_leaves_driver_key driver o w :
  faults w (ops w) = false ->
  faults w (S (ops w)) = false ->
  faults w (S (S (ops w))) = false ->
  faults w (S (S (S (ops w)))) = true ->
  offerable w o (userId (user driver)) ->
  let w' := snd (snd (offer driver (o, w))) in
  fst (offer driver (o, w)) = Ok (failure "Failed to offer order to driver") /\
  redis w' !! ("driver_lock:" +:+ userId (user driver)) = Some (orderId o) /\
  redis w' !! ("order_lock:" +:+ orderId o) = redis w !! ("order_lock:" +:+ orderId o) /\
  fst (snd (offer driver (o, w))) = o /\
  orders w' = orders w /\ emitted w' = emitted w.
Proof.
  intros H0 H1 H2 H3 [Hd Hk] w'. subst w'.
  unfold offerOrderToDriver, tryCatch, bind, getDoc, lift, redis_get, redis_setEx,
    redisCommand, ret.
  step. rewrite H0, Hd. step. rewrite H1, Hk. step. rewrite H2. step. rewrite H3. step.
  repeat split.
  - apply lookup_insert_eq.
  - apply lookup_insert_ne. apply driver_key_not_order_key.
Qed.

(** X11.  While the two lock keys of an offer of [orderId] to [driverId] are
    set, with non-empty identifiers, no other offer gets through: any order
    offered to [driverId] is refused as the driver is busy, and [orderId]
    offered to a driver without a lock of their own is refused as locked.
    Nothing changes but the count of Redis commands. *)
Theorem outstanding_offer_excludes_others w orderId driverId :
  storeReachable w ->
  lockKeysConsistent w orderId driverId ->
  orderId <> "" ->
  driverId <> "" ->
  (forall driver o,
      userId (user driver) = driverId ->
      offer driver (o, w)
      = (Ok (failure "Driver is busy with another order"), (o, setOps (1 + ops w) w))) /\
  (forall driver o,
      OrderModel.orderId o = orderId ->
      userId (user driver) <> driverId ->
      present (redis w !! ("driver_lock:" +:+ userId (user driver))) = false ->
      offer driver (o, w)
      = (Ok (failure "Order is locked by another driver"), (o, setOps (2 + ops w) w))).
Proof.
  intros Hr [Hd Hk] Ho Hn. split.
  - intros driver o Hu.
    unfold offerOrderToDriver, tryCatch, bind, getDoc, lift, redis_get, redisCommand, ret.
    step. rewrite Hr, Hu, Hd. cbn -[String.append].
    apply String.eqb_neq in Ho. rewrite Ho. reflexivity.
  - intros driver o Hid Hu Hfree.
    unfold offerOrderToDriver, tryCatch, bind, getDoc, lift, redis_get, redisCommand, ret.
    step. rewrite Hr, Hfree. step. rewrite Hr, Hid, Hk.
    cbn -[String.append].
    apply String.eqb_neq in Hn. rewrite Hn.
    assert ((driverId =? userId (user driver))%string = false) as ->.
    { apply String.eqb_neq. congruence. }
    reflexivity.
Qed.

Lemma offered_world_ready driver o w :
  storeReachable w ->
  validate o = None ->
  offerable w o (userId (user driver)) ->
  let offered := snd (snd (offer driver (o, w))) in
  let o1 := offeredTo (userId (user driver)) (now w) o in
  orders offered !! orderId o = Some o1 /\
  validate o1 = None /\
  storeReachable offered /\
  lockKeysConsistent offered (orderId o) (userId (user driver)) /\
  now offered = now w /\ users offered = users w /\ timers offered = timers w /\
  redis offered
  = <["order_lock:" +:+ orderId o := userId (user driver)]>
      (<["driver_lock:" +:+ userId (user driver) := orderId o]> (redis w)).
Proof.
  intros Hr Hv Hf offered o1. subst offered o1. rewrite offer_run by done.
  cbn [fst snd orders redis now users timers].
  split; [apply lookup_insert_eq|]. split; [by apply validate_offeredTo|].
  split; [exact Hr|]. split; [|done].
  unfold lockKeysConsistent. cbn [redis]. split; [|apply lookup_insert_eq].
  rewrite lookup_insert_ne by (intros E; symmetry in E; by apply driver_key_not_order_key in E).
  apply lookup_insert_eq.
Qed.

(** X12.  An offer whose locks were placed and which the driver then
    accepts: the order is stored as accepted by that driver with its lock
    fields cleared, one more attempt of its history is resolved, both lock
    keys are gone and the driver is unavailable.  With a User document for
    the order's customer the accept returns success; without one it throws
    on [order.customer._id] once all of this is done. *)
Theorem offer_then_accept driver o w :
  storeReachable w ->
  validate o = None ->
  offerable w o (userId (user driver)) ->
  let driverId := userId (user driver) in
  let offered := snd (snd (offer driver (o, w))) in
  let w' := snd (handleDriverResponse (orderId o) driverId "accept" offered) in
  (exists o',
      orders w' !! orderId o = Some o' /\
      status o' = "accepted" /\ OrderModel.driver o' = Some driverId /\
      isLocked o' = false /\ lockedBy o' = None /\ lockExpiration o' = None /\
      resolvedAttempts o' = S (resolvedAttempts o) /\
      length (assignmentAttempts o') = S (length (assignmentAttempts o))) /\
  redis w' !! ("driver_lock:" +:+ driverId) = None /\
  redis w' !! ("order_lock:" +:+ orderId o) = None /\
  users w' = madeUnavailable driverId (users w) /\
  (forall customerDoc,
      customerOf w o = Some customerDoc ->
      fst (handleDriverResponse (orderId o) driverId "accept" offered)
      = Ok (mkReply true None (Some "Order accepted successfully") None None
                    (Some (orderId o)))) /\
  (customerOf w o = None ->
   fst (handleDriverResponse (orderId o) driverId "accept" offered) = Throw NoCustomerId).
Proof.
  intros Hr Hv Hf driverId offered w'.
  destruct (offered_world_ready driver o w Hr Hv Hf)
    as (Ho & Hv1 & Hr1 & Hk & Hnow & Hu & _ & _).
  fold offered driverId in Ho, Hv1, Hr1, Hk, Hnow, Hu. subst w'.
  rewrite (accept_run offered (orderId o) driverId _ Ho Hv1 Hr1 Hk).
  cbn [fst snd orders redis users].
  set (o1 := offeredTo driverId (now w) o) in *.
  assert (orderId o1 = orderId o) as Hid by done.
  assert (customerOf offered o1 = customerOf w o) as Hc.
  { unfold customerOf. by rewrite Hu. }
  destruct (findIndex_offer driverId (now w) (assignmentAttempts o)) as [i Hi].
  split; [|split; [|split; [|split; [|split]]]]; cycle 4.
  { intros c Hc'. unfold acceptOutcome. by rewrite Hc, Hc'. }
  { intros Hc'. unfold acceptOutcome. by rewrite Hc, Hc'. }
  - eexists. split; [rewrite Hid; apply lookup_insert_eq|].
    unfold acceptedOrder. cbn.
    split; [done|]. split; [done|]. split; [done|]. split; [done|]. split; [done|].
    split.
    + change (resolvedAttempts (answered driverId "accepted" (now offered) o1)
              = S (resolvedAttempts o)).
      rewrite (resolved_answered driverId "accepted" (now offered) o1 i eq_refl Hi).
      unfold resolvedAttempts. f_equal. apply resolvedIn_offer.
    + unfold answered. change (assignmentAttempts o1) with
        (assignmentAttempts o ++ [mkAttempt driverId (now w) "pending" None])%list.
      rewrite Hi. cbn. rewrite length_alter, length_app. cbn. lia.
  - rewrite lookup_delete_ne by (symmetry; apply driver_key_not_order_key).
    apply lookup_delete_eq.
  - apply lookup_delete_eq.
  - by rewrite Hu.
Qed.

(** X13.  An offer that was placed and is then declined: the order is
    stored unlocked with the status and the driver it had, one more attempt
    of its history is resolved, both lock keys are gone and every other key
    is as before the offer, so that the order can be offered to the same
    driver again; a retry is set exactly when fewer than ten attempts are
    resolved by now. *)
Theorem offer_then_decline driver o w response :
  storeReachable w ->
  validate o = None ->
  offerable w o (userId (user driver)) ->
  String.eqb response "accept" = false ->
  let driverId := userId (user driver) in
  let offered := snd (snd (offer driver (o, w))) in
  let w' := snd (handleDriverResponse (orderId o) driverId response offered) in
  fst (handleDriverResponse (orderId o) driverId response offered)
  = Ok (mkReply true None (Some "Order declined, trying next driver") None None None) /\
  (exists o',
      orders w' !! orderId o = Some o' /\
      orderId o' = orderId o /\ status o' = status o /\
      OrderModel.driver o' = OrderModel.driver o /\
      isLocked o' = false /\ lockedBy o' = None /\ lockExpiration o' = None /\
      resolvedAttempts o' = S (resolvedAttempts o) /\
      offerable w' o' driverId) /\
  (forall key,
      key <> "driver_lock:" +:+ driverId -> key <> "order_lock:" +:+ orderId o ->
      redis w' !! key = redis w !! key) /\
  users w' = users w /\
  timers w' = if (S (resolvedAttempts o) <? 10)%nat
              then mkTimer 2000 (RetryAssignment (orderId o)) :: timers w
              else timers w.
Proof.
  intros Hr Hv Hf Hresp driverId offered w'.
  destruct (offered_world_ready driver o w Hr Hv Hf)
    as (Ho & Hv1 & Hr1 & Hk & Hnow & Hu & Ht & Hredis).
  fold offered driverId in Ho, Hv1, Hr1, Hk, Hnow, Hu, Ht, Hredis. subst w'.
  rewrite (decline_run offered (orderId o) driverId response _ Ho Hv1 Hr1 Hk Hresp).
  cbn [fst snd orders redis users timers]. split; [done|].
  set (o1 := offeredTo driverId (now w) o) in *.
  assert (orderId o1 = orderId o) as Hid by done.
  destruct (findIndex_offer driverId (now w) (assignmentAttempts o)) as [i Hi].
  assert (resolvedAttempts (declinedOrder driverId (now offered) o1) = S (resolvedAttempts o))
    as Hcount.
  { change (resolvedAttempts (answered driverId "declined" (now offered) o1)
            = S (resolvedAttempts o)).
    rewrite (resolved_answered driverId "declined" (now offered) o1 i eq_refl Hi).
    unfold resolvedAttempts. f_equal. apply resolvedIn_offer. }
  destruct (declinedOrder_keeps driverId (now offered) o1) as (Hid' & _ & Hs).
  split; [|split; [|split]].
  - eexists. split; [rewrite Hid; apply lookup_insert_eq|].
    split; [by rewrite Hid'|]. split; [by rewrite Hs|].
    split. { unfold declinedOrder, answered. by destruct (findIndex _ _). }
    split; [done|]. split; [done|]. split; [done|]. split; [exact Hcount|].
    unfold offerable. cbn [redis]. rewrite Hid', Hid.
    rewrite lookup_delete_eq.
    rewrite lookup_delete_ne by (symmetry; apply driver_key_not_order_key).
    by rewrite lookup_delete_eq.
  - intros key Hkd Hko. rewrite !lookup_delete_ne by done.
    rewrite Hredis, !lookup_insert_ne by done. reflexivity.
  - exact Hu.
  - rewrite Hcount, Ht. reflexivity.
Qed.

End Offer.

(** ** Responses that are refused *)

Lemma isString_true v s : isString v s = true <-> v = Some s.
Proof.
  destruct v as [s'|]; cbn; [|done].
  rewrite String.eqb_eq. split; congruence.
Qed.

Lemma stale_run w orderId driverId response o :
  orders w !! orderId = Some o ->
  faults w (ops w) = false ->
  faults w (S (ops w)) = false ->
  ~ lockKeysConsistent w orderId driverId ->
  handleDriverResponse orderId driverId response w
  = (Throw StaleOrExpiredOffer, setOps (2 + ops w) w).
Proof.
  intros Ho H0 H1 Hk.
  unfold handleDriverResponse, tryCatch, bind, Order_findOne, gets, withDoc, lift,
    redis_get, redisCommand, throw.
  cbn -[lookup String.append isString]. rewrite Ho.
  cbn -[lookup String.append isString]. rewrite H0.
  cbn -[lookup String.append isString]. rewrite H1.
  cbn -[lookup String.append isString].
  destruct (isString (redis w !! ("driver_lock:" +:+ driverId)) orderId) eqn:Ed;
    [|reflexivity].
  destruct (isString (redis w !! ("order_lock:" +:+ orderId)) driverId) eqn:Ek;
    [|reflexivity].
  apply isString_true in Ed, Ek. destruct Hk. by split.
Qed.

(** X14.  A response for an order without the two lock keys of an offer to
    that driver, for instance after the keys have expired, is refused with
    [Invalid or expired lock] after the two reads; nothing is written. *)
Theorem response_without_offer_is_refused w orderId driverId response o :
  orders w !! orderId = Some o ->
  faults w (ops w) = false ->
  faults w (S (ops w)) = false ->
  ~ lockKeysConsistent w orderId driverId ->
  handleDriverResponse orderId driverId response w
  = (Throw StaleOrExpiredOffer, setOps (2 + ops w) w).
Proof. apply stale_run. Qed.

(** X15.  An offer is answered once: after an accept or a decline under
    consistent lock keys, any further response for the order, by any driver,
    is refused with [Invalid or expired lock] and changes nothing. *)
Theorem response_is_given_once w orderId driverId response o driverId' response' :
  orders w !! orderId = Some o ->
  validate o = None ->
  storeReachable w ->
  lockKeysConsistent w orderId driverId ->
  let w' := snd (handleDriverResponse orderId driverId response w) in
  handleDriverResponse orderId driverId' response' w'
  = (Throw StaleOrExpiredOffer, setOps (2 + ops w') w').
Proof.
  intros Ho Hv Hr Hk w'.
  assert (exists o', orders w' !! orderId = Some o') as [o' Ho'].
  { subst w'. destruct (String.eqb response "accept") eqn:E.
    - apply String.eqb_eq in E as ->. rewrite (accept_run w orderId driverId o) by done.
      cbn [snd orders].
      destruct (decide (OrderModel.orderId o = orderId)) as [->|Hne].
      + eexists. apply lookup_insert_eq.
      + exists o. by rewrite lookup_insert_ne.
    - rewrite (decline_run w orderId driverId response o) by done.
      cbn [snd orders].
      destruct (decide (OrderModel.orderId o = orderId)) as [->|Hne].
      + eexists. apply lookup_insert_eq.
      + exists o. by rewrite lookup_insert_ne. }
  assert (storeReachable w' /\ redis w' !! ("order_lock:" +:+ orderId) = None) as [Hr' Hgone].
  { subst w'. destruct (String.eqb response "accept") eqn:E.
    - apply String.eqb_eq in E as ->. rewrite (accept_run w orderId driverId o) by done.
      cbn [snd redis]. split; [exact Hr|apply lookup_delete_eq].
    - rewrite (decline_run w orderId driverId response o) by done.
      cbn [snd redis]. split; [exact Hr|apply lookup_delete_eq]. }
  apply (stale_run w' orderId driverId' response' o' Ho'); [apply Hr'..|].
  intros [_ Hk']. congruence.
Qed.

Lemma order_is_checked_first mongoDistance calculateDistance ORDER_LOCK_TIMEOUT w orderId :
  (orders w !! orderId = None ->
   assignOrder mongoDistance calculateDistance ORDER_LOCK_TIMEOUT orderId w
   = (Throw NotFound, w)) /\
  (orders w !! orderId = None ->
   forall driverId response,
     handleDriverResponse orderId driverId response w = (Throw NotFound, w)) /\
  (forall o,
      orders w !! orderId = Some o -> status o <> "pending" ->
      assignOrder mongoDistance calculateDistance ORDER_LOCK_TIMEOUT orderId w
      = (Throw InvalidState, w)).
Proof.
  split; [|split].
  - intros Ho. unfold assignOrder, tryCatch, bind, Order_findOne, gets, throw.
    cbn -[lookup]. rewrite Ho. reflexivity.
  - intros Ho driverId response.
    unfold handleDriverResponse, tryCatch, bind, Order_findOne, gets, throw.
    cbn -[lookup]. rewrite Ho. reflexivity.
  - intros o Ho Hs. unfold assignOrder, tryCatch, bind, Order_findOne, gets, throw.
    cbn -[lookup String.eqb]. rewrite Ho.
    apply String.eqb_neq in Hs. rewrite Hs. reflexivity.
Qed.

(** X16.  An order that is not stored is reported as not found by
    [assignOrder] and by [handleDriverResponse], and an order that is stored
    with a status other than [pending] is refused by [assignOrder]; in the
    three cases no Redis command is issued and nothing changes. *)
Theorem order_is_checked_before_any_lock
  mongoDistance calculateDistance ORDER_LOCK_TIMEOUT w orderId :
  (orders w !! orderId = None ->
   assignOrder mongoDistance calculateDistance ORDER_LOCK_TIMEOUT orderId w
   = (Throw NotFound, w)) /\
  (orders w !! orderId = None ->
   forall driverId response,
     handleDriverResponse orderId driverId response w = (Throw NotFound, w)) /\
  (forall o,
      orders w !! orderId = Some o -> status o <> "pending" ->
      assignOrder mongoDistance calculateDistance ORDER_LOCK_TIMEOUT orderId w
      = (Throw InvalidState, w)).
Proof. apply order_is_checked_first. Qed.

(** X17.  [markOrderAsFailed] changes nothing, whatever the order and the
    reason: the save of the status [failed] is rejected by the schema and the
    error is swallowed.  The retry callback therefore never rejects and
    leaves the state in which its [assignOrder] ended: an order for which no
    driver was found stays pending and its customer is not notified. *)
Theorem failure_is_never_recorded mongoDistance calculateDistance ORDER_LOCK_TIMEOUT w :
  (forall orderId reason, markOrderAsFailed orderId reason w = (Ok tt, w)) /\
  (forall orderId,
      runTask mongoDistance calculateDistance ORDER_LOCK_TIMEOUT (RetryAssignment orderId) w
      = (Ok tt,
         snd (assignOrder mongoDistance calculateDistance ORDER_LOCK_TIMEOUT orderId w))).
Proof.
  split; [intros; apply markOrderAsFailed_changes_nothing|].
  intros orderId. cbn [runTask]. unfold tryCatch, bind, ret.
  destruct (assignOrder _ _ _ orderId w) as [[reply|e] w1]; cbn [snd]; [reflexivity|].
  apply markOrderAsFailed_changes_nothing.
Qed.

(** ** The marker of [assignOrder] *)

Section Marker.

Variable mongoDistance : Value -> Value -> Z.
Variable calculateDistance : Value -> Value -> Z.
Variable ORDER_LOCK_TIMEOUT : option Z.

Local Abbreviation offer := (offerOrderToDriver ORDER_LOCK_TIMEOUT).
Local Abbreviation loop := (offerLoop ORDER_LOCK_TIMEOUT).
Local Abbreviation assign := (assignOrder mongoDistance calculateDistance ORDER_LOCK_TIMEOUT).

Lemma reachable_redisCommand {A} (f : World -> A * World) :
  (forall w, faults (snd (f w)) = faults w) -> keeps storeReachable (redisCommand f).
Proof.
  intros H w Hw. unfold redisCommand. destruct (faults w (ops w)); [exact Hw|].
  specialize (H (setOps (S (ops w)) w)).
  destruct (f (setOps (S (ops w)) w)) as [a w1]. cbn [snd] in *.
  intros n. rewrite H. apply Hw.
Qed.

Lemma reachable_save : keeps (held storeReachable) save.
Proof.
  intros [o w] Hw. unfold save, held in *. cbn [fst snd] in *.
  by destruct (validate o).
Qed.

Lemma reachable_offer driver : keeps (held storeReachable) (offer driver).
Proof.
  unfold offerOrderToDriver, redis_get, redis_setEx, clock, emit, modify. cbv zeta.
  repeat first
    [ apply keeps_ret | apply keeps_gets | apply keeps_getDoc | apply keeps_modifyDoc
    | apply reachable_save | apply reachable_redisCommand; intros ?; reflexivity
    | apply keeps_lift
    | apply keeps_bind; [|intros ?] | apply keeps_tryCatch; [|intros ?]
    | match goal with
      | |- keeps _ (if ?b then _ else _) => destruct b
      | |- keeps (held storeReachable) (fun _ => _) => by intros [? ?]
      | |- keeps storeReachable (fun _ => _) => by intros ?
      end ].
Qed.

(** With the store reachable the loop does not throw, and when it returns
    from inside it has deleted the marker. *)
Lemma loop_releases lockKey drivers ow :
  storeReachable (snd ow) ->
  (exists reply ow',
      loop lockKey drivers ow = (Ok (Some reply), ow') /\
      redis (snd ow') !! lockKey = None) \/
  (exists ow', loop lockKey drivers ow = (Ok None, ow') /\ storeReachable (snd ow')).
Proof.
  revert ow. induction drivers as [|driver rest IH]; intros ow Hr.
  - right. by exists ow.
  - destruct (offer_returns ORDER_LOCK_TIMEOUT driver ow) as (reply & ow1 & Ho).
    assert (storeReachable (snd ow1)) as Hr1.
    { pose proof (reachable_offer driver ow Hr) as Hf. by rewrite Ho in Hf. }
    cbn [offerLoop]. rewrite (bind_Ok _ _ _ _ _ Ho).
    destruct (success reply); [|by apply IH].
    left. destruct ow1 as [o1 w1]. cbn [snd] in Hr1.
    unfold bind, lift, redis_del, redisCommand, ret. cbn [snd fst]. rewrite Hr1.
    eexists _, _. split; [reflexivity|]. cbn [snd redis setRedis]. apply lookup_delete_eq.
Qed.

(** X18.  With Redis reachable, [assignOrder] never returns with a marker
    [order_assignment:{orderId}] that was not there when it was called:
    whether it placed an offer, found no driver, was refused by all, or
    rejected the order, the marker it set is deleted again. *)
Theorem assign_releases_marker w orderId :
  storeReachable w ->
  present (redis w !! ("order_assignment:" +:+ orderId)) = false ->
  present (redis (snd (assign orderId w)) !! ("order_assignment:" +:+ orderId)) = false.
Proof.
  intros Hr Hp.
  destruct (orders w !! orderId) as [o|] eqn:Ho.
  2:{ destruct (order_is_checked_first mongoDistance calculateDistance ORDER_LOCK_TIMEOUT
                  w orderId) as (Hnone & _ & _).
      by rewrite Hnone. }
  destruct (decide (status o = "pending")) as [Hs|Hs].
  2:{ destruct (order_is_checked_first mongoDistance calculateDistance ORDER_LOCK_TIMEOUT
                  w orderId) as (_ & _ & Hstate).
      by rewrite (Hstate o). }
  assert (storeReachable (markerSet orderId w)) as Hr' by exact Hr.
  destruct (found mongoDistance calculateDistance (pickupLocation o) 5 w) as [|c cs] eqn:Hfound.
  - rewrite (assign_no_candidates _ _ _ w orderId o) by done.
    rewrite give_up_run by done. cbn [snd redis setRedis].
    by rewrite lookup_delete_eq.
  - rewrite (assign_candidates _ _ _ w orderId o) by (try done; by rewrite Hfound).
    unfold withDoc.
    destruct (loop_releases ("order_assignment:" +:+ orderId)
                (take 5 (found mongoDistance calculateDistance (pickupLocation o) 5 w))
                (o, markerSet orderId w) Hr')
      as [(reply & ow' & -> & Hgone)|(ow' & -> & Hr1)].
    + cbn [settle snd]. by rewrite Hgone.
    + cbn [settle snd]. rewrite give_up_run by done. cbn [snd redis setRedis].
      by rewrite lookup_delete_eq.
Qed.

End Marker.

(** ** [cleanupExpiredLocks] *)

(** The second change that the sweep makes to an order. *)
Definition markTimeout (t : Z) (o : Order) : Order :=
  match last (assignmentAttempts o) with
  | Some lastAttempt =>
      if isPending lastAttempt then
        setAssignmentAttempts
          (alter (respond "timeout" t) (length (assignmentAttempts o) - 1)%nat
                 (assignmentAttempts o)) o
      else o
  | None => o
  end.

(** The document that the sweep saves for the order [o]. *)
Definition timedOut (t : Z) (o : Order) : Order := markTimeout t (releaseLock o).

Lemma timedOut_keeps t o :
  orderId (timedOut t o) = orderId o /\
  status (timedOut t o) = status o /\
  OrderModel.driver (timedOut t o) = OrderModel.driver o /\
  isLocked (timedOut t o) = false /\
  lockedBy (timedOut t o) = None /\
  lockExpiration (timedOut t o) = None /\
  length (assignmentAttempts (timedOut t o)) = length (assignmentAttempts o).
Proof.
  unfold timedOut, markTimeout. cbn [assignmentAttempts releaseLock setLock].
  destruct (last (assignmentAttempts o)) as [a|]; [|done].
  destruct (isPending a); [|done]. cbn. by rewrite length_alter.
Qed.

Lemma validate_timedOut t o : validate o = None -> validate (timedOut t o) = None.
Proof.
  rewrite !validate_None. intros (Hs & Hp & Ha).
  unfold timedOut, markTimeout. cbn [assignmentAttempts releaseLock setLock].
  destruct (last (assignmentAttempts o)) as [a|]; [|done].
  destruct (isPending a); [|done]. cbn.
  repeat split; [done..|]. by apply responses_valid_alter.
Qed.

(** No attempt is left pending at the end of the history. *)
Lemma timedOut_last t o a :
  last (assignmentAttempts (timedOut t o)) = Some a -> isPending a = false.
Proof.
  unfold timedOut, markTimeout. cbn [assignmentAttempts releaseLock setLock].
  destruct (last (assignmentAttempts o)) as [b|] eqn:Hb;
    cbn [assignmentAttempts releaseLock setLock]; [|by rewrite Hb].
  destruct (isPending b) eqn:Hp;
    cbn [assignmentAttempts releaseLock setLock]; [|rewrite Hb; congruence].
  cbn [assignmentAttempts setAssignmentAttempts].
  rewrite last_lookup, length_alter.
  replace (pred (length (assignmentAttempts o))) with (length (assignmentAttempts o) - 1)%nat
    by lia.
  rewrite list_lookup_alter_eq. rewrite last_lookup in Hb.
  replace (pred (length (assignmentAttempts o))) with (length (assignmentAttempts o) - 1)%nat
    in Hb by lia.
  rewrite Hb. cbn. by intros [= <-].
Qed.

Lemma sweep_one_run order w :
  validate order = None ->
  storeReachable w ->
  cleanupExpiredLock order w
  = (Ok tt,
     mkWorld (<[orderId order := timedOut (now w) order]> (orders w))
             (users w)
             (delete ("order_lock:" +:+ orderId order) (delete "driver_lock:null" (redis w)))
             (emitted w) (timers w) (now w) (faults w) (2 + ops w)).
Proof.
  intros Hv Hr.
  unfold cleanupExpiredLock, withDoc, bind, lift, save, modifyDoc, getDoc, clock, gets,
    redis_del, redisCommand.
  cbn -[lookup insert delete String.append validate releaseLock last alter].
  change (match last (assignmentAttempts (releaseLock order)) with
          | Some lastAttempt => _
          | None => _
          end) with (timedOut (now w) order).
  rewrite validate_timedOut by done.
  cbn -[lookup insert delete String.append validate timedOut].
  rewrite Hr. cbn -[lookup insert delete String.append validate timedOut].
  rewrite Hr. cbn -[lookup insert delete String.append validate timedOut].
  destruct (timedOut_keeps (now w) order) as (-> & _ & _ & _ & -> & _).
  reflexivity.
Qed.

Lemma forEach_sweeps l w :
  Forall (fun o => validate o = None) l ->
  storeReachable w ->
  exists w',
    forEach l cleanupExpiredLock w = (Ok tt, w') /\
    now w' = now w /\
    (forall k, k ∉ map orderId l -> orders w' !! k = orders w !! k) /\
    (NoDup (map orderId l) ->
     forall o, o ∈ l -> orders w' !! orderId o = Some (timedOut (now w) o)) /\
    (forall key, redis w !! key = None -> redis w' !! key = None) /\
    (forall o, o ∈ l -> redis w' !! ("order_lock:" +:+ orderId o) = None).
Proof.
  intros Hv. revert w. induction Hv as [|x l Hx Hl IH]; intros w Hr.
  - exists w. repeat split; try done.
    all: intros; exfalso; eapply not_elem_of_nil; eassumption.
  - cbn [forEach]. unfold bind. rewrite (sweep_one_run x w Hx Hr).
    match goal with |- context [forEach l cleanupExpiredLock ?s] => set (w1 := s) end.
    destruct (IH w1) as (w' & Hrun & Hnow & Hother & Hmine & Hdel & Hkey); [exact Hr|].
    exists w'. rewrite Hrun. split; [done|]. split; [exact Hnow|].
    split; [|split; [|split]].
    + intros k Hk. cbn [map] in Hk. apply not_elem_of_cons in Hk as [Hkx Hk].
      rewrite (Hother k Hk). subst w1. cbn [orders]. by rewrite lookup_insert_ne.
    + intros Hnd o Ho. cbn [map] in Hnd. apply NoDup_cons in Hnd as [Hfresh Hnd].
      apply elem_of_cons in Ho as [->|Ho].
      * rewrite (Hother _ Hfresh). subst w1. cbn [orders]. apply lookup_insert_eq.
      * exact (Hmine Hnd o Ho).
    + intros key Hnone. apply Hdel. subst w1. cbn [redis].
      rewrite !lookup_delete_None. auto.
    + intros o Ho. apply elem_of_cons in Ho as [->|Ho]; [|by apply Hkey].
      apply Hdel. subst w1. cbn [redis]. apply lookup_delete_eq.
Qed.

(** The orders that the sweep finds. *)
Definition expiredOrders (w : World) : list Order :=
  List.filter (isLockExpired (now w)) (map snd (map_to_list (orders w))).

Lemma expiredOrders_spec w o :
  o ∈ expiredOrders w <->
  (exists k, orders w !! k = Some o) /\ isLockExpired (now w) o = true.
Proof.
  unfold expiredOrders. rewrite list_elem_of_In, filter_In, <- list_elem_of_In.
  change (map snd (map_to_list (orders w))) with ((map_to_list (orders w)).*2).
  rewrite list_elem_of_fmap. split.
  - intros [([k o'] & -> & Hin) He]. split; [|done].
    exists k. by apply elem_of_map_to_list.
  - intros [[k Hk] He]. split; [|done].
    exists (k, o). split; [done|]. by apply elem_of_map_to_list.
Qed.

Lemma NoDup_ids (p : Order -> bool) (L : list (string * Order)) :
  (forall k o, (k, o) ∈ L -> orderId o = k) ->
  NoDup (L.*1) ->
  NoDup (map orderId (List.filter p (map snd L))).
Proof.
  induction L as [|[k o] L IH]; intros Hid Hnd; [constructor|].
  cbn in Hnd. apply NoDup_cons in Hnd as [Hfresh Hnd].
  assert (NoDup (map orderId (List.filter p (map snd L)))) as Hrest.
  { apply IH; [|done]. intros k' o' Hin. apply Hid. by right. }
  cbn. destruct (p o); [|done]. cbn. apply NoDup_cons. split; [|done].
  intros Hin. apply Hfresh.
  change (map orderId ?l) with (orderId <$> l) in Hin.
  apply list_elem_of_fmap in Hin as (o' & Heq & Hin).
  apply list_elem_of_In, filter_In in Hin as [Hin _]. apply list_elem_of_In in Hin.
  change (map snd L) with (L.*2) in Hin.
  apply list_elem_of_fmap in Hin as ([k' o''] & -> & Hin). cbn in Heq.
  assert (orderId o'' = k') as Hk' by (apply Hid; by right).
  assert (orderId o = k) as Hk by (apply Hid; by left).
  apply list_elem_of_fmap. exists (k', o''). split; [cbn; congruence|done].
Qed.

(** X19.  With Redis reachable and a collection of valid orders stored under
    their identifiers, the sweep returns normally and handles exactly the
    orders whose lock has expired: such an order is stored unlocked, with the
    status, the driver and the length of history it had and no pending
    attempt at the end of its history, and its [order_lock] key is gone; every
    other order is stored as it was. *)
Theorem sweep_releases_expired_orders w k o :
  storedOk w ->
  storeReachable w ->
  orders w !! k = Some o ->
  let w' := snd (cleanupExpiredLocks w) in
  fst (cleanupExpiredLocks w) = Ok tt /\
  (isLockExpired (now w) o = false -> orders w' !! k = Some o) /\
  (isLockExpired (now w) o = true ->
   redis w' !! ("order_lock:" +:+ k) = None /\
   exists o',
     orders w' !! k = Some o' /\
     orderId o' = k /\ status o' = status o /\
     OrderModel.driver o' = OrderModel.driver o /\
     isLocked o' = false /\ lockedBy o' = None /\ lockExpiration o' = None /\
     length (assignmentAttempts o') = length (assignmentAttempts o) /\
     (forall a, last (assignmentAttempts o') = Some a -> isPending a = false) /\
     (forall t, isLockExpired t o' = false)).
Proof.
  intros Hok Hr Ho w'. subst w'.
  assert (Forall (fun o => validate o = None) (expiredOrders w)) as Hvalid.
  { apply Forall_forall. intros o' Hin. apply expiredOrders_spec in Hin as [[k' Hk'] _].
    by apply (Hok k' o'). }
  assert (NoDup (map orderId (expiredOrders w))) as Hnd.
  { apply NoDup_ids; [|apply NoDup_fst_map_to_list].
    intros k' o' Hin. apply elem_of_map_to_list in Hin. by apply (Hok k' o'). }
  destruct (forEach_sweeps (expiredOrders w) w Hvalid Hr)
    as (w' & Hrun & Hnow & Hother & Hmine & _ & Hkey).
  unfold cleanupExpiredLocks, tryCatch, bind, clock, Order_find, gets, ret.
  fold (expiredOrders w). rewrite Hrun. cbn [fst snd].
  destruct (Hok k o Ho) as [Hid _].
  split; [done|]. split.
  - intros He. rewrite Hother; [done|].
    change (map orderId ?l) with (orderId <$> l).
    intros Hin. apply list_elem_of_fmap in Hin as (o' & -> & Hin).
    apply expiredOrders_spec in Hin as [[k' Hk'] He'].
    destruct (Hok k' o' Hk') as [Hid' _]. rewrite Hid' in Ho. congruence.
  - intros He.
    assert (o ∈ expiredOrders w) as Hin by (apply expiredOrders_spec; eauto).
    split; [rewrite <- Hid; by apply Hkey|].
    exists (timedOut (now w) o).
    destruct (timedOut_keeps (now w) o) as (Hi & Hs & Hd & Hl & Hb & Hx & Hlen).
    split; [rewrite <- Hid; by apply Hmine|].
    split; [congruence|]. do 6 (split; [done|]).
    split; [apply timedOut_last|].
    intros t. unfold isLockExpired. by rewrite Hl.
Qed.

Lemma sweep_one_redis order w :
  redis (snd (cleanupExpiredLock order w)) = redis w \/
  redis (snd (cleanupExpiredLock order w)) = delete "driver_lock:null" (redis w) \/
  redis (snd (cleanupExpiredLock order w))
  = delete ("order_lock:" +:+ orderId order) (delete "driver_lock:null" (redis w)).
Proof.
  unfold cleanupExpiredLock, withDoc, bind, lift, save, modifyDoc, getDoc, clock, gets,
    redis_del, redisCommand.
  cbn -[lookup insert delete String.append validate releaseLock last alter].
  change (match last (assignmentAttempts (releaseLock order)) with
          | Some lastAttempt => _
          | None => _
          end) with (timedOut (now w) order).
  destruct (timedOut_keeps (now w) order) as (Hid & _ & _ & _ & Hb & _).
  destruct (validate (timedOut (now w) order)); [by left|].
  cbn -[lookup insert delete String.append timedOut].
  destruct (faults w (ops w)); [by left|].
  cbn -[lookup insert delete String.append timedOut].
  rewrite Hb, Hid.
  destruct (faults w (S (ops w))); [right; by left|].
  right. by right.
Qed.

(** The keys of the store are those of [w0], less some order keys and the
    key [driver_lock:null]. *)
Definition onlyOrderKeysDeleted (w0 : World) : World -> Prop := fun w =>
  (forall key value, redis w !! key = Some value -> redis w0 !! key = Some value) /\
  (forall driverId,
      driverId <> "null" ->
      redis w !! ("driver_lock:" +:+ driverId) = redis w0 !! ("driver_lock:" +:+ driverId)) /\
  (forall orderId,
      redis w !! ("order_assignment:" +:+ orderId)
      = redis w0 !! ("order_assignment:" +:+ orderId)).

Lemma driver_key_injective a b : "driver_lock:" +:+ a = "driver_lock:" +:+ b -> a = b.
Proof. intros H. cbn in H. by simplify_eq. Qed.

Lemma sweep_one_keys w0 order : keeps (onlyOrderKeysDeleted w0) (cleanupExpiredLock order).
Proof.
  intros w (Hsub & Hdrv & Hmark).
  assert (forall d, d <> "null" -> "driver_lock:null" <> "driver_lock:" +:+ d) as Hnull.
  { intros d Hd E. apply Hd. symmetry. by apply (driver_key_injective "null" d). }
  unfold onlyOrderKeysDeleted.
  destruct (sweep_one_redis order w) as [->|[->| ->]]; (split; [|split]).
  - done.
  - done.
  - done.
  - intros key value Hk. apply lookup_delete_Some in Hk as [_ Hk]. by apply Hsub.
  - intros d Hd. rewrite lookup_delete_ne by by apply Hnull. by apply Hdrv.
  - intros id. rewrite lookup_delete_ne by (symmetry; apply marker_not_driver_key).
    apply Hmark.
  - intros key value Hk. apply lookup_delete_Some in Hk as [_ Hk].
    apply lookup_delete_Some in Hk as [_ Hk]. by apply Hsub.
  - intros d Hd.
    rewrite lookup_delete_ne by (symmetry; apply driver_key_not_order_key).
    rewrite lookup_delete_ne by by apply Hnull. by apply Hdrv.
  - intros id.
    rewrite lookup_delete_ne by (symmetry; apply marker_not_order_key).
    rewrite lookup_delete_ne by (symmetry; apply marker_not_driver_key).
    apply Hmark.
Qed.

(** X20.  Whatever the orders and whatever Redis does, the sweep returns
    normally, sets no key, and leaves the lock key of every driver and the
    marker of every assignment as they are: the only driver key it deletes is
    [driver_lock:null].  It sets no timer, emits nothing and changes no
    user. *)
Theorem sweep_never_frees_a_driver w :
  let w' := snd (cleanupExpiredLocks w) in
  fst (cleanupExpiredLocks w) = Ok tt /\
  (forall key value, redis w' !! key = Some value -> redis w !! key = Some value) /\
  (forall driverId,
      driverId <> "null" ->
      redis w' !! ("driver_lock:" +:+ driverId) = redis w !! ("driver_lock:" +:+ driverId)) /\
  (forall orderId,
      redis w' !! ("order_assignment:" +:+ orderId)
      = redis w !! ("order_assignment:" +:+ orderId)) /\
  timers w' = timers w /\ emitted w' = emitted w /\ users w' = users w.
Proof.
  intros w'. subst w'.
  destruct (cleanupExpiredLocks_quiet w) as (Hfst & Ht & He).
  split; [exact Hfst|].
  assert (keeps (onlyOrderKeysDeleted w) cleanupExpiredLocks) as Hkeys.
  { unfold cleanupExpiredLocks, clock, Order_find.
    apply keeps_tryCatch; [|intros ?; apply keeps_ret].
    apply keeps_bind; [apply keeps_gets|intros t].
    apply keeps_bind; [apply keeps_gets|intros l].
    apply keeps_forEach. intros order. apply sweep_one_keys. }
  destruct (Hkeys w) as (Hsub & Hdrv & Hmark); [by repeat split|].
  split; [exact Hsub|]. split; [exact Hdrv|]. split; [exact Hmark|].
  split; [exact Ht|]. split; [exact He|].
  by apply (users_cleanupExpiredLocks (fun l => l = users w)).
Qed.

(** ** Concrete runs *)

(** O1 is pending, no key is set and the store answers. *)
Definition freeWorld : World := dispatchWorld pendingOrder ∅ alwaysUp.

(** The store fails at the fourth command. *)
Definition downAtFourth : nat -> bool := fun n => Nat.eqb n 3.

Lemma storedOk_offeredWorld order at_ :
  orderId order = "O1" -> validate order = None -> storedOk (offeredWorld order at_).
Proof.
  intros Hid Hv k o Hk. cbn [offeredWorld orders] in Hk.
  apply lookup_insert_Some in Hk as [[<- <-]|[_ Hk]]; [done|].
  by rewrite lookup_empty in Hk.
Qed.

Lemma service_stores_valid_orders_witness :
  storedOk (snd (handleDriverResponse "O1" "D1" "decline"
                   (offeredWorld (offeredOrder []) 2000))) /\
  storedOk (snd (cleanupExpiredLocks (offeredWorld (offeredOrder []) 400000))).
Proof.
  split.
  - exact (proj1 (proj2 (service_stores_valid_orders lineMetres lineHundredths None
                           (offeredWorld (offeredOrder []) 2000)
                           (storedOk_offeredWorld (offeredOrder []) 2000 eq_refl eq_refl)))
             "O1" "D1" "decline").
  - exact (proj1 (proj2 (proj2 (service_stores_valid_orders lineMetres lineHundredths None
                           (offeredWorld (offeredOrder []) 400000)
                           (storedOk_offeredWorld (offeredOrder []) 400000 eq_refl eq_refl))))).
Defined.

Lemma offer_places_lock_witness :
  lockKeysConsistent
    (snd (snd (offerOrderToDriver None candidateD1
                 (pendingOrder, servedDispatch pendingOrder ∅ alwaysUp))))
    "O1" "D1" /\
  fst (offerOrderToDriver None candidateD1
         (pendingOrder, servedDispatch pendingOrder ∅ alwaysUp))
  = Ok (offerTo "D1") /\
  emitted (snd (snd (offerOrderToDriver None candidateD1
                       (pendingOrder, servedDispatch pendingOrder ∅ alwaysUp))))
  = [mkEmit "driver:D1" "new_order_offer" "O1"] /\
  lockKeysConsistent (snd (snd (offerOrderToDriver None candidateD1 (pendingOrder, freeWorld))))
                     "O1" "D1" /\
  fst (offerOrderToDriver None candidateD1 (pendingOrder, freeWorld))
  = Ok (failure "Failed to offer order to driver").
Proof.
  destruct (offer_places_lock None candidateD1 pendingOrder
              (servedDispatch pendingOrder ∅ alwaysUp))
    as (Hkeys & _ & _ & _ & Hsent & _);
    [intros n; reflexivity|reflexivity|split; reflexivity|].
  destruct (offer_places_lock None candidateD1 pendingOrder freeWorld)
    as (Hkeys' & _ & _ & _ & _ & Hfailed);
    [intros n; reflexivity|reflexivity|split; reflexivity|].
  destruct (Hsent customerC1 eq_refl) as [Hreply Hemit].
  split; [exact Hkeys|]. split; [exact Hreply|]. split; [exact Hemit|].
  split; [exact Hkeys'|]. exact (proj1 (Hfailed eq_refl)).
Defined.

Lemma outstanding_offer_excludes_others_witness :
  fst (offerOrderToDriver None candidateD1 (offeredOrder [], offeredWorld (offeredOrder []) 2000))
  = Ok (failure "Driver is busy with another order") /\
  fst (offerOrderToDriver None candidateD2 (offeredOrder [], offeredWorld (offeredOrder []) 2000))
  = Ok (failure "Order is locked by another driver").
Proof.
  destruct (outstanding_offer_excludes_others None (offeredWorld (offeredOrder []) 2000)
              "O1" "D1") as [Hbusy Hlocked].
  - intros n. reflexivity.
  - split; reflexivity.
  - discriminate.
  - discriminate.
  - split.
    + by rewrite (Hbusy candidateD1 (offeredOrder []) eq_refl).
    + rewrite (Hlocked candidateD2 (offeredOrder []) eq_refl); [reflexivity|discriminate|reflexivity].
Defined.

Lemma offer_interrupted_leaves_driver_key_witness :
  let w' := snd (snd (offerOrderToDriver None candidateD1
                        (pendingOrder, dispatchWorld pendingOrder ∅ downAtFourth))) in
  redis w' !! "driver_lock:D1" = Some "O1" /\ redis w' !! "order_lock:O1" = None.
Proof.
  destruct (offer_interrupted_leaves_driver_key None candidateD1 pendingOrder
              (dispatchWorld pendingOrder ∅ downAtFourth))
    as (_ & Hd & Hk & _).
  - reflexivity.
  - reflexivity.
  - reflexivity.
  - reflexivity.
  - split; reflexivity.
  - split; [exact Hd|exact Hk].
Defined.

Lemma offer_then_accept_witness :
  fst (handleDriverResponse "O1" "D1" "accept"
         (snd (snd (offerOrderToDriver None candidateD1
                      (pendingOrder, servedDispatch pendingOrder ∅ alwaysUp)))))
  = Ok (mkReply true None (Some "Order accepted successfully") None None (Some "O1")) /\
  fst (handleDriverResponse "O1" "D1" "accept"
         (snd (snd (offerOrderToDriver None candidateD1 (pendingOrder, freeWorld)))))
  = Throw NoCustomerId /\
  redis (snd (handleDriverResponse "O1" "D1" "accept"
                (snd (snd (offerOrderToDriver None candidateD1 (pendingOrder, freeWorld))))))
  !! "driver_lock:D1" = None.
Proof.
  destruct (offer_then_accept None candidateD1 pendingOrder
              (servedDispatch pendingOrder ∅ alwaysUp))
    as (_ & _ & _ & _ & Hreply & _);
    [intros n; reflexivity|reflexivity|split; reflexivity|].
  destruct (offer_then_accept None candidateD1 pendingOrder freeWorld)
    as (_ & Hgone & _ & _ & _ & Hthrow);
    [intros n; reflexivity|reflexivity|split; reflexivity|].
  split; [exact (Hreply customerC1 eq_refl)|].
  split; [exact (Hthrow eq_refl)|exact Hgone].
Defined.

Lemma offer_then_decline_witness :
  let offered := snd (snd (offerOrderToDriver None candidateD1 (pendingOrder, freeWorld))) in
  timers (snd (handleDriverResponse "O1" "D1" "decline" offered))
  = [mkTimer 2000 (RetryAssignment "O1")].
Proof.
  destruct (offer_then_decline None candidateD1 pendingOrder freeWorld "decline")
    as (_ & _ & _ & _ & Htimers).
  - intros n. reflexivity.
  - reflexivity.
  - split; reflexivity.
  - reflexivity.
  - exact Htimers.
Defined.

Lemma response_without_offer_is_refused_witness :
  fst (handleDriverResponse "O1" "D1" "accept" freeWorld) = Throw StaleOrExpiredOffer.
Proof.
  rewrite (response_without_offer_is_refused freeWorld "O1" "D1" "accept" pendingOrder).
  - reflexivity.
  - reflexivity.
  - reflexivity.
  - reflexivity.
  - intros [H _]. discriminate H.
Defined.

Lemma response_is_given_once_witness :
  fst (handleDriverResponse "O1" "D1" "accept"
         (snd (handleDriverResponse "O1" "D1" "accept" (offeredWorld (offeredOrder []) 2000))))
  = Throw StaleOrExpiredOffer.
Proof.
  rewrite (response_is_given_once (offeredWorld (offeredOrder []) 2000) "O1" "D1" "accept"
             (offeredOrder []) "D1" "accept").
  - reflexivity.
  - reflexivity.
  - reflexivity.
  - intros n. reflexivity.
  - split; reflexivity.
Defined.

Lemma assign_releases_marker_witness :
  present (redis (snd (assignOrder lineMetres lineHundredths None "O1" freeWorld))
           !! "order_assignment:O1") = false.
Proof.
  apply (assign_releases_marker lineMetres lineHundredths None freeWorld "O1").
  - intros n. reflexivity.
  - reflexivity.
Defined.

Lemma sweep_releases_expired_orders_witness :
  redis (snd (cleanupExpiredLocks (offeredWorld (offeredOrder []) 400000))) !! "order_lock:O1"
  = None.
Proof.
  destruct (sweep_releases_expired_orders (offeredWorld (offeredOrder []) 400000) "O1"
              (offeredOrder [])) as (_ & _ & Hexpired).
  - by apply storedOk_offeredWorld.
  - intros n. reflexivity.
  - reflexivity.
  - destruct Hexpired as [Hkey _]; [reflexivity|exact Hkey].
Defined.

Lemma decline_retries_below_limit_witness :
  timers (snd (handleDriverResponse "O1" "D1" "decline" (offeredWorld (offeredOrder []) 2000)))
  = [mkTimer 2000 (RetryAssignment "O1")].
Proof.
  destruct (decline_retries_below_limit (offeredWorld (offeredOrder []) 2000) "O1" "D1"
              (offeredOrder [])) as (_ & _ & _ & _ & _ & _ & _ & _ & Htimers).
  - reflexivity.
  - reflexivity.
  - reflexivity.
  - intros n. reflexivity.
  - split; reflexivity.
  - exact Htimers.
Defined.

End DispatchFacts.
